(** * Verification of the dictionary search of [advanced_cracker.py]

    A shallow embedding of [PasswordCracker] (src/advanced_cracker.py):
    the probe [_try_decrypt], the worker loop [_worker], the three
    strategies [_crack_single], [_crack_multi], [_crack_hybrid], the
    wordlist loader and the top-level [crack].

    The decryption library (msoffcrypto), the file system and the clock are
    external: they are gathered in the record [World] and every definition
    takes them as an argument.  The thread pool of [_crack_multi] is a small
    interleaving machine driven by a schedule. *)

From Stdlib Require Import String Ascii List Bool Arith ZArith QArith Lia.
From Stdlib Require Import DecimalString Permutation.
Import ListNotations.
Local Close Scope Q_scope.
Local Open Scope string_scope.
Local Open Scope list_scope.

(** ** Results of fallible code *)

(** A Python call either returns a value or raises an exception, of which
    only the class and the text [str(e)] matter here. *)
Inductive exn_class : Type :=
| FileNotFoundError
| ValueError
| OtherError.

Record exn : Type := mkExn { exn_kind : exn_class; exn_text : string }.

Inductive res (A : Type) : Type :=
| Ret (a : A)
| Raise (e : exn).
Arguments Ret {A} a.
Arguments Raise {A} e.

Definition bind {A B : Type} (m : res A) (k : A -> res B) : res B :=
  match m with
  | Ret a => k a
  | Raise e => Raise e
  end.

Notation "x <- m ;; k" := (bind m (fun x => k))
  (at level 61, m at next level, right associativity).

(** ** The external world *)

(** What one pass of the body of the encoding loop observes:
    [load_key(password=...)], [decrypt(temp_file)] and
    [os.path.getsize(temp_file.name)]. *)
Inductive attempt_outcome : Type :=
| InvalidKey                    (* msoffcrypto.exceptions.InvalidKeyError *)
| Fault (msg : string)          (* any other exception, with its text *)
| Decrypted (size : nat).       (* decrypt went through; the size that
                                   getsize reads for the temporary file *)

Record World : Type := mkWorld {
  (* the decryption library on the target document: every pass reloads the
     key from the password, its only argument, and decrypts into a fresh
     temporary file, so what it observes depends on the password only *)
  attempt : string -> attempt_outcome;
  (* [open(self.file_path, 'rb')] and [msoffcrypto.OfficeFile(f)] in the
     worker of the sequential strategy: [Some text] when they raise *)
  open_single : option string;
  (* the same for the worker of chunk [i] of the parallel strategy *)
  open_chunk : nat -> option string;
  (* the two readings of [time.time()], in clock ticks *)
  clock_start : Z;
  clock_end : Z
}.

(** ** Data model *)

Inductive CrackingMode : Type := SINGLE | MULTI | HYBRID.

Record CrackingStats : Type := mkStats {
  attempts : nat;
  start_time : Z;
  end_time : Z;
  found_password : string;
  success : bool;
  errors : list string
}.

(** [CrackingStats()]: the defaults of the dataclass; [__post_init__] sets
    [errors] to the empty list. *)
Definition CrackingStats_new : CrackingStats :=
  mkStats 0 0 0 "" false [].

Definition set_attempts (st : CrackingStats) (n : nat) : CrackingStats :=
  mkStats n (start_time st) (end_time st) (found_password st) (success st)
          (errors st).

Definition set_start_time (st : CrackingStats) (t : Z) : CrackingStats :=
  mkStats (attempts st) t (end_time st) (found_password st) (success st)
          (errors st).

Definition set_end_time (st : CrackingStats) (t : Z) : CrackingStats :=
  mkStats (attempts st) (start_time st) t (found_password st) (success st)
          (errors st).

Definition set_found_password (st : CrackingStats) (p : string)
  : CrackingStats :=
  mkStats (attempts st) (start_time st) (end_time st) p (success st)
          (errors st).

Definition set_success (st : CrackingStats) (b : bool) : CrackingStats :=
  mkStats (attempts st) (start_time st) (end_time st) (found_password st) b
          (errors st).

Definition set_errors (st : CrackingStats) (es : list string)
  : CrackingStats :=
  mkStats (attempts st) (start_time st) (end_time st) (found_password st)
          (success st) es.

(** [self.stats.errors.append(text)] *)
Definition errors_append (st : CrackingStats) (text : string)
  : CrackingStats :=
  set_errors st (errors st ++ [text]).

(** [self.stats.attempts += 1] *)
Definition attempts_incr (st : CrackingStats) : CrackingStats :=
  set_attempts st (S (attempts st)).

(** [shared_data = {'found': False, 'password': None}] *)
Record SharedData : Type := mkShared {
  found : bool;
  password : option string
}.

Definition shared_new : SharedData := mkShared false None.

(** The fields of [self] that the search reads. *)
Record PasswordCracker : Type := mkCracker {
  file_path : string;
  wordlist_path : string;
  mode : CrackingMode;
  threads : Z;
  chunk_size : Z;
  timeout : Z;
  verify_hash : bool
}.

(** ** The probe: [_try_decrypt] *)

Definition encodings : list string :=
  ["utf-8"; "latin1"; "ascii"; "cp1252"].

(** [f"Error with {encoding}: {str(e)}"] *)
Definition error_with (encoding msg : string) : string :=
  ("Error with " ++ encoding ++ ": " ++ msg)%string.

(** The [for encoding in ...] loop over a list of encodings.  The outcome
    is the returned boolean and the statistics with the appended errors.
    The [finally] clause only removes a temporary file. *)
Fixpoint _try_decrypt_loop (w : World) (verify : bool) (pw : string)
  (encs : list string) (st : CrackingStats) : bool * CrackingStats :=
  match encs with
  | [] => (false, st)
  | encoding :: rest =>
      match attempt w pw with
      | InvalidKey => _try_decrypt_loop w verify pw rest st
      | Fault msg =>
          _try_decrypt_loop w verify pw rest
            (errors_append st (error_with encoding msg))
      | Decrypted size =>
          if verify && (0 <? size)%nat then (true, st)
          else _try_decrypt_loop w verify pw rest st
      end
  end.

Definition _try_decrypt (w : World) (verify : bool) (pw : string)
  (st : CrackingStats) : bool * CrackingStats :=
  _try_decrypt_loop w verify pw encodings st.

(** *** The probe, call by call

    Every pass of the loop makes its own call of [load_key] and [decrypt];
    the encoding of the pass is not an argument of either.  Here the answer
    of the library is given per call: [calls k] is what the pass of index
    [k] observes.  The probe above is the case of a library that answers
    every call on a password alike. *)
Fixpoint _try_decrypt_passes (verify : bool) (calls : nat -> attempt_outcome)
  (k : nat) (encs : list string) (st : CrackingStats)
  : bool * CrackingStats :=
  match encs with
  | [] => (false, st)
  | encoding :: rest =>
      match calls k with
      | InvalidKey => _try_decrypt_passes verify calls (S k) rest st
      | Fault msg =>
          _try_decrypt_passes verify calls (S k) rest
            (errors_append st (error_with encoding msg))
      | Decrypted size =>
          if verify && (0 <? size)%nat then (true, st)
          else _try_decrypt_passes verify calls (S k) rest st
      end
  end.

(** The probe over the four encodings of the source. *)
Definition _try_decrypt_calls (verify : bool) (calls : nat -> attempt_outcome)
  (st : CrackingStats) : bool * CrackingStats :=
  _try_decrypt_passes verify calls 0 encodings st.

(** The probe with a single pass of the loop body. *)
Definition _try_decrypt_once (verify : bool) (calls : nat -> attempt_outcome)
  (st : CrackingStats) : bool * CrackingStats :=
  _try_decrypt_passes verify calls 0 ["utf-8"] st.

(** ** The worker: [_worker] run alone *)

(** The [for password in passwords] loop. *)
Fixpoint _worker_loop (w : World) (verify : bool) (passwords : list string)
  (sd : SharedData) (st : CrackingStats) : SharedData * CrackingStats :=
  match passwords with
  | [] => (sd, st)
  | pw :: rest =>
      if found sd then (sd, st)
      else
        let (ok, st1) := _try_decrypt w verify pw st in
        if ok then (mkShared true (Some pw), st1)
        else _worker_loop w verify rest sd (attempts_incr st1)
  end.

(** [opening] is what opening the document did: an exception there is
    caught by the handler of the worker, which records its text. *)
Definition _worker (w : World) (verify : bool) (opening : option string)
  (passwords : list string) (sd : SharedData) (st : CrackingStats)
  : SharedData * CrackingStats :=
  match opening with
  | Some text => (sd, errors_append st text)
  | None => _worker_loop w verify passwords sd st
  end.

(** ** Sequential strategy: [_crack_single] *)

Definition _crack_single (w : World) (self : PasswordCracker)
  (passwords : list string) (st : CrackingStats)
  : option string * CrackingStats :=
  let (sd, st1) :=
    _worker w (verify_hash self) (open_single w) passwords shared_new st in
  (password sd, st1).

(** ** Chunking of the parallel strategy *)

(** [range(0, stop, step)] for [step > 0]: the multiples of [step] below
    [stop]; their number is the quotient rounded up. *)
Definition py_range0 (stop step : nat) : list nat :=
  map (fun j => j * step) (seq 0 ((stop + step - 1) / step)).

(** [l[a:b]] for indices [0 <= a <= b]. *)
Definition py_slice {A : Type} (l : list A) (a b : nat) : list A :=
  firstn (b - a) (skipn a l).

(** [[passwords[i:i + chunk_size] for i in range(0, len(passwords),
    chunk_size)]].  [range] raises on a zero step and is empty on a
    negative one. *)
Definition make_chunks (chunk_size : Z) (passwords : list string)
  : res (list (list string)) :=
  if (chunk_size =? 0)%Z then
    Raise (mkExn ValueError "range() arg 3 must not be zero")
  else if (chunk_size <? 0)%Z then Ret []
  else
    let cs := Z.to_nat chunk_size in
    Ret (map (fun i => py_slice passwords i (i + cs))
             (py_range0 (length passwords) cs)).

(** ** The thread pool of [_crack_multi] *)

(** Where the worker of one chunk stands.  The points are those at which
    another thread can observe or change the shared objects. *)
Inductive wstate : Type :=
| Queued (chunk : list string)      (* submitted, not picked up yet *)
| AtCheck (rest : list string)      (* loop head: about to read 'found' *)
| Probing (pw : string) (encs : list string) (rest : list string)
                                    (* inside _try_decrypt, encodings left *)
| AtWrite (pw : string)             (* probe returned True: before the lock *)
| AtCount (rest : list string)      (* probe returned False: before the lock *)
| Finished.

Record pool : Type := mkPool {
  p_shared : SharedData;
  p_stats : CrackingStats;
  p_workers : list wstate;
  p_waiting : nat                   (* the future [crack] is waiting on *)
}.

(** What the scheduler, or the clock, lets happen next. *)
Inductive choice : Type :=
| Run (i : nat)                     (* worker [i] takes its next step *)
| Expire                            (* the wait on the current future times out *)
| Advance.                          (* the current future is done: next one *)

Inductive event : Type :=
| EvStart (i : nat)
| EvOpenFault (i : nat) (text : string)
| EvExhausted (i : nat)
| EvCancelled (i : nat)
| EvBegin (i : nat) (pw : string)
| EvPass (i : nat) (pw enc : string)
| EvFault (i : nat) (pw enc msg : string)
| EvMatch (i : nat) (pw : string)
| EvNoMatch (i : nat) (pw : string)
| EvWrite (i : nat) (pw : string)
| EvCount (i : nat)
| EvTimeout (k : nat) (share : Q)
| EvDone (k : nat).

Definition is_queued (ws : wstate) : bool :=
  match ws with Queued _ => true | _ => false end.

Definition is_finished (ws : wstate) : bool :=
  match ws with Finished => true | _ => false end.

Definition is_running (ws : wstate) : bool :=
  negb (is_queued ws) && negb (is_finished ws).

Fixpoint set_nth {A : Type} (i : nat) (x : A) (l : list A) : list A :=
  match l, i with
  | [], _ => []
  | _ :: t, O => x :: t
  | h :: t, S j => h :: set_nth j x t
  end.

(** The pool hands out work in submission order and keeps at most
    [nthreads] workers active. *)
Definition can_start (nthreads : nat) (ws : list wstate) (i : nat) : bool :=
  forallb (fun x => negb (is_queued x)) (firstn i ws)
  && (length (filter is_running ws) <? nthreads)%nat.

(** [str(e)] of the exception of [future.result(timeout=...)]: it is raised
    without arguments. *)
Definition timeout_text : string := "".

(** [self.timeout / len(futures)], evaluated in the source only when there
    is a future to wait on. *)
Definition wait_share (timeout : Z) (nfutures : nat) : Q :=
  (inject_Z timeout / inject_Z (Z.of_nat nfutures))%Q.

(** One step of the worker of chunk [i]. *)
Definition worker_step (w : World) (verify : bool) (i : nat) (ws : wstate)
  (sd : SharedData) (st : CrackingStats)
  : option (event * wstate * SharedData * CrackingStats) :=
  match ws with
  | Queued chunk =>
      match open_chunk w i with
      | Some text =>
          Some (EvOpenFault i text, Finished, sd, errors_append st text)
      | None => Some (EvStart i, AtCheck chunk, sd, st)
      end
  | AtCheck [] => Some (EvExhausted i, Finished, sd, st)
  | AtCheck (pw :: rest) =>
      if found sd then Some (EvCancelled i, Finished, sd, st)
      else Some (EvBegin i pw, Probing pw encodings rest, sd, st)
  | Probing pw [] rest => Some (EvNoMatch i pw, AtCount rest, sd, st)
  | Probing pw (enc :: encs) rest =>
      match attempt w pw with
      | InvalidKey => Some (EvPass i pw enc, Probing pw encs rest, sd, st)
      | Fault msg =>
          Some (EvFault i pw enc msg, Probing pw encs rest, sd,
                errors_append st (error_with enc msg))
      | Decrypted size =>
          if verify && (0 <? size)%nat
          then Some (EvMatch i pw, AtWrite pw, sd, st)
          else Some (EvPass i pw enc, Probing pw encs rest, sd, st)
      end
  | AtWrite pw => Some (EvWrite i pw, Finished, mkShared true (Some pw), st)
  | AtCount rest => Some (EvCount i, AtCheck rest, sd, attempts_incr st)
  | Finished => None
  end.

(** One step of the whole pool under a choice; [None] when the choice is
    not enabled. *)
Definition step_at (w : World) (verify : bool) (nthreads : nat) (share : Q)
  (c : choice) (s : pool) : option (event * pool) :=
  match c with
  | Run i =>
      match nth_error (p_workers s) i with
      | None => None
      | Some ws =>
          if is_queued ws && negb (can_start nthreads (p_workers s) i)
          then None
          else
            match worker_step w verify i ws (p_shared s) (p_stats s) with
            | None => None
            | Some (ev, ws', sd', st') =>
                Some (ev, mkPool sd' st' (set_nth i ws' (p_workers s))
                                 (p_waiting s))
            end
      end
  | Expire =>
      match nth_error (p_workers s) (p_waiting s) with
      | None => None
      | Some ws =>
          if is_finished ws then None
          else Some (EvTimeout (p_waiting s) share,
                     mkPool (p_shared s)
                            (errors_append (p_stats s) timeout_text)
                            (p_workers s) (S (p_waiting s)))
      end
  | Advance =>
      match nth_error (p_workers s) (p_waiting s) with
      | None => None
      | Some ws =>
          if is_finished ws
          then Some (EvDone (p_waiting s),
                     mkPool (p_shared s) (p_stats s) (p_workers s)
                            (S (p_waiting s)))
          else None
      end
  end.

(** The pool follows a schedule; a choice that is not enabled is skipped. *)
Fixpoint run_schedule (w : World) (verify : bool) (nthreads : nat)
  (share : Q) (sched : list choice) (s : pool) : list event * pool :=
  match sched with
  | [] => ([], s)
  | c :: rest =>
      match step_at w verify nthreads share c s with
      | Some (ev, s1) =>
          let (tr, s2) := run_schedule w verify nthreads share rest s1 in
          (ev :: tr, s2)
      | None => run_schedule w verify nthreads share rest s
      end
  end.

Fixpoint first_enabled (w : World) (verify : bool) (nthreads : nat)
  (share : Q) (cs : list choice) (s : pool) : option (event * pool) :=
  match cs with
  | [] => None
  | c :: rest =>
      match step_at w verify nthreads share c s with
      | Some r => Some r
      | None => first_enabled w verify nthreads share rest s
      end
  end.

(** Past the schedule, waits never time out and the lowest worker that can
    move does. *)
Definition default_choices (s : pool) : list choice :=
  Advance :: map Run (seq 0 (length (p_workers s))).

Fixpoint drain (w : World) (verify : bool) (nthreads : nat) (share : Q)
  (fuel : nat) (s : pool) : list event * pool :=
  match fuel with
  | O => ([], s)
  | S fuel' =>
      match first_enabled w verify nthreads share (default_choices s) s with
      | None => ([], s)
      | Some (ev, s1) =>
          let (tr, s2) := drain w verify nthreads share fuel' s1 in
          (ev :: tr, s2)
      end
  end.

(** A bound on the number of steps a worker, and the pool, can still take. *)
Definition wmeasure (ws : wstate) : nat :=
  match ws with
  | Queued chunk => 7 * length chunk + 2
  | AtCheck rest => 7 * length rest + 1
  | Probing _ encs rest => length encs + 7 * length rest + 3
  | AtWrite _ => 1
  | AtCount rest => 7 * length rest + 2
  | Finished => 0
  end.

Definition pool_measure (s : pool) : nat :=
  list_sum (map wmeasure (p_workers s))
  + (length (p_workers s) - p_waiting s).

(** The pool is joined ([with ThreadPoolExecutor(...)] ends) when every
    future has been waited on and every worker has returned. *)
Definition joined (s : pool) : bool :=
  (length (p_workers s) <=? p_waiting s)%nat
  && forallb is_finished (p_workers s).

Definition exec (w : World) (verify : bool) (nthreads : nat) (share : Q)
  (sched : list choice) (s : pool) : list event * pool :=
  let (tr1, s1) := run_schedule w verify nthreads share sched s in
  let (tr2, s2) := drain w verify nthreads share (pool_measure s1) s1 in
  (tr1 ++ tr2, s2).

(** ** Parallel strategy: [_crack_multi] *)

Definition pool_init (chunks : list (list string)) (st : CrackingStats)
  : pool :=
  mkPool shared_new st (map Queued chunks) 0.

Definition _crack_multi_run (w : World) (self : PasswordCracker)
  (sched : list choice) (passwords : list string) (st : CrackingStats)
  : res (list event * pool) :=
  chunks <- make_chunks (chunk_size self) passwords ;;
  Ret (exec w (verify_hash self) (Z.to_nat (threads self))
            (wait_share (timeout self) (length chunks))
            sched (pool_init chunks st)).

Definition _crack_multi (w : World) (self : PasswordCracker)
  (sched : list choice) (passwords : list string) (st : CrackingStats)
  : res (option string) * CrackingStats :=
  match _crack_multi_run w self sched passwords st with
  | Raise e => (Raise e, st)
  | Ret (_, s) => (Ret (password (p_shared s)), p_stats s)
  end.

(** ** Hybrid strategy: [_crack_hybrid] *)

(** Truth value of an optional string ([if result:], [bool(result)]). *)
Definition truthy (r : option string) : bool :=
  match r with
  | Some s => negb (s =? "")%string
  | None => false
  end.

Definition _crack_hybrid (w : World) (self : PasswordCracker)
  (sched : list choice) (passwords : list string) (st : CrackingStats)
  : res (option string) * CrackingStats :=
  let common_passwords := firstn 100 passwords in
  let (result, st1) := _crack_single w self common_passwords st in
  if truthy result then (Ret result, st1)
  else
    let remaining_passwords := skipn 100 passwords in
    _crack_multi w self sched remaining_passwords st1.

(** ** Files: [_validate_inputs], [__init__], [_load_passwords] *)

(** A file system maps a path to the content of the file, if it exists.
    The content is the sequence of the bytes of the file. *)
Definition FileSystem : Type := string -> option string.

(** The pieces of [s] between the occurrences of [sep]. *)
Fixpoint split_on (sep : ascii) (s : string) : list string :=
  match s with
  | EmptyString => [EmptyString]
  | String c rest =>
      if Ascii.eqb c sep then EmptyString :: split_on sep rest
      else
        match split_on sep rest with
        | [] => [String c EmptyString]
        | piece :: pieces => String c piece :: pieces
        end
  end.

(** The root of a POSIX path: two leading slashes are kept, one slash, or
    three and more, give a single one. *)
Definition path_root (s : string) : string :=
  match s with
  | String "/" (String "/" (String "/" _)) => "/"
  | String "/" (String "/" _) => "//"
  | String "/" _ => "/"
  | _ => ""
  end.

(** [str(Path(s))] on a POSIX system: empty components and components
    that are a single dot are dropped; the empty path is the dot. *)
Definition path_str (s : string) : string :=
  let parts :=
    filter (fun part => negb (part =? "")%string && negb (part =? ".")%string)
           (split_on "/" s) in
  let text := (path_root s ++ String.concat "/" parts)%string in
  if (text =? "")%string then "." else text.

(** [self.file_path] and [self.wordlist_path] are [Path] objects; the
    record keeps the strings they were made from, which name the same
    files, and [path_str] gives their text. *)
Definition _validate_inputs (fs : FileSystem) (self : PasswordCracker)
  : res unit :=
  match fs (file_path self) with
  | None =>
      Raise (mkExn FileNotFoundError
                   ("Document not found: "
                    ++ path_str (file_path self))%string)
  | Some document =>
      match fs (wordlist_path self) with
      | None =>
          Raise (mkExn FileNotFoundError
                       ("Wordlist not found: "
                        ++ path_str (wordlist_path self))%string)
      | Some wordlist =>
          if (String.length document =? 0)%nat
          then Raise (mkExn ValueError "Document is empty")
          else if (String.length wordlist =? 0)%nat
          then Raise (mkExn ValueError "Wordlist is empty")
          else Ret tt
      end
  end.

(** [max(1, min(threads, 32))] *)
Definition clamp_threads (t : Z) : Z := Z.max 1 (Z.min t 32).

(** [PasswordCracker.__init__] *)
Definition PasswordCracker_init (fs : FileSystem)
  (file_path wordlist_path : string) (mode : CrackingMode)
  (threads chunk_size timeout : Z) (verify_hash : bool)
  : res PasswordCracker :=
  let self := mkCracker file_path wordlist_path mode (clamp_threads threads)
                        chunk_size timeout verify_hash in
  _ <- _validate_inputs fs self ;;
  Ret self.

(** *** Text

    A Python [str] is represented by its UTF-8 encoding, and one of its
    characters by the bytes of its encoding. *)
Definition char : Type := list ascii.

Definition byte_in (lo hi : nat) (b : ascii) : bool :=
  ((lo <=? nat_of_ascii b) && (nat_of_ascii b <=? hi))%nat.

(** The well-formed byte sequences of UTF-8, of one to four bytes. *)
Definition well_formed (c : char) : bool :=
  match c with
  | [b0] => byte_in 0 127 b0
  | [b0; b1] => byte_in 194 223 b0 && byte_in 128 191 b1
  | [b0; b1; b2] =>
      (byte_in 224 224 b0 && byte_in 160 191 b1
       || byte_in 225 236 b0 && byte_in 128 191 b1
       || byte_in 237 237 b0 && byte_in 128 159 b1
       || byte_in 238 239 b0 && byte_in 128 191 b1)
      && byte_in 128 191 b2
  | [b0; b1; b2; b3] =>
      (byte_in 240 240 b0 && byte_in 144 191 b1
       || byte_in 241 243 b0 && byte_in 128 191 b1
       || byte_in 244 244 b0 && byte_in 128 143 b1)
      && byte_in 128 191 b2 && byte_in 128 191 b3
  | _ => false
  end.

(** Decoding with [encoding='utf-8', errors='ignore']: where a well-formed
    sequence starts it gives a character; where none does, the byte is
    dropped and decoding goes on with the next one. *)
Fixpoint decode (bs : list ascii) : list char :=
  match bs with
  | [] => []
  | b0 :: r0 =>
      if well_formed [b0] then [b0] :: decode r0
      else
        match r0 with
        | [] => []
        | b1 :: r1 =>
            if well_formed [b0; b1] then [b0; b1] :: decode r1
            else
              match r1 with
              | [] => decode r0
              | b2 :: r2 =>
                  if well_formed [b0; b1; b2]
                  then [b0; b1; b2] :: decode r2
                  else
                    match r2 with
                    | [] => decode r0
                    | b3 :: r3 =>
                        if well_formed [b0; b1; b2; b3]
                        then [b0; b1; b2; b3] :: decode r3
                        else decode r0
                    end
              end
        end
  end.

(** The string of a sequence of characters. *)
Definition encode (cs : list char) : string :=
  string_of_list_ascii (concat cs).

(** The characters of a string. *)
Definition chars (s : string) : list char :=
  decode (list_ascii_of_string s).

(** [str.isspace] of a character: U+0009 to U+000D, U+001C to U+0020,
    U+0085, U+00A0, U+1680, U+2000 to U+200A, U+2028, U+2029, U+202F,
    U+205F and U+3000. *)
Definition is_space (c : char) : bool :=
  match map nat_of_ascii c with
  | [n] => ((9 <=? n) && (n <=? 13) || (28 <=? n) && (n <=? 32))%nat
  | [n0; n1] => ((n0 =? 194) && ((n1 =? 133) || (n1 =? 160)))%nat
  | [n0; n1; n2] =>
      ((n0 =? 225) && (n1 =? 154) && (n2 =? 128)
       || (n0 =? 226) && (n1 =? 128)
          && ((128 <=? n2) && (n2 <=? 138)
              || (n2 =? 168) || (n2 =? 169) || (n2 =? 175))
       || (n0 =? 226) && (n1 =? 129) && (n2 =? 159)
       || (n0 =? 227) && (n1 =? 128) && (n2 =? 128))%nat
  | _ => false
  end.

(** Line ends of a file read in text mode: line feed and carriage return. *)
Definition is_newline (c : char) : bool :=
  match map nat_of_ascii c with
  | [n] => ((n =? 10) || (n =? 13))%nat
  | _ => false
  end.

Fixpoint lstrip_chars (cs : list char) : list char :=
  match cs with
  | [] => []
  | c :: rest => if is_space c then lstrip_chars rest else cs
  end.

Definition strip_chars (cs : list char) : list char :=
  rev (lstrip_chars (rev (lstrip_chars cs))).

(** [line.strip()] *)
Definition strip (s : string) : string :=
  encode (strip_chars (chars s)).

(** The lines of a decoded text, without their ends.  A line end of two
    characters gives an additional empty line, which the loader drops with
    the other blank lines. *)
Fixpoint text_lines_from (cur : list char) (cs : list char)
  : list (list char) :=
  match cs with
  | [] => [rev cur]
  | c :: rest =>
      if is_newline c then rev cur :: text_lines_from [] rest
      else text_lines_from (c :: cur) rest
  end.

(** The lines of a file opened with
    [open(path, 'r', encoding='utf-8', errors='ignore')]. *)
Definition text_lines (text : string) : list string :=
  map encode (text_lines_from [] (decode (list_ascii_of_string text))).

(** The loop of [_load_passwords] over the lines. *)
Fixpoint load_lines (lines : list string) (passwords : list string)
  : list string :=
  match lines with
  | [] => passwords
  | line :: rest =>
      let pw := strip line in
      if negb (pw =? "")%string && (1 <=? String.length pw)%nat
      then load_lines rest (passwords ++ [pw])
      else load_lines rest passwords
  end.

Definition _load_passwords (fs : FileSystem) (self : PasswordCracker)
  : res (list string) :=
  match fs (wordlist_path self) with
  | None =>
      Raise (mkExn FileNotFoundError
                   ("[Errno 2] No such file or directory: '"
                    ++ path_str (wordlist_path self) ++ "'")%string)
  | Some text => Ret (load_lines (text_lines text) [])
  end.

(** ** The orchestrator: [crack] *)

Definition Outcome : Type := (option string * Z * CrackingStats)%type.

(** The [except Exception as e] branch of [crack]. *)
Definition crack_handler (w : World) (st : CrackingStats) (e : exn)
  : res Outcome :=
  let st1 := errors_append st (exn_text e) in
  Ret (None, (clock_end w - start_time st1)%Z, st1).

(** The dispatch on [self.mode]. *)
Definition run_strategy (w : World) (self : PasswordCracker)
  (sched : list choice) (passwords : list string) (st : CrackingStats)
  : res (option string) * CrackingStats :=
  match mode self with
  | SINGLE =>
      let (result, st1) := _crack_single w self passwords st in
      (Ret result, st1)
  | MULTI => _crack_multi w self sched passwords st
  | HYBRID => _crack_hybrid w self sched passwords st
  end.

(** [result or ""] *)
Definition or_empty (r : option string) : string :=
  match r with
  | Some s => s
  | None => ""
  end.

Definition crack (w : World) (fs : FileSystem) (self : PasswordCracker)
  (sched : list choice) : res Outcome :=
  let st := set_start_time CrackingStats_new (clock_start w) in
  match _load_passwords fs self with
  | Raise e => crack_handler w st e
  | Ret passwords =>
      match passwords with
      | [] =>
          crack_handler w st
            (mkExn ValueError "No valid passwords in wordlist")
      | _ :: _ =>
          match run_strategy w self sched passwords st with
          | (Raise e, st1) => crack_handler w st1 e
          | (Ret result, st1) =>
              let st2 := set_end_time st1 (clock_end w) in
              let st3 := set_success st2 (truthy result) in
              let st4 := set_found_password st3 (or_empty result) in
              Ret (result, (end_time st4 - start_time st4)%Z, st4)
          end
      end
  end.

(** Construction followed by the run, as the callers do. *)
Definition construct_and_crack (w : World) (fs : FileSystem)
  (file_path wordlist_path : string) (mode : CrackingMode)
  (threads chunk_size timeout : Z) (verify_hash : bool)
  (sched : list choice) : res Outcome :=
  self <- PasswordCracker_init fs file_path wordlist_path mode threads
                               chunk_size timeout verify_hash ;;
  crack w fs self sched.

(** ** Vocabulary of the properties *)

(** What the probe answers on one outcome of the library. *)
Definition outcome_matches (w : World) (verify : bool) (pw : string) : bool :=
  match attempt w pw with
  | Decrypted size => verify && (0 <? size)%nat
  | _ => false
  end.

(** Whether one answer of the library makes the probe return True. *)
Definition accepts (verify : bool) (o : attempt_outcome) : bool :=
  match o with
  | Decrypted size => verify && (0 <? size)%nat
  | _ => false
  end.

(** The error entries one probe appends over a list of encodings. *)
Definition probe_errors (w : World) (pw : string) (encs : list string)
  : list string :=
  match attempt w pw with
  | Fault msg => map (fun enc => error_with enc msg) encs
  | _ => []
  end.

(** The answer of the probe on a candidate. *)
Definition probe_matches (w : World) (verify : bool) (pw : string) : bool :=
  fst (_try_decrypt w verify pw CrackingStats_new).

(** An entry of [stats.errors] that reports the fault of the probe of one
    of the candidates. *)
Definition probe_error_entry (w : World) (passwords : list string)
  (entry : string) : Prop :=
  exists pw enc msg,
    In pw passwords /\ In enc encodings /\ attempt w pw = Fault msg
    /\ entry = error_with enc msg.

(** No choice of the schedule lets a wait time out. *)
Definition no_expire (sched : list choice) : Prop :=
  Forall (fun c => c <> Expire) sched.

Definition is_write (ev : event) : bool :=
  match ev with EvWrite _ _ => true | _ => false end.

Definition is_timeout (ev : event) : bool :=
  match ev with EvTimeout _ _ => true | _ => false end.

(** The number of times the match branch wrote the shared slot. *)
Definition count_writes (tr : list event) : nat :=
  length (filter is_write tr).

(** The sequential strategy run on its own, from fresh statistics. *)
Definition sequential_result (w : World) (self : PasswordCracker)
  (passwords : list string) : option string :=
  fst (_crack_single w self passwords CrackingStats_new).

(** The parallel strategy run on its own, from fresh statistics. *)
Definition parallel_result (w : World) (self : PasswordCracker)
  (sched : list choice) (passwords : list string) : res (option string) :=
  fst (_crack_multi w self sched passwords CrackingStats_new).

(** The hybrid strategy in the words of the specification: the sequential
    strategy over the first hundred candidates and, when it finds nothing,
    the parallel strategy over the others. *)
Definition hybrid_spec (w : World) (self : PasswordCracker)
  (sched : list choice) (passwords : list string) : res (option string) :=
  match sequential_result w self (firstn 100 passwords) with
  | Some pw => Ret (Some pw)
  | None => parallel_result w self sched (skipn 100 passwords)
  end.

(** ** Vocabulary of the proofs about the pool *)

(** The first [k] chunks of size [cs] of [l]. *)
Definition chunks_upto {A : Type} (cs : nat) (l : list A) (k : nat)
  : list (list A) :=
  map (fun j => firstn cs (skipn (j * cs) l)) (seq 0 k).

(** Executions of the pool: the events of a sequence of enabled steps. *)
Inductive steps (w : World) (verify : bool) (nthreads : nat) (share : Q)
  : pool -> list event -> pool -> Prop :=
| steps_nil (s : pool) : steps w verify nthreads share s [] s
| steps_cons (s : pool) (c : choice) (ev : event) (s1 : pool)
    (tr : list event) (s2 : pool) :
    step_at w verify nthreads share c s = Some (ev, s1) ->
    steps w verify nthreads share s1 tr s2 ->
    steps w verify nthreads share s (ev :: tr) s2.

(** The candidates a worker still holds. *)
Definition cands (ws : wstate) : list string :=
  match ws with
  | Queued chunk => chunk
  | AtCheck rest => rest
  | Probing pw _ rest => pw :: rest
  | AtWrite pw => [pw]
  | AtCount rest => rest
  | Finished => []
  end.

(** The candidates of a worker that are not counted in [attempts] yet, when
    none of them matches. *)
Definition pending (ws : wstate) : nat :=
  match ws with
  | Queued chunk => length chunk
  | AtCheck rest => length rest
  | Probing _ _ rest => S (length rest)
  | AtWrite _ => 0
  | AtCount rest => S (length rest)
  | Finished => 0
  end.

(** The encodings left in a probe come from the list of the source. *)
Definition encs_ok (ws : wstate) : Prop :=
  match ws with
  | Probing _ encs _ => incl encs encodings
  | _ => True
  end.

Definition not_writing (ws : wstate) : Prop :=
  match ws with
  | AtWrite _ => False
  | _ => True
  end.

(** What [_worker] run alone still does from a point of the worker. *)
Definition finish (w : World) (verify : bool) (i : nat) (ws : wstate)
  (sd : SharedData) (st : CrackingStats) : SharedData * CrackingStats :=
  match ws with
  | Queued chunk => _worker w verify (open_chunk w i) chunk sd st
  | AtCheck rest => _worker_loop w verify rest sd st
  | Probing pw encs rest =>
      let (ok, st1) := _try_decrypt_loop w verify pw encs st in
      if ok then (mkShared true (Some pw), st1)
      else _worker_loop w verify rest sd (attempts_incr st1)
  | AtWrite pw => (mkShared true (Some pw), st)
  | AtCount rest => _worker_loop w verify rest sd (attempts_incr st)
  | Finished => (sd, st)
  end.

(** Two pools that differ in their statistics only. *)
Definition same_but_stats (s s' : pool) : Prop :=
  p_shared s = p_shared s' /\ p_workers s = p_workers s'
  /\ p_waiting s = p_waiting s'.

(** The number of workers that are active. *)
Definition running_count (l : list wstate) : nat :=
  list_sum (map (fun ws => if is_running ws then 1 else 0) l).

(** Whether worker [i] has not returned. *)
Definition alive (i : nat) (s : pool) : nat :=
  match nth_error (p_workers s) i with
  | Some ws => if is_finished ws then 0 else 1
  | None => 0
  end.

Definition is_write_of (i : nat) (ev : event) : bool :=
  match ev with
  | EvWrite j _ => (j =? i)%nat
  | _ => false
  end.

(** The number of writes of the shared slot by worker [i]. *)
Definition writes_of (i : nat) (tr : list event) : nat :=
  length (filter (is_write_of i) tr).

Definition is_set (o : option string) : bool :=
  match o with Some _ => true | None => false end.

(** Two statistics records that agree outside [attempts] and [errors]. *)
Definition same_frame (st st' : CrackingStats) : Prop :=
  start_time st' = start_time st /\ end_time st' = end_time st
  /\ found_password st' = found_password st /\ success st' = success st.

(** [st'] extends the error list of [st] by reports of probe faults on the
    candidates [passwords]. *)
Definition errors_extended (w : World) (passwords : list string)
  (st st' : CrackingStats) : Prop :=
  exists es,
    errors st' = errors st ++ es
    /\ Forall (probe_error_entry w passwords) es.

(** A worker of a search in which no candidate matches. *)
Definition quiet_worker (w : World) (verify : bool)
  (passwords : list string) (ws : wstate) : Prop :=
  Forall (fun q => In q passwords /\ outcome_matches w verify q = false)
         (cands ws)
  /\ encs_ok ws /\ not_writing ws.

(** A pool of such workers, [total] being the number of candidates counted
    or still to count, and [base] the statistics at the start. *)
Definition quiet_pool (w : World) (verify : bool) (passwords : list string)
  (base : CrackingStats) (total : nat) (s : pool) : Prop :=
  p_shared s = shared_new
  /\ Forall (quiet_worker w verify passwords) (p_workers s)
  /\ attempts (p_stats s) + list_sum (map pending (p_workers s)) = total
  /\ errors_extended w passwords base (p_stats s)
  /\ same_frame base (p_stats s).

(** ** Sample inputs *)

Definition newline : string := String (ascii_of_nat 10) EmptyString.

(** A library that accepts "secret" only. *)
Definition secret_world : World :=
  mkWorld (fun pw => if (pw =? "secret")%string then Decrypted 10
                     else InvalidKey)
          None (fun _ => None) 100 105.

(** A library that accepts both "alpha" and "omega". *)
Definition two_keys_world : World :=
  mkWorld (fun pw => if (pw =? "alpha")%string then Decrypted 10
                     else if (pw =? "omega")%string then Decrypted 10
                     else InvalidKey)
          None (fun _ => None) 0 1.

(** A library whose first call fails and whose later calls decrypt. *)
Definition flaky_calls (k : nat) : attempt_outcome :=
  match k with
  | O => Fault "busy"
  | S _ => Decrypted 10
  end.

(** A library that fails on every candidate. *)
Definition faulty_world : World :=
  mkWorld (fun _ => Fault "boom") None (fun _ => None) 0 1.

Definition sample_fs (wordlist : string) : FileSystem :=
  fun path =>
    if (path =? "doc.docx")%string then Some "encrypted"
    else if (path =? "words.txt")%string then Some wordlist
    else None.

Definition sample_wordlist : string :=
  ("aaa" ++ newline ++ "bbb" ++ newline ++ "secret" ++ newline ++ "ccc"
   ++ newline)%string.

Definition sample_cracker (m : CrackingMode) (nthreads csize : Z)
  (verify : bool) : PasswordCracker :=
  mkCracker "doc.docx" "words.txt" m nthreads csize 3600 verify.

(** The no-break space U+00A0, and a wordlist with a word wrapped in
    no-break spaces, a byte that is not UTF-8 before the second word, a
    line end of two characters and a line of white space. *)
Definition nbsp : string :=
  String (ascii_of_nat 194) (String (ascii_of_nat 160) EmptyString).

Definition ragged_wordlist : string :=
  (nbsp ++ "abc" ++ nbsp ++ newline
   ++ String (ascii_of_nat 255) "secret" ++ String (ascii_of_nat 13) newline
   ++ " " ++ nbsp ++ newline)%string.

Definition plain_wordlist : string :=
  ("aaa" ++ newline ++ "bbb" ++ newline ++ "ccc" ++ newline)%string.

(** ** The legacy tool: [main1.py] *)

(** [read_wordlist]: [[line.strip() for line in f if line.strip()]]. *)
Definition read_wordlist (fs : FileSystem) (wordlist_path : string)
  : res (list string) :=
  match fs wordlist_path with
  | None =>
      Raise (mkExn FileNotFoundError
                   ("[Errno 2] No such file or directory: '"
                    ++ wordlist_path ++ "'")%string)
  | Some text =>
      Ret (map strip
               (filter (fun line => negb (strip line =? "")%string)
                       (text_lines text)))
  end.

(** ** Vocabulary of the loader *)

(** A text made of the given words, one per line, each line ended. *)
Definition unlines (words : list string) : string :=
  fold_right (fun word text => (word ++ newline ++ text)%string) EmptyString
             words.

(** A word as the loaders return them: well-formed text that is not empty,
    neither starts nor ends with white space, and holds no line end. *)
Definition plain_word (s : string) : Prop :=
  encode (chars s) = s
  /\ chars s <> []
  /\ (forall c, hd_error (chars s) = Some c -> is_space c = false)
  /\ (forall c, hd_error (rev (chars s)) = Some c -> is_space c = false)
  /\ Forall (fun c => is_newline c = false) (chars s).

(** ** Vocabulary of the results of the pool *)

(** A candidate of the wordlist that the probe accepts. *)
Definition accepted (w : World) (verify : bool) (passwords : list string)
  (pw : string) : Prop :=
  In pw passwords /\ outcome_matches w verify pw = true.

(** A worker that holds candidates of the wordlist only and is about to
    write only a candidate that its probe accepted. *)
Definition sound_worker (w : World) (verify : bool)
  (passwords : list string) (ws : wstate) : Prop :=
  Forall (fun q => In q passwords) (cands ws)
  /\ match ws with
     | AtWrite pw => outcome_matches w verify pw = true
     | _ => True
     end.

Definition sound_shared (w : World) (verify : bool)
  (passwords : list string) (sd : SharedData) : Prop :=
  forall pw, password sd = Some pw -> accepted w verify passwords pw.

Definition sound_pool (w : World) (verify : bool) (passwords : list string)
  (s : pool) : Prop :=
  sound_shared w verify passwords (p_shared s)
  /\ Forall (sound_worker w verify passwords) (p_workers s).

(** A worker that will write, unless it is cancelled: it is before a
    candidate that the probe accepts. *)
Definition promising (w : World) (verify : bool) (ws : wstate) : Prop :=
  match ws with
  | Queued c | AtCheck c | AtCount c =>
      Exists (fun q => outcome_matches w verify q = true) c
  | Probing pw encs rest =>
      (outcome_matches w verify pw = true /\ encs <> [])
      \/ Exists (fun q => outcome_matches w verify q = true) rest
  | AtWrite _ => True
  | Finished => False
  end.

Definition hopeful_pool (w : World) (verify : bool) (s : pool) : Prop :=
  found (p_shared s) = true
  \/ exists i ws, nth_error (p_workers s) i = Some ws /\ promising w verify ws.

(** The same cracker in another mode. *)
Definition with_mode (self : PasswordCracker) (m : CrackingMode)
  : PasswordCracker :=
  mkCracker (file_path self) (wordlist_path self) m (threads self)
            (chunk_size self) (timeout self) (verify_hash self).

(** The number of workers that have returned. *)
Definition finished_count (l : list wstate) : nat :=
  list_sum (map (fun ws => if is_finished ws then 1 else 0) l).

(** The number of chunks of [n] candidates for a positive chunk size. *)
Definition chunk_count (n : nat) (chunk_size : Z) : nat :=
  length (py_range0 n (Z.to_nat chunk_size)).

(** The number of workers that a mode starts on [n] candidates. *)
Definition worker_count (m : CrackingMode) (n : nat) (chunk_size : Z) : nat :=
  match m with
  | SINGLE => 1
  | MULTI => chunk_count n chunk_size
  | HYBRID => 1 + chunk_count (n - 100) chunk_size
  end.

(** A pool on a document that does not open: workers are queued or have
    returned, each return having left the text of the fault. *)
Definition closed_pool (text : string) (base : CrackingStats) (s : pool)
  : Prop :=
  p_shared s = shared_new
  /\ Forall (fun ws => is_queued ws = true \/ ws = Finished) (p_workers s)
  /\ attempts (p_stats s) = attempts base
  /\ errors (p_stats s)
     = errors base ++ repeat text (finished_count (p_workers s)).

(** ** The callers: [main] and the window of the application *)

(** [str(n)] of a counter. *)
Definition str_of_nat (n : nat) : string :=
  NilEmpty.string_of_uint (Nat.to_uint n).

(** What the caller shows for the triple of [crack].  [fmt] is the
    rendering [{duration:.2f}] of the elapsed time. *)
Definition report (fmt : Z -> string) (o : Outcome) : list string :=
  let '(result, duration, stats) := o in
  if truthy result then
    [(newline ++ "Success! Password found: " ++ or_empty result)%string;
     ("Time taken: " ++ fmt duration ++ " seconds")%string;
     ("Attempts: " ++ str_of_nat (attempts stats))%string]
  else
    (newline ++ "Password not found")%string
    :: match errors stats with
       | [] => []
       | _ :: _ =>
           "Errors encountered:"
           :: map (fun e => ("- " ++ e)%string) (errors stats)
       end.

Definition critical (e : exn) : string :=
  ("Critical error: " ++ exn_text e)%string.

(** The parsed command line of [advanced_cracker.py]; the parser admits the
    three values of [CrackingMode] only. *)
Record Args : Type := mkArgs {
  a_file : string;
  a_wordlist : string;
  a_mode : CrackingMode;
  a_threads : Z;
  a_chunk_size : Z;
  a_timeout : Z;
  a_verify : bool
}.

(** [main] after the parsing: the printed lines and the exit status. *)
Definition main (w : World) (fs : FileSystem) (fmt : Z -> string)
  (args : Args) (sched : list choice) : list string * Z :=
  match construct_and_crack w fs (a_file args) (a_wordlist args)
          (a_mode args) (a_threads args) (a_chunk_size args)
          (a_timeout args) (a_verify args) sched with
  | Ret o => (report fmt o, 0%Z)
  | Raise e => ([critical e], 1%Z)
  end.

(** [CrackingMode(value)] *)
Definition CrackingMode_of_value (value : string) : res CrackingMode :=
  if (value =? "single")%string then Ret SINGLE
  else if (value =? "multi")%string then Ret MULTI
  else if (value =? "hybrid")%string then Ret HYBRID
  else Raise (mkExn ValueError
                    ("'" ++ value ++ "' is not a valid CrackingMode")%string).

(** [s.split(" ")[0]]: the text before the first blank. *)
Fixpoint first_piece (s : string) : string :=
  match s with
  | EmptyString => EmptyString
  | String c rest =>
      if (nat_of_ascii c =? 32)%nat then EmptyString
      else String c (first_piece rest)
  end.

(** [s.lower()] on the letters below 128. *)
Definition lower_char (c : ascii) : ascii :=
  let n := nat_of_ascii c in
  if ((65 <=? n) && (n <=? 90))%nat then ascii_of_nat (n + 32) else c.

Fixpoint lower (s : string) : string :=
  match s with
  | EmptyString => EmptyString
  | String c rest => String (lower_char c) (lower rest)
  end.

(** [MainWindow.pushButton_check_clicked] of gui/main.py: the texts appended
    to the output pane, from the text of the line edit and of the combo
    box. *)
Definition pushButton_check_clicked (w : World) (fs : FileSystem)
  (fmt : Z -> string) (line_edit combo_box : string) (sched : list choice)
  : list string :=
  let file_to_crack := strip line_edit in
  let wordlist := "../wordlist.txt" in
  let mode := lower (first_piece combo_box) in
  match
    (m <- CrackingMode_of_value mode ;;
     construct_and_crack w fs file_to_crack wordlist m 4 1000 3600 false
                         sched)
  with
  | Ret o => report fmt o
  | Raise e => [critical e]
  end.

(** ** The legacy tool: probing and sequential search of [main1.py] *)

(** What [try_password] meets: the opening of the document, which it does
    anew for every password, the answer of [is_encrypted], the library on
    one password, and the clock. *)
Record LegacyWorld : Type := mkLegacy {
  l_attempt : string -> attempt_outcome;
  l_open : option string;
  l_encrypted : bool;
  l_clock_start : Z;
  l_clock_end : Z
}.

Definition legacy_encodings : list string := ["utf-8"; "ascii"; "latin1"].

(** [f"Error with encoding {encoding}: {str(e)}"] *)
Definition legacy_error_with (encoding msg : string) : string :=
  ("Error with encoding " ++ encoding ++ ": " ++ msg)%string.

(** [f"Error trying password '{password}': {str(e)}"] *)
Definition trying_error (pw msg : string) : string :=
  ("Error trying password '" ++ pw ++ "': " ++ msg)%string.

(** The encoding loop of [try_password]; [out] is what has been printed. *)
Fixpoint try_password_loop (lw : LegacyWorld) (pw : string)
  (encs : list string) (out : list string) : bool * list string :=
  match encs with
  | [] => (false, out)
  | encoding :: rest =>
      match l_attempt lw pw with
      | InvalidKey => try_password_loop lw pw rest out
      | Fault msg =>
          try_password_loop lw pw rest
            (out ++ [legacy_error_with encoding msg])
      | Decrypted _ => (true, out)
      end
  end.

Definition try_password (lw : LegacyWorld) (pw : string) (out : list string)
  : bool * list string :=
  match l_open lw with
  | Some text => (false, out ++ [trying_error pw text])
  | None =>
      if l_encrypted lw then try_password_loop lw pw legacy_encodings out
      else (false, out ++ [trying_error pw "File is not encrypted"])
  end.

(** The loop of [crack_single_thread]. *)
Fixpoint crack_single_thread_loop (lw : LegacyWorld)
  (passwords : list string) (out : list string)
  : option string * list string :=
  match passwords with
  | [] => (None, out)
  | pw :: rest =>
      let (ok, out1) := try_password lw pw out in
      if ok then (Some pw, out1)
      else crack_single_thread_loop lw rest out1
  end.

Definition crack_single_thread (lw : LegacyWorld) (passwords : list string)
  (out : list string) : option string * Z * list string :=
  let (r, out1) := crack_single_thread_loop lw passwords out in
  (r, (l_clock_end lw - l_clock_start lw)%Z, out1).

(** The chunks of [crack_multi_thread]:
    [chunk_size = len(passwords) // num_threads] and the slices over
    [range(0, len(passwords), chunk_size)].  The division raises
    ZeroDivisionError on zero threads. *)
Definition legacy_chunks (passwords : list string) (num_threads : Z)
  : res (list (list string)) :=
  if (num_threads =? 0)%Z
  then Raise (mkExn OtherError "integer division or modulo by zero")
  else make_chunks (Z.of_nat (length passwords) / num_threads) passwords.

(** ** Vocabulary of the account of a run *)

(** The number of times [x] occurs in [l]. *)
Definition count (x : string) (l : list string) : nat :=
  count_occ string_dec l x.

(** The error entries that the probes of the candidates [probed] leave. *)
Definition fault_entries (w : World) (probed : list string) : list string :=
  flat_map (fun pw => probe_errors w pw encodings) probed.

(** An entry of [stats.errors] that does not come from a probe: the text
    of a wait that timed out, of a worker that could not open the document,
    or of the exception of the chunking. *)
Definition run_fault_entry (w : World) (self : PasswordCracker) (x : string)
  : Prop :=
  x = timeout_text
  \/ open_single w = Some x
  \/ (exists i, open_chunk w i = Some x)
  \/ (exists l e, make_chunks (chunk_size self) l = Raise e
                  /\ x = exn_text e).

(** The same for the workers of a pool. *)
Definition pool_fault_entry (w : World) (x : string) : Prop :=
  x = timeout_text \/ exists i, open_chunk w i = Some x.

(** The candidates a worker has not finished probing. *)
Definition todo (ws : wstate) : list string :=
  match ws with
  | Queued chunk => chunk
  | AtCheck rest => rest
  | Probing pw _ rest => pw :: rest
  | AtCount rest => rest
  | AtWrite _ | Finished => []
  end.

(** The entries that the passes made so far by a probe under way left. *)
Definition partial (w : World) (ws : wstate) : list string :=
  match ws with
  | Probing pw encs _ =>
      probe_errors w pw
        (firstn (length encodings - length encs) encodings)
  | _ => []
  end.

Definition counting (ws : wstate) : nat :=
  match ws with AtCount _ => 1 | _ => 0 end.

Definition writing (ws : wstate) : nat :=
  match ws with AtWrite _ => 1 | _ => 0 end.

(** The encodings left in a probe are a tail of the list of the source, and
    the passes already made did not accept the candidate. *)
Definition probing_ok (w : World) (verify : bool) (ws : wstate) : Prop :=
  match ws with
  | Probing pw encs _ =>
      exists k,
        encs = skipn k encodings
        /\ (0 < k -> outcome_matches w verify pw = false)
  | _ => True
  end.

(** The account of a pool that started from the statistics [base] on the
    candidates [all]: [probed] are the candidates whose probe has returned
    False, [other] the entries that did not come from a probe. *)
Definition ledger (w : World) (verify : bool) (base : CrackingStats)
  (all : list string) (s : pool) (probed other : list string) : Prop :=
  (forall x,
      count x (errors (p_stats s))
      = count x (errors base) + count x (fault_entries w probed)
        + list_sum (map (fun ws => count x (partial w ws)) (p_workers s))
        + count x other)
  /\ attempts (p_stats s) + list_sum (map counting (p_workers s))
     = attempts base + length probed
  /\ (forall q,
         count q probed
         + list_sum (map (fun ws => count q (todo ws)) (p_workers s))
         <= count q all)
  /\ ((forall i, open_chunk w i = None) ->
      found (p_shared s) = false ->
      list_sum (map writing (p_workers s)) = 0 ->
      forall q,
        count q probed
        + list_sum (map (fun ws => count q (todo ws)) (p_workers s))
        = count q all)
  /\ (password (p_shared s) = None -> found (p_shared s) = false)
  /\ Forall (probing_ok w verify) (p_workers s)
  /\ Forall (fun q => outcome_matches w verify q = false) probed
  /\ Forall (pool_fault_entry w) other.

(** What a strategy leaves in the statistics, from [st] to [st'], on the
    candidates [l]. *)
Definition account (w : World) (verify : bool) (ok : string -> Prop)
  (l : list string) (st st' : CrackingStats) (probed other : list string)
  : Prop :=
  (forall x,
      count x (errors st')
      = count x (errors st) + count x (fault_entries w probed)
        + count x other)
  /\ attempts st' = attempts st + length probed
  /\ (forall q, count q probed <= count q l)
  /\ Forall (fun q => outcome_matches w verify q = false) probed
  /\ Forall ok other.

(** * Properties *)

(** ** The probe *)

Lemma set_errors_same (st : CrackingStats) :
  set_errors st (errors st ++ []) = st.
Proof. destruct st; unfold set_errors; simpl; now rewrite app_nil_r. Qed.

Lemma set_errors_twice (st : CrackingStats) (a b : list string) :
  set_errors (set_errors st a) b = set_errors st b.
Proof. reflexivity. Qed.

Lemma try_decrypt_loop_eq (w : World) (verify : bool) (pw : string) :
  forall (encs : list string) (st : CrackingStats),
    _try_decrypt_loop w verify pw encs st =
    (match encs with [] => false | _ :: _ => outcome_matches w verify pw end,
     set_errors st (errors st ++ probe_errors w pw encs)).
Proof.
  unfold outcome_matches, probe_errors.
  induction encs as [|enc encs IH]; intros st; simpl.
  - destruct (attempt w pw); now rewrite set_errors_same.
  - destruct (attempt w pw) as [|msg|size] eqn:E.
    + rewrite IH. destruct encs; reflexivity.
    + rewrite IH. unfold errors_append. rewrite set_errors_twice. simpl.
      rewrite <- app_assoc. simpl. destruct encs; reflexivity.
    + destruct (verify && (0 <? size)%nat) eqn:V.
      * now rewrite set_errors_same.
      * rewrite IH. destruct encs; reflexivity.
Qed.

Lemma try_decrypt_eq (w : World) (verify : bool) (pw : string)
  (st : CrackingStats) :
  _try_decrypt w verify pw st =
  (outcome_matches w verify pw,
   set_errors st (errors st ++ probe_errors w pw encodings)).
Proof. unfold _try_decrypt. now rewrite try_decrypt_loop_eq. Qed.

Lemma probe_matches_eq (w : World) (verify : bool) (pw : string) :
  probe_matches w verify pw = outcome_matches w verify pw.
Proof. unfold probe_matches. now rewrite try_decrypt_eq. Qed.

(** The probe of the search is the probe call by call, for a library
    that answers every call on the password alike. *)
Lemma try_decrypt_loop_passes (w : World) (verify : bool) (pw : string) :
  forall (encs : list string) (k : nat) (st : CrackingStats),
    _try_decrypt_loop w verify pw encs st
    = _try_decrypt_passes verify (fun _ => attempt w pw) k encs st.
Proof.
  induction encs as [|enc encs IH]; intros k st; simpl; [reflexivity|].
  destruct (attempt w pw) as [|msg|size]; try apply IH.
  destruct (verify && (0 <? size)%nat); [reflexivity|apply IH].
Qed.

(** The names of the encodings do not reach the answer of the probe. *)
Lemma try_decrypt_passes_labels (verify : bool)
  (calls : nat -> attempt_outcome) :
  forall (encs encs' : list string) (k : nat) (st st' : CrackingStats),
    length encs = length encs' ->
    fst (_try_decrypt_passes verify calls k encs st)
    = fst (_try_decrypt_passes verify calls k encs' st').
Proof.
  induction encs as [|enc encs IH]; intros [|enc' encs'] k st st' Hlen;
    try discriminate; [reflexivity|].
  injection Hlen as Hlen. simpl.
  destruct (calls k) as [|msg|size]; try now apply IH.
  destruct (verify && (0 <? size)%nat); [reflexivity|now apply IH].
Qed.

(** The probe answers True exactly when one of its calls is accepted. *)
Lemma try_decrypt_passes_any (verify : bool)
  (calls : nat -> attempt_outcome) :
  forall (encs : list string) (k : nat) (st : CrackingStats),
    fst (_try_decrypt_passes verify calls k encs st)
    = existsb (fun j => accepts verify (calls j)) (seq k (length encs)).
Proof.
  induction encs as [|enc encs IH]; intros k st; simpl; [reflexivity|].
  unfold accepts at 1.
  destruct (calls k) as [|msg|size]; try now rewrite IH.
  destruct (verify && (0 <? size)%nat); [reflexivity|now rewrite IH].
Qed.

(** C10, as the code has it: the four passes of the encoding loop make the
    same call, each a call of its own.  When the library answers the four
    calls alike, the boolean answer of the probe is that of a probe with a
    single pass, and a candidate on which the library faults gets one error
    entry per pass, four entries that carry the same fault text (each under
    the name of its encoding), where a single pass would record one. *)
Theorem try_decrypt_four_passes_as_one (verify : bool)
  (calls : nat -> attempt_outcome) (st : CrackingStats) :
  (forall k, k < 4 -> calls k = calls 0) ->
  fst (_try_decrypt_calls verify calls st)
  = fst (_try_decrypt_once verify calls st)
  /\ match calls 0 with
     | Fault msg =>
         errors (snd (_try_decrypt_calls verify calls st)) =
           errors st ++ map (fun enc => error_with enc msg) encodings
         /\ length (errors (snd (_try_decrypt_calls verify calls st))) =
              length (errors st) + 4
         /\ errors (snd (_try_decrypt_once verify calls st)) =
              errors st ++ [error_with "utf-8" msg]
     | _ =>
         errors (snd (_try_decrypt_calls verify calls st)) = errors st
         /\ errors (snd (_try_decrypt_once verify calls st)) = errors st
     end.
Proof.
  intros Hsame. unfold _try_decrypt_calls, _try_decrypt_once, encodings.
  cbn [_try_decrypt_passes].
  rewrite (Hsame 1), (Hsame 2), (Hsame 3) by lia.
  destruct (calls 0) as [|msg|size].
  - repeat split.
  - cbn. repeat split; rewrite <- ?app_assoc; try reflexivity.
    rewrite !length_app. simpl. lia.
  - destruct (verify && (0 <? size)%nat); repeat split.
Qed.

Lemma try_decrypt_four_passes_as_one_witness :
  fst (_try_decrypt_calls true (fun _ => Fault "boom") CrackingStats_new)
  = fst (_try_decrypt_once true (fun _ => Fault "boom") CrackingStats_new)
  /\ (errors (snd (_try_decrypt_calls true (fun _ => Fault "boom")
                     CrackingStats_new))
      = errors CrackingStats_new
        ++ map (fun enc => error_with enc "boom") encodings
      /\ length (errors (snd (_try_decrypt_calls true (fun _ => Fault "boom")
                                CrackingStats_new)))
         = length (errors CrackingStats_new) + 4
      /\ errors (snd (_try_decrypt_once true (fun _ => Fault "boom")
                        CrackingStats_new))
         = errors CrackingStats_new ++ [error_with "utf-8" "boom"]).
Proof.
  apply (try_decrypt_four_passes_as_one true (fun _ => Fault "boom")
           CrackingStats_new).
  intros k _. reflexivity.
Defined.

(** C10 as worded fails when the library does not answer the calls alike:
    the first call faults, the second decrypts; the probe of four passes
    answers True and records the fault, the probe of one pass answers
    False. *)
Lemma try_decrypt_fault_then_success :
  flaky_calls 1 <> flaky_calls 0
  /\ _try_decrypt_calls true flaky_calls CrackingStats_new
     = (true, mkStats 0 0 0 "" false ["Error with utf-8: busy"])
  /\ _try_decrypt_once true flaky_calls CrackingStats_new
     = (false, mkStats 0 0 0 "" false ["Error with utf-8: busy"]).
Proof.
  split; [discriminate|]. split; reflexivity.
Qed.

(** C6 (the code departs from it): with the verification switched off no
    outcome of the library makes the probe answer True, a successful
    decryption included, while the same decryption is a match with the
    verification on. *)
Theorem try_decrypt_unverified_never_matches (w : World) (pw : string)
  (st : CrackingStats) :
  fst (_try_decrypt w false pw st) = false
  /\ fst (_try_decrypt secret_world true "secret" st) = true
  /\ fst (_try_decrypt secret_world false "secret" st) = false.
Proof.
  rewrite !try_decrypt_eq. unfold outcome_matches. simpl.
  destruct (attempt w pw); auto.
Qed.

(** ** Chunking *)

Section Chunking.
Context {A : Type}.
Variable cs : nat.
Hypothesis cs_pos : 0 < cs.

Lemma chunks_upto_succ (l : list A) (k : nat) :
  chunks_upto cs l (S k) = firstn cs l :: chunks_upto cs (skipn cs l) k.
Proof.
  unfold chunks_upto. cbn [seq map]. f_equal.
  rewrite <- seq_shift, map_map. apply map_ext. intros j.
  rewrite skipn_skipn. do 2 f_equal. lia.
Qed.

Lemma chunks_upto_concat :
  forall (k : nat) (l : list A),
    length l <= k * cs -> concat (chunks_upto cs l k) = l.
Proof.
  induction k as [|k IH]; intros l Hlen.
  - destruct l; [reflexivity | simpl in Hlen; lia].
  - rewrite chunks_upto_succ. cbn [concat]. rewrite IH.
    + apply firstn_skipn.
    + rewrite length_skipn. lia.
Qed.

Lemma chunks_upto_full_length :
  forall (j : nat) (l : list A),
    j * cs <= length l -> length (concat (chunks_upto cs l j)) = j * cs.
Proof.
  induction j as [|j IH]; intros l Hlen; [reflexivity|].
  rewrite chunks_upto_succ. cbn [concat].
  rewrite length_app, length_firstn, IH.
  - simpl in Hlen. lia.
  - rewrite length_skipn. simpl in Hlen. lia.
Qed.

Lemma chunks_upto_firstn :
  forall (j k : nat) (l : list A),
    j <= k -> firstn j (chunks_upto cs l k) = chunks_upto cs l j.
Proof.
  induction j as [|j IH]; intros k l Hjk; [reflexivity|].
  destruct k as [|k]; [lia|].
  rewrite !chunks_upto_succ. cbn [firstn]. f_equal. apply IH. lia.
Qed.

Lemma chunk_count_covers (n : nat) : n <= ((n + cs - 1) / cs) * cs.
Proof.
  pose proof (Nat.div_mod_eq (n + cs - 1) cs) as E.
  pose proof (Nat.mod_upper_bound (n + cs - 1) cs ltac:(lia)) as B.
  nia.
Qed.

Lemma chunk_index_inside (n j : nat) :
  j < (n + cs - 1) / cs -> j * cs < n.
Proof.
  intros Hj.
  pose proof (Nat.div_mod_eq (n + cs - 1) cs) as E.
  nia.
Qed.

Lemma py_chunks_eq (l : list A) :
  map (fun i => py_slice l i (i + cs)) (py_range0 (length l) cs) =
  chunks_upto cs l ((length l + cs - 1) / cs).
Proof.
  unfold py_range0, chunks_upto, py_slice. rewrite map_map.
  apply map_ext. intros j. f_equal. lia.
Qed.

Lemma py_chunks_concat (l : list A) :
  concat (map (fun i => py_slice l i (i + cs)) (py_range0 (length l) cs))
  = l.
Proof.
  rewrite py_chunks_eq. apply chunks_upto_concat, chunk_count_covers.
Qed.

Lemma py_chunks_nth (l : list A) (j : nat) (chunk : list A) :
  nth_error (map (fun i => py_slice l i (i + cs))
                 (py_range0 (length l) cs)) j = Some chunk ->
  chunk = firstn cs (skipn (j * cs) l)
  /\ j * cs < length l
  /\ length (concat (firstn j (map (fun i => py_slice l i (i + cs))
                                   (py_range0 (length l) cs)))) = j * cs.
Proof.
  rewrite py_chunks_eq. unfold chunks_upto at 1. intros H.
  assert (Hj : j < (length l + cs - 1) / cs).
  { assert (Hn : nth_error
              (map (fun j => firstn cs (skipn (j * cs) l))
                   (seq 0 ((length l + cs - 1) / cs))) j <> None)
      by (rewrite H; discriminate).
    apply nth_error_Some in Hn.
    now rewrite length_map, length_seq in Hn. }
  rewrite nth_error_map in H.
  destruct (nth_error (seq 0 ((length l + cs - 1) / cs)) j) as [i|] eqn:E;
    [|discriminate].
  apply (nth_error_nth _ _ 0) in E. rewrite seq_nth in E by exact Hj.
  simpl in E. subst i. simpl in H. injection H as <-.
  pose proof (chunk_index_inside _ _ Hj) as Hin.
  split; [reflexivity|]. split; [exact Hin|].
  rewrite chunks_upto_firstn by lia.
  apply chunks_upto_full_length. lia.
Qed.
End Chunking.

Lemma make_chunks_positive (chunk_size : Z) (passwords : list string) :
  (0 < chunk_size)%Z ->
  make_chunks chunk_size passwords =
  Ret (map (fun i => py_slice passwords i (i + Z.to_nat chunk_size))
           (py_range0 (length passwords) (Z.to_nat chunk_size))).
Proof.
  intros H. unfold make_chunks.
  destruct (Z.eqb_spec chunk_size 0); [lia|].
  destruct (Z.ltb_spec chunk_size 0); [lia|]. reflexivity.
Qed.

(** C4: for a positive chunk size the chunks of the parallel strategy
    partition the candidates: their concatenation in order is the candidate
    sequence; chunk [j] is the contiguous run of at most [chunk_size]
    candidates that starts at offset [j * chunk_size], it is not empty, and
    the chunks before it hold exactly the [j * chunk_size] candidates before
    that offset (no gap, no overlap). *)
Theorem make_chunks_partition (chunk_size : Z) (passwords : list string) :
  (0 < chunk_size)%Z ->
  exists chunks,
    make_chunks chunk_size passwords = Ret chunks
    /\ concat chunks = passwords
    /\ forall j chunk,
         nth_error chunks j = Some chunk ->
         chunk = firstn (Z.to_nat chunk_size)
                        (skipn (j * Z.to_nat chunk_size) passwords)
         /\ chunk <> []
         /\ length chunk <= Z.to_nat chunk_size
         /\ length (concat (firstn j chunks)) = j * Z.to_nat chunk_size.
Proof.
  intros Hpos. rewrite (make_chunks_positive _ _ Hpos).
  assert (Hcs : 0 < Z.to_nat chunk_size) by lia.
  eexists. split; [reflexivity|]. split.
  - now apply py_chunks_concat.
  - intros j chunk Hnth.
    destruct (py_chunks_nth _ Hcs _ _ _ Hnth) as (Hc & Hin & Hoff).
    split; [exact Hc|]. split; [|split; [|exact Hoff]].
    + intros Hnil. apply (f_equal (@length string)) in Hc.
      rewrite Hnil, length_firstn, length_skipn in Hc. simpl in Hc. lia.
    + rewrite Hc, length_firstn. lia.
Qed.

Lemma make_chunks_partition_witness :
  exists chunks,
    make_chunks 2%Z ["a"; "b"; "c"; "d"; "e"] = Ret chunks
    /\ concat chunks = ["a"; "b"; "c"; "d"; "e"]
    /\ forall j chunk,
         nth_error chunks j = Some chunk ->
         chunk = firstn (Z.to_nat 2)
                        (skipn (j * Z.to_nat 2) ["a"; "b"; "c"; "d"; "e"])
         /\ chunk <> []
         /\ length chunk <= Z.to_nat 2
         /\ length (concat (firstn j chunks)) = j * Z.to_nat 2.
Proof.
  apply (make_chunks_partition 2%Z ["a"; "b"; "c"; "d"; "e"]). reflexivity.
Defined.

(** ** The worker run alone and the sequential strategy *)

Lemma stats_unchanged (st : CrackingStats) :
  set_errors (set_attempts st (attempts st + 0)) (errors st ++ []) = st.
Proof.
  destruct st. unfold set_errors, set_attempts. simpl.
  now rewrite Nat.add_0_r, app_nil_r.
Qed.

Lemma worker_loop_no_match (w : World) (verify : bool) (sd : SharedData) :
  found sd = false ->
  forall (pre rest : list string) (st : CrackingStats),
    Forall (fun q => probe_matches w verify q = false) pre ->
    _worker_loop w verify (pre ++ rest) sd st =
    _worker_loop w verify rest sd
      (set_errors (set_attempts st (attempts st + length pre))
         (errors st ++ flat_map (fun q => probe_errors w q encodings) pre)).
Proof.
  intros Hsd. induction pre as [|q pre IH]; intros rest st Hpre.
  - simpl. now rewrite stats_unchanged.
  - inversion Hpre as [|? ? Hq Hpre']; subst.
    rewrite probe_matches_eq in Hq.
    cbn [app _worker_loop]. rewrite Hsd, try_decrypt_eq, Hq.
    rewrite IH by assumption. f_equal.
    unfold set_errors, set_attempts, attempts_incr. simpl.
    rewrite <- app_assoc. f_equal. lia.
Qed.

Lemma worker_loop_match (w : World) (verify : bool) (sd : SharedData)
  (pw : string) (post : list string) (st : CrackingStats) :
  found sd = false ->
  probe_matches w verify pw = true ->
  _worker_loop w verify (pw :: post) sd st =
  (mkShared true (Some pw),
   set_errors st (errors st ++ probe_errors w pw encodings)).
Proof.
  intros Hsd Hpw. rewrite probe_matches_eq in Hpw.
  cbn [_worker_loop]. now rewrite Hsd, try_decrypt_eq, Hpw.
Qed.

Lemma probe_errors_of_match (w : World) (verify : bool) (pw : string)
  (encs : list string) :
  probe_matches w verify pw = true -> probe_errors w pw encs = [].
Proof.
  rewrite probe_matches_eq. unfold outcome_matches, probe_errors.
  destruct (attempt w pw); [reflexivity | discriminate | reflexivity].
Qed.

(** The sequential strategy on a sequence whose first matching candidate
    comes after [pre]. *)
Lemma crack_single_first_match (w : World) (self : PasswordCracker)
  (pre post : list string) (pw : string) (st : CrackingStats) :
  open_single w = None ->
  Forall (fun q => probe_matches w (verify_hash self) q = false) pre ->
  probe_matches w (verify_hash self) pw = true ->
  _crack_single w self (pre ++ pw :: post) st =
  (Some pw,
   set_errors (set_attempts st (attempts st + length pre))
     (errors st ++ flat_map (fun q => probe_errors w q encodings) pre)).
Proof.
  intros Hopen Hpre Hpw. unfold _crack_single, _worker. rewrite Hopen.
  rewrite worker_loop_no_match by (assumption || reflexivity).
  rewrite worker_loop_match by (assumption || reflexivity).
  rewrite (probe_errors_of_match _ _ _ _ Hpw). simpl.
  now rewrite app_nil_r.
Qed.

(** The sequential strategy on a sequence without a matching candidate. *)
Lemma crack_single_no_match (w : World) (self : PasswordCracker)
  (passwords : list string) (st : CrackingStats) :
  open_single w = None ->
  Forall (fun q => probe_matches w (verify_hash self) q = false) passwords ->
  _crack_single w self passwords st =
  (None,
   set_errors (set_attempts st (attempts st + length passwords))
     (errors st ++ flat_map (fun q => probe_errors w q encodings) passwords)).
Proof.
  intros Hopen Hall. unfold _crack_single, _worker. rewrite Hopen.
  rewrite <- (app_nil_r passwords) at 1.
  rewrite worker_loop_no_match by (assumption || reflexivity).
  reflexivity.
Qed.

(** C1, as the code has it: when the first matching candidate of the
    wordlist comes after the candidates [pre], the sequential strategy of
    [crack] returns that candidate, and the returned [stats.attempts] is the
    number of candidates before it: the matching probe is not counted. *)
Theorem crack_sequential_first_match (w : World) (fs : FileSystem)
  (self : PasswordCracker) (sched : list choice) (pre post : list string)
  (pw : string) :
  mode self = SINGLE ->
  open_single w = None ->
  _load_passwords fs self = Ret (pre ++ pw :: post) ->
  Forall (fun q => probe_matches w (verify_hash self) q = false) pre ->
  probe_matches w (verify_hash self) pw = true ->
  exists st,
    crack w fs self sched =
      Ret (Some pw, (clock_end w - clock_start w)%Z, st)
    /\ attempts st = length pre
    /\ found_password st = pw.
Proof.
  intros Hmode Hopen Hload Hpre Hpw. unfold crack. rewrite Hload.
  destruct (pre ++ pw :: post) as [|c cs] eqn:E.
  - destruct pre; discriminate.
  - rewrite <- E. unfold run_strategy. rewrite Hmode.
    rewrite crack_single_first_match by assumption.
    eexists. split; [reflexivity|]. split; reflexivity.
Qed.

Lemma crack_sequential_first_match_witness :
  exists st,
    crack secret_world (sample_fs sample_wordlist)
          (sample_cracker SINGLE 4 1000 true) [] =
      Ret (Some "secret",
           (clock_end secret_world - clock_start secret_world)%Z, st)
    /\ attempts st = length ["aaa"; "bbb"]
    /\ found_password st = "secret".
Proof.
  apply (crack_sequential_first_match secret_world (sample_fs sample_wordlist)
           (sample_cracker SINGLE 4 1000 true) [] ["aaa"; "bbb"] ["ccc"]
           "secret");
    try reflexivity.
  repeat constructor.
Defined.

(** C1 as worded fails on the example of the specification: candidates
    aaa, bbb, secret, ccc in sequential mode give "secret", the third
    candidate, with two attempts: neither three, the count of probes up to
    and including the match, nor four, one more than its 1-indexed
    position. *)
Lemma crack_sequential_example_attempts :
  exists t st,
    crack secret_world (sample_fs sample_wordlist)
          (sample_cracker SINGLE 4 1000 true) [] = Ret (Some "secret", t, st)
    /\ attempts st = 2
    /\ attempts st <> 3
    /\ attempts st <> 4.
Proof.
  eexists. eexists. split; [vm_compute; reflexivity|].
  repeat split; discriminate.
Qed.

(** ** The pool: executions, termination *)

(** Case analysis on everything a step of a worker examined. *)
Ltac worker_step_cases H :=
  unfold worker_step in H;
  repeat match type of H with
         | context [match ?x with _ => _ end] => destruct x eqn:?
         end;
  try discriminate.

(** The shape of an enabled step. *)
Lemma step_at_inv (w : World) (verify : bool) (nthreads : nat) (share : Q)
  (c : choice) (s : pool) (ev : event) (s1 : pool) :
  step_at w verify nthreads share c s = Some (ev, s1) ->
  (exists i ws ws' sd' st',
      c = Run i /\ nth_error (p_workers s) i = Some ws
      /\ (is_queued ws = true -> can_start nthreads (p_workers s) i = true)
      /\ worker_step w verify i ws (p_shared s) (p_stats s)
         = Some (ev, ws', sd', st')
      /\ s1 = mkPool sd' st' (set_nth i ws' (p_workers s)) (p_waiting s))
  \/ (exists ws,
         c = Expire /\ nth_error (p_workers s) (p_waiting s) = Some ws
         /\ is_finished ws = false
         /\ ev = EvTimeout (p_waiting s) share
         /\ s1 = mkPool (p_shared s) (errors_append (p_stats s) timeout_text)
                        (p_workers s) (S (p_waiting s)))
  \/ (c = Advance
      /\ nth_error (p_workers s) (p_waiting s) = Some Finished
      /\ ev = EvDone (p_waiting s)
      /\ s1 = mkPool (p_shared s) (p_stats s) (p_workers s)
                     (S (p_waiting s))).
Proof.
  destruct c as [i| |]; simpl.
  - destruct (nth_error (p_workers s) i) as [ws|] eqn:E; [|discriminate].
    destruct (is_queued ws && negb (can_start nthreads (p_workers s) i))
      eqn:G; [discriminate|].
    destruct (worker_step w verify i ws (p_shared s) (p_stats s))
      as [[[[ev' ws'] sd'] st']|] eqn:Ew; [|discriminate].
    intros [= <- <-]. left. exists i, ws, ws', sd', st'.
    repeat split; auto. intros Q. rewrite Q in G. simpl in G.
    now destruct (can_start nthreads (p_workers s) i).
  - destruct (nth_error (p_workers s) (p_waiting s)) as [ws|] eqn:E;
      [|discriminate].
    destruct (is_finished ws) eqn:F; [discriminate|].
    intros [= <- <-]. right. left. exists ws. auto.
  - destruct (nth_error (p_workers s) (p_waiting s)) as [ws|] eqn:E;
      [|discriminate].
    destruct ws; simpl; try discriminate.
    intros [= <- <-]. right. right. auto.
Qed.

(** The three kinds of steps of the pool: worker [i] moves from [ws] to
    [ws'], the wait on the current future times out, or it ends. *)
Ltac pool_step_cases H i ws ws' sd' st' Hc Hn Hw :=
  apply step_at_inv in H;
  destruct H as [(i & ws & ws' & sd' & st' & Hc & Hn & _ & Hw & ->)
                |[(ws & Hc & Hn & _ & -> & ->)|(Hc & Hn & -> & ->)]].

Section Pool.
Variable w : World.
Variable verify : bool.
Variable nthreads : nat.
Variable share : Q.

Local Abbreviation stepP := (step_at w verify nthreads share).
Local Abbreviation stepsP := (steps w verify nthreads share).
Local Abbreviation runP := (run_schedule w verify nthreads share).
Local Abbreviation pickP := (first_enabled w verify nthreads share).
Local Abbreviation drainP := (drain w verify nthreads share).
Local Abbreviation execP := (exec w verify nthreads share).

Lemma steps_app (s s1 s2 : pool) (tr1 tr2 : list event) :
  stepsP s tr1 s1 -> stepsP s1 tr2 s2 -> stepsP s (tr1 ++ tr2) s2.
Proof.
  induction 1 as [|s c ev s' tr s'' Hstep _ IH]; intros H2; simpl.
  - exact H2.
  - eapply steps_cons; [exact Hstep | now apply IH].
Qed.

Lemma run_schedule_steps (sched : list choice) :
  forall s, stepsP s (fst (runP sched s)) (snd (runP sched s)).
Proof.
  induction sched as [|c sched IH]; intros s; simpl.
  - constructor.
  - destruct (stepP c s) as [[ev s1]|] eqn:E.
    + specialize (IH s1). destruct (runP sched s1) as [tr s2].
      simpl in *. eapply steps_cons; eassumption.
    + apply IH.
Qed.

Lemma first_enabled_step (cs : list choice) (s : pool) (r : event * pool) :
  pickP cs s = Some r -> exists c, In c cs /\ stepP c s = Some r.
Proof.
  induction cs as [|c cs IH]; simpl; [discriminate|].
  destruct (stepP c s) as [r'|] eqn:E.
  - intros [= <-]. exists c. auto.
  - intros H. destruct (IH H) as (c' & Hin & Hc'). exists c'. auto.
Qed.

Lemma first_enabled_none (cs : list choice) (s : pool) :
  pickP cs s = None -> forall c, In c cs -> stepP c s = None.
Proof.
  induction cs as [|c cs IH]; simpl; [contradiction|].
  destruct (stepP c s) eqn:E; [discriminate|].
  intros H c' [<-|Hin]; auto.
Qed.

Lemma drain_steps (fuel : nat) :
  forall s, stepsP s (fst (drainP fuel s)) (snd (drainP fuel s)).
Proof.
  induction fuel as [|fuel IH]; intros s; cbn [drain].
  - constructor.
  - destruct (pickP (default_choices s) s) as [[ev s1]|] eqn:E.
    + destruct (first_enabled_step _ _ _ E) as (c & _ & Hc).
      specialize (IH s1). destruct (drainP fuel s1) as [tr s2].
      cbn [fst snd] in *. eapply steps_cons; eassumption.
    + constructor.
Qed.

Lemma exec_steps (sched : list choice) (s : pool) :
  stepsP s (fst (execP sched s)) (snd (execP sched s)).
Proof.
  unfold execP.
  pose proof (run_schedule_steps sched s) as H1.
  destruct (runP sched s) as [tr1 s1]. simpl in H1.
  pose proof (drain_steps (pool_measure s1) s1) as H2.
  destruct (drainP (pool_measure s1) s1) as [tr2 s2]. simpl in *.
  eapply steps_app; eassumption.
Qed.

(** A property kept by every step whose event passes [okev] holds along
    every execution made of such events. *)
Lemma steps_invariant (Inv : pool -> Prop) (okev : event -> bool) :
  (forall c s ev s1,
      Inv s -> stepP c s = Some (ev, s1) -> okev ev = true -> Inv s1) ->
  forall s tr s',
    stepsP s tr s' -> forallb okev tr = true -> Inv s -> Inv s'.
Proof.
  intros Hkeep s tr s' H.
  induction H as [|s c ev s1 tr s2 Hstep _ IH]; intros Hok Hs; [exact Hs|].
  simpl in Hok. apply andb_true_iff in Hok as [Hev Htr].
  apply IH; [exact Htr|]. eapply Hkeep; eassumption.
Qed.

Lemma forallb_all_true (tr : list event) :
  forallb (fun _ => true) tr = true.
Proof. induction tr; simpl; auto. Qed.

Lemma steps_invariant_all (Inv : pool -> Prop) :
  (forall c s ev s1, Inv s -> stepP c s = Some (ev, s1) -> Inv s1) ->
  forall s tr s', stepsP s tr s' -> Inv s -> Inv s'.
Proof.
  intros Hkeep s tr s' H Hs.
  eapply (steps_invariant Inv (fun _ => true)); eauto using forallb_all_true.
Qed.
(** *** Updating one worker *)

Lemma length_set_nth {A : Type} (i : nat) (x : A) (l : list A) :
  length (set_nth i x l) = length l.
Proof.
  revert i. induction l as [|h t IH]; intros [|i]; simpl; auto.
Qed.

Lemma nth_error_set_nth_same {A : Type} (x : A) (l : list A) :
  forall i y, nth_error l i = Some y -> nth_error (set_nth i x l) i = Some x.
Proof.
  induction l as [|h t IH]; intros [|i] y H; simpl in *;
    try discriminate; eauto.
Qed.

Lemma nth_error_set_nth_other {A : Type} (x : A) (l : list A) :
  forall i j, i <> j -> nth_error (set_nth i x l) j = nth_error l j.
Proof.
  induction l as [|h t IH]; intros [|i] [|j] H; simpl; auto; congruence.
Qed.

Lemma list_sum_set_nth {A : Type} (f : A -> nat) (x : A) (l : list A) :
  forall i y,
    nth_error l i = Some y ->
    list_sum (map f (set_nth i x l)) + f y = list_sum (map f l) + f x.
Proof.
  induction l as [|h t IH]; intros [|i] y H; simpl in *; try discriminate.
  - injection H as ->. lia.
  - specialize (IH _ _ H). lia.
Qed.

Lemma Forall_set_nth {A : Type} (P : A -> Prop) (x : A) (l : list A) :
  forall i, Forall P l -> P x -> Forall P (set_nth i x l).
Proof.
  induction l as [|h t IH]; intros [|i] Hl Hx; simpl; auto;
    inversion Hl; subst; constructor; auto.
Qed.

Lemma Forall_nth_error {A : Type} (P : A -> Prop) (l : list A) (i : nat)
  (x : A) :
  Forall P l -> nth_error l i = Some x -> P x.
Proof.
  intros Hl Hx. rewrite Forall_forall in Hl.
  eapply Hl, nth_error_In, Hx.
Qed.

(** *** Every step brings the pool closer to the join *)

Lemma worker_step_measure (i : nat) (ws ws' : wstate) (ev : event)
  (sd sd' : SharedData) (st st' : CrackingStats) :
  worker_step w verify i ws sd st = Some (ev, ws', sd', st') ->
  wmeasure ws' < wmeasure ws.
Proof.
  intros H. worker_step_cases H; injection H as <- <- <- <-; simpl; lia.
Qed.

Lemma nth_error_lt {A : Type} (l : list A) (i : nat) (x : A) :
  nth_error l i = Some x -> i < length l.
Proof. intros H. apply nth_error_Some. rewrite H. discriminate. Qed.

Lemma step_measure (c : choice) (s : pool) (ev : event) (s1 : pool) :
  stepP c s = Some (ev, s1) -> pool_measure s1 < pool_measure s.
Proof.
  intros H. pool_step_cases H i ws ws' sd' st' Hc Hn Hw;
    unfold pool_measure; simpl.
  - apply worker_step_measure in Hw.
    pose proof (list_sum_set_nth wmeasure ws' (p_workers s) i ws Hn).
    rewrite length_set_nth. lia.
  - apply nth_error_lt in Hn. lia.
  - apply nth_error_lt in Hn. lia.
Qed.

(** *** A pool that is not joined can move *)

Lemma running_can_step (s : pool) (i : nat) (ws : wstate) :
  nth_error (p_workers s) i = Some ws ->
  is_running ws = true ->
  stepP (Run i) s <> None.
Proof.
  intros Hn Hr. simpl. rewrite Hn.
  destruct ws as [chunk|[|pw rest]|pw [|enc encs] rest|pw|rest|];
    simpl in *; try discriminate.
  - destruct (found (p_shared s)); discriminate.
  - destruct (attempt w pw) as [|msg|size];
      [| |destruct (verify && (0 <? size)%nat)]; discriminate.
Qed.

Lemma first_queued (l : list wstate) :
  existsb is_queued l = true ->
  exists i chunk,
    nth_error l i = Some (Queued chunk)
    /\ forallb (fun x => negb (is_queued x)) (firstn i l) = true.
Proof.
  induction l as [|h t IH]; simpl; [discriminate|].
  destruct (is_queued h) eqn:Q; simpl.
  - intros _. destruct h; try discriminate. exists 0, chunk. auto.
  - intros H. destruct (IH H) as (i & chunk & Hn & Hf).
    exists (S i), chunk. simpl. rewrite Q. auto.
Qed.

Lemma no_running_filter (l : list wstate) :
  existsb is_running l = false -> filter is_running l = [].
Proof.
  induction l as [|h t IH]; simpl; [reflexivity|].
  destruct (is_running h); simpl; [discriminate|auto].
Qed.

Lemma existsb_nth_error {A : Type} (f : A -> bool) (l : list A) :
  existsb f l = true -> exists i x, nth_error l i = Some x /\ f x = true.
Proof.
  induction l as [|h t IH]; simpl; [discriminate|].
  destruct (f h) eqn:F; simpl.
  - intros _. exists 0, h. auto.
  - intros H. destruct (IH H) as (i & x & Hn & Hx). exists (S i), x. auto.
Qed.

Lemma all_finished (l : list wstate) :
  existsb is_running l = false -> existsb is_queued l = false ->
  forallb is_finished l = true.
Proof.
  induction l as [|h t IH]; simpl; [reflexivity|].
  intros Hr Hq. apply orb_false_iff in Hr as [Hr1 Hr2].
  apply orb_false_iff in Hq as [Hq1 Hq2]. rewrite IH by assumption.
  unfold is_running in Hr1. rewrite Hq1 in Hr1. simpl in Hr1.
  destruct (is_finished h); [reflexivity|discriminate].
Qed.

Lemma forallb_nth_error {A : Type} (f : A -> bool) (l : list A) (i : nat)
  (x : A) :
  forallb f l = true -> nth_error l i = Some x -> f x = true.
Proof.
  intros Hl Hx. rewrite forallb_forall in Hl.
  eapply Hl, nth_error_In, Hx.
Qed.

Lemma pool_progress (s : pool) :
  1 <= nthreads ->
  joined s = false ->
  exists c, In c (default_choices s) /\ stepP c s <> None.
Proof.
  intros Hthreads Hj. unfold default_choices.
  destruct (existsb is_running (p_workers s)) eqn:Er.
  - apply existsb_nth_error in Er as (i & ws & Hn & Hr).
    exists (Run i). split.
    + right. apply in_map, in_seq. apply nth_error_lt in Hn. lia.
    + eapply running_can_step; eassumption.
  - destruct (existsb is_queued (p_workers s)) eqn:Eq.
    + apply first_queued in Eq as (i & chunk & Hn & Hf).
      exists (Run i). split.
      * right. apply in_map, in_seq. apply nth_error_lt in Hn. lia.
      * simpl. rewrite Hn. unfold can_start.
        rewrite Hf, (no_running_filter _ Er). simpl.
        destruct nthreads; [lia|]. simpl.
        destruct (open_chunk w i); discriminate.
    + pose proof (all_finished _ Er Eq) as Hall.
      unfold joined in Hj. rewrite Hall, andb_true_r in Hj.
      apply Nat.leb_gt in Hj.
      destruct (nth_error (p_workers s) (p_waiting s)) as [ws|] eqn:Hn.
      * exists Advance. split; [now left|]. simpl. rewrite Hn.
        rewrite (forallb_nth_error _ _ _ _ Hall Hn). discriminate.
      * apply nth_error_None in Hn. lia.
Qed.

Lemma pick_progress (s : pool) :
  1 <= nthreads ->
  joined s = false ->
  pickP (default_choices s) s <> None.
Proof.
  intros Hthreads Hj Hnone.
  destruct (pool_progress s Hthreads Hj) as (c & Hin & Hc).
  apply Hc. eapply first_enabled_none; eassumption.
Qed.

(** With fuel for its measure, the pool runs to the join. *)
Lemma drain_joined (fuel : nat) :
  1 <= nthreads ->
  forall s, pool_measure s <= fuel -> joined (snd (drainP fuel s)) = true.
Proof.
  intros Hthreads. induction fuel as [|fuel IH]; intros s Hm; cbn [drain].
  - simpl. destruct (joined s) eqn:Hj; [reflexivity|].
    pose proof (pick_progress s Hthreads Hj) as Hp.
    destruct (pickP (default_choices s) s) as [[ev s1]|] eqn:E;
      [|contradiction].
    apply first_enabled_step in E as (c & _ & Hc).
    apply step_measure in Hc. lia.
  - destruct (pickP (default_choices s) s) as [[ev s1]|] eqn:E.
    + pose proof E as E'.
      apply first_enabled_step in E' as (c & _ & Hc).
      apply step_measure in Hc.
      specialize (IH s1 ltac:(lia)).
      destruct (drainP fuel s1) as [tr s2]. exact IH.
    + simpl. destruct (joined s) eqn:Hj; [reflexivity|].
      exfalso. eapply pick_progress; eassumption.
Qed.

Lemma exec_joined (sched : list choice) (s : pool) :
  1 <= nthreads -> joined (snd (execP sched s)) = true.
Proof.
  intros Hthreads. unfold exec.
  destruct (runP sched s) as [tr1 s1].
  pose proof (drain_joined (pool_measure s1) Hthreads s1 (le_n _)) as H.
  destruct (drainP (pool_measure s1) s1) as [tr2 s2]. exact H.
Qed.

(** *** The shared flag and slot *)

(** Only the match branch writes the shared object, and it writes both
    fields at once. *)
Lemma step_shared (c : choice) (s : pool) (ev : event) (s1 : pool) :
  stepP c s = Some (ev, s1) ->
  match ev with
  | EvWrite i pw =>
      p_shared s1 = mkShared true (Some pw)
      /\ nth_error (p_workers s) i = Some (AtWrite pw)
      /\ p_workers s1 = set_nth i Finished (p_workers s)
  | _ => p_shared s1 = p_shared s
  end.
Proof.
  intros H. pool_step_cases H i ws ws' sd' st' Hc Hn Hw; try reflexivity.
  worker_step_cases Hw; injection Hw as <- <- <- <-; subst; simpl; auto.
Qed.

Lemma step_found_monotone (c : choice) (s : pool) (ev : event) (s1 : pool) :
  stepP c s = Some (ev, s1) ->
  found (p_shared s) = true -> found (p_shared s1) = true.
Proof.
  intros H Hf. apply step_shared in H.
  destruct ev; try (rewrite H; exact Hf).
  destruct H as (-> & _). reflexivity.
Qed.

Lemma step_found_slot (c : choice) (s : pool) (ev : event) (s1 : pool) :
  stepP c s = Some (ev, s1) ->
  found (p_shared s) = is_set (password (p_shared s)) ->
  found (p_shared s1) = is_set (password (p_shared s1)).
Proof.
  intros H Hf. apply step_shared in H.
  destruct ev; try (rewrite H; exact Hf).
  destruct H as (-> & _). reflexivity.
Qed.

Lemma worker_step_write_inv (i j : nat) (ws ws' : wstate) (pw : string)
  (sd sd' : SharedData) (st st' : CrackingStats) :
  worker_step w verify i ws sd st = Some (EvWrite j pw, ws', sd', st') ->
  j = i /\ ws = AtWrite pw /\ ws' = Finished.
Proof.
  intros H. worker_step_cases H. injection H as <- <- <- <- <-. auto.
Qed.

Lemma worker_step_not_finished (i : nat) (ws : wstate) (sd : SharedData)
  (st : CrackingStats) :
  worker_step w verify i ws sd st <> None -> is_finished ws = false.
Proof. destruct ws; simpl; congruence. Qed.

(** A worker never leaves [Finished], and is there after its write. *)
Lemma step_alive (i : nat) (c : choice) (s : pool) (ev : event) (s1 : pool) :
  stepP c s = Some (ev, s1) ->
  (if is_write_of i ev then 1 else 0) + alive i s1 <= alive i s.
Proof.
  intros H. pool_step_cases H j ws ws' sd' st' Hc Hn Hw;
    unfold alive; simpl; try lia.
  assert (Hnf : is_finished ws = false)
    by (apply (worker_step_not_finished j ws (p_shared s) (p_stats s));
        rewrite Hw; discriminate).
  destruct (Nat.eq_dec j i) as [->|Hji].
  - rewrite (nth_error_set_nth_same _ _ _ _ Hn), Hn, Hnf.
    destruct (is_write_of i ev) eqn:Ew; [|destruct (is_finished ws'); lia].
    destruct ev; try discriminate.
    apply worker_step_write_inv in Hw as (_ & _ & ->). simpl. lia.
  - rewrite (nth_error_set_nth_other _ _ _ _ Hji).
    assert (Hev : is_write_of i ev = false).
    { destruct ev; try reflexivity.
      apply worker_step_write_inv in Hw as (-> & _ & _). simpl.
      now apply Nat.eqb_neq. }
    rewrite Hev. lia.
Qed.

Lemma steps_found_monotone (s : pool) (tr : list event) (s' : pool) :
  stepsP s tr s' ->
  found (p_shared s) = true -> found (p_shared s') = true.
Proof.
  intros H. eapply steps_invariant_all with
    (Inv := fun x => found (p_shared x) = true); eauto.
  intros; eapply step_found_monotone; eassumption.
Qed.

Lemma steps_found_slot (s : pool) (tr : list event) (s' : pool) :
  stepsP s tr s' ->
  found (p_shared s) = is_set (password (p_shared s)) ->
  found (p_shared s') = is_set (password (p_shared s')).
Proof.
  intros H. eapply steps_invariant_all with
    (Inv := fun x => found (p_shared x) = is_set (password (p_shared x)));
    eauto.
  intros; eapply step_found_slot; eassumption.
Qed.

Lemma steps_no_write (s : pool) (tr : list event) (s' : pool) :
  stepsP s tr s' -> count_writes tr = 0 -> p_shared s' = p_shared s.
Proof.
  unfold count_writes.
  induction 1 as [|s c ev s1 tr s2 Hstep _ IH]; intros Hc; [reflexivity|].
  apply step_shared in Hstep. simpl in Hc.
  destruct ev; simpl in Hc; try discriminate;
    rewrite IH by exact Hc; exact Hstep.
Qed.

Lemma steps_some_write (s : pool) (tr : list event) (s' : pool) :
  stepsP s tr s' -> 0 < count_writes tr ->
  found (p_shared s') = true
  /\ exists i pw, In (EvWrite i pw) tr /\ password (p_shared s') = Some pw.
Proof.
  unfold count_writes.
  induction 1 as [|s c ev s1 tr s2 Hstep Hrest IH]; intros Hc;
    [simpl in Hc; lia|].
  destruct (Nat.eq_dec (length (filter is_write tr)) 0) as [Hz|Hnz].
  - pose proof (steps_no_write _ _ _ Hrest Hz) as Hsame.
    apply step_shared in Hstep. simpl in Hc.
    destruct ev; simpl in Hc; try lia.
    destruct Hstep as (Hsh & _). rewrite Hsame, Hsh. simpl.
    split; [reflexivity|]. exists i, pw. split; [now left|reflexivity].
  - destruct (IH ltac:(lia)) as (Hf & i & pw & Hin & Hp).
    split; [exact Hf|]. exists i, pw. split; [now right|exact Hp].
Qed.

Lemma steps_writes_of (i : nat) (s : pool) (tr : list event) (s' : pool) :
  stepsP s tr s' -> writes_of i tr + alive i s' <= alive i s.
Proof.
  unfold writes_of.
  induction 1 as [|s c ev s1 tr s2 Hstep _ IH]; [simpl; lia|].
  pose proof (step_alive i _ _ _ _ Hstep) as Hs. simpl.
  destruct (is_write_of i ev); simpl in *; lia.
Qed.

Lemma alive_le_1 (i : nat) (s : pool) : alive i s <= 1.
Proof.
  unfold alive. destruct (nth_error (p_workers s) i) as [ws|]; [|lia].
  destruct (is_finished ws); lia.
Qed.

(** *** Timeouts come from the clock only *)

Lemma step_timeout_choice (c : choice) (s : pool) (ev : event) (s1 : pool) :
  stepP c s = Some (ev, s1) -> c <> Expire -> is_timeout ev = false.
Proof.
  intros H Hne. pool_step_cases H i ws ws' sd' st' Hc Hn Hw;
    [|contradiction|reflexivity].
  worker_step_cases Hw; injection Hw as <- _ _ _; reflexivity.
Qed.

Lemma run_schedule_no_timeout (sched : list choice) :
  no_expire sched ->
  forall s,
    forallb (fun ev => negb (is_timeout ev)) (fst (runP sched s)) = true.
Proof.
  induction 1 as [|c sched Hc _ IH]; intros s; simpl; [reflexivity|].
  destruct (stepP c s) as [[ev s1]|] eqn:E; [|apply IH].
  specialize (IH s1). destruct (runP sched s1) as [tr s2]. simpl in *.
  now rewrite (step_timeout_choice _ _ _ _ E Hc), IH.
Qed.

Lemma default_choices_no_expire (s : pool) (c : choice) :
  In c (default_choices s) -> c <> Expire.
Proof.
  intros [<-|Hin]; [discriminate|].
  apply in_map_iff in Hin as (i & <- & _). discriminate.
Qed.

Lemma drain_no_timeout (fuel : nat) :
  forall s,
    forallb (fun ev => negb (is_timeout ev)) (fst (drainP fuel s)) = true.
Proof.
  induction fuel as [|fuel IH]; intros s; cbn [drain]; [reflexivity|].
  destruct (pickP (default_choices s) s) as [[ev s1]|] eqn:E;
    [|reflexivity].
  apply first_enabled_step in E as (c & Hin & Hc).
  specialize (IH s1). destruct (drainP fuel s1) as [tr s2]. simpl in *.
  rewrite (step_timeout_choice _ _ _ _ Hc (default_choices_no_expire _ _ Hin)).
  exact IH.
Qed.

Lemma exec_no_timeout (sched : list choice) (s : pool) :
  no_expire sched ->
  forallb (fun ev => negb (is_timeout ev)) (fst (execP sched s)) = true.
Proof.
  intros Hs. unfold exec.
  pose proof (run_schedule_no_timeout sched Hs s) as H1.
  destruct (runP sched s) as [tr1 s1].
  pose proof (drain_no_timeout (pool_measure s1) s1) as H2.
  destruct (drainP (pool_measure s1) s1) as [tr2 s2]. simpl in *.
  rewrite forallb_app. now rewrite H1, H2.
Qed.

(** *** A search without a matching candidate *)

Section Quiet.
Variable passwords : list string.
Hypothesis no_open_fault : forall i, open_chunk w i = None.

Local Abbreviation quietW := (quiet_worker w verify passwords).
Local Abbreviation extended := (errors_extended w passwords).

Lemma errors_extended_refl (st : CrackingStats) : extended st st.
Proof. exists []. now rewrite app_nil_r. Qed.

Lemma errors_extended_trans (st1 st2 st3 : CrackingStats) :
  extended st1 st2 -> extended st2 st3 -> extended st1 st3.
Proof.
  intros (es1 & E1 & F1) (es2 & E2 & F2). exists (es1 ++ es2).
  rewrite E2, E1, app_assoc. split; [reflexivity|].
  apply Forall_app; auto.
Qed.

Lemma same_frame_refl (st : CrackingStats) : same_frame st st.
Proof. repeat split. Qed.

Lemma same_frame_trans (st1 st2 st3 : CrackingStats) :
  same_frame st1 st2 -> same_frame st2 st3 -> same_frame st1 st3.
Proof.
  unfold same_frame. intros (A1 & A2 & A3 & A4) (B1 & B2 & B3 & B4).
  repeat split; congruence.
Qed.

Lemma worker_step_quiet (i : nat) (ws ws' : wstate) (ev : event)
  (sd sd' : SharedData) (st st' : CrackingStats) :
  quietW ws -> found sd = false ->
  worker_step w verify i ws sd st = Some (ev, ws', sd', st') ->
  quietW ws' /\ sd' = sd
  /\ attempts st' + pending ws' = attempts st + pending ws
  /\ extended st st' /\ same_frame st st'.
Proof.
  unfold quiet_worker. intros (Hc & He & Hw) Hf H.
  destruct ws as [chunk|[|pw rest]|pw [|enc encs] rest|pw|rest|];
    simpl in *.
  - rewrite no_open_fault in H. injection H as <- <- <- <-. simpl.
    repeat split; auto using errors_extended_refl.
  - injection H as <- <- <- <-. simpl.
    repeat split; auto using errors_extended_refl.
  - rewrite Hf in H. injection H as <- <- <- <-. simpl.
    repeat split; auto using errors_extended_refl, incl_refl.
  - injection H as <- <- <- <-. simpl. inversion Hc; subst.
    repeat split; auto using errors_extended_refl.
  - inversion Hc as [|? ? (Hin & Hout) Hrest]; subst.
    assert (He' : incl encs encodings)
      by (intros x Hx; apply He; now right).
    assert (Hpw : outcome_matches w verify pw = false)
      by exact Hout.
    unfold outcome_matches in Hout.
    destruct (attempt w pw) as [|msg|size] eqn:Ea.
    + injection H as <- <- <- <-. simpl.
      repeat split; auto using errors_extended_refl.
    + injection H as <- <- <- <-. simpl.
      repeat split; auto.
      exists [error_with enc msg]. split; [reflexivity|].
      constructor; [|constructor].
      exists pw, enc, msg. repeat split; auto. apply He. now left.
    + rewrite Hout in H. injection H as <- <- <- <-. simpl.
      repeat split; auto using errors_extended_refl.
  - contradiction.
  - injection H as <- <- <- <-. simpl.
    repeat split; auto; try lia.
    exists []. simpl. now rewrite app_nil_r.
  - discriminate.
Qed.

Lemma step_quiet (base : CrackingStats) (total : nat) (c : choice)
  (s : pool) (ev : event) (s1 : pool) :
  quiet_pool w verify passwords base total s ->
  stepP c s = Some (ev, s1) ->
  negb (is_timeout ev) = true ->
  quiet_pool w verify passwords base total s1.
Proof.
  unfold quiet_pool. intros (Hsh & Hws & Hsum & Hext & Hfr) H Hev.
  pool_step_cases H i ws ws' sd' st' Hc Hn Hw;
    [|discriminate|simpl; auto].
  pose proof (Forall_nth_error _ _ _ _ Hws Hn) as Hq.
  assert (Hf : found (p_shared s) = false) by now rewrite Hsh.
  destruct (worker_step_quiet _ _ _ _ _ _ _ _ Hq Hf Hw)
    as (Hq' & -> & Ha & He & Hfr').
  simpl. split; [exact Hsh|]. split; [now apply Forall_set_nth|].
  split.
  - pose proof (list_sum_set_nth pending ws' (p_workers s) i ws Hn). lia.
  - split; [eapply errors_extended_trans | eapply same_frame_trans];
      eassumption.
Qed.

Lemma finished_nothing_pending (l : list wstate) :
  forallb is_finished l = true -> list_sum (map pending l) = 0.
Proof.
  induction l as [|h t IH]; simpl; [reflexivity|].
  intros H. apply andb_true_iff in H as [Hh Ht].
  destruct h; try discriminate. simpl. auto.
Qed.

Lemma quiet_pool_init (chunks : list (list string)) (st : CrackingStats) :
  concat chunks = passwords ->
  Forall (fun q => outcome_matches w verify q = false) passwords ->
  quiet_pool w verify passwords st (attempts st + length passwords)
             (pool_init chunks st).
Proof.
  intros Hcat Hno. unfold quiet_pool, pool_init. simpl.
  split; [reflexivity|]. split; [|split; [|split]].
  - apply Forall_map, Forall_forall. intros chunk Hchunk.
    unfold quiet_worker. simpl. repeat split; auto.
    apply Forall_forall. intros q Hq.
    assert (Hin : In q passwords)
      by (rewrite <- Hcat; apply in_concat; eauto).
    split; [exact Hin|]. rewrite Forall_forall in Hno. auto.
  - rewrite map_map. simpl. rewrite <- Hcat, length_concat. reflexivity.
  - apply errors_extended_refl.
  - apply same_frame_refl.
Qed.

(** The pool of a search without a match ends with every candidate counted,
    nothing found, and reports of probe faults only. *)
Lemma exec_quiet (sched : list choice) (chunks : list (list string))
  (st : CrackingStats) :
  1 <= nthreads ->
  no_expire sched ->
  concat chunks = passwords ->
  Forall (fun q => outcome_matches w verify q = false) passwords ->
  let s := snd (execP sched (pool_init chunks st)) in
  password (p_shared s) = None
  /\ attempts (p_stats s) = attempts st + length passwords
  /\ extended st (p_stats s)
  /\ same_frame st (p_stats s).
Proof.
  intros Hthreads Hsched Hcat Hno s.
  pose proof (exec_steps sched (pool_init chunks st)) as Hsteps.
  pose proof (exec_no_timeout sched (pool_init chunks st) Hsched) as Hquiet.
  pose proof (exec_joined sched (pool_init chunks st) Hthreads) as Hj.
  pose proof (steps_invariant
                (quiet_pool w verify passwords st
                            (attempts st + length passwords))
                (fun ev => negb (is_timeout ev))
                (step_quiet st (attempts st + length passwords))
                _ _ _ Hsteps Hquiet (quiet_pool_init chunks st Hcat Hno))
    as (Hsh & _ & Hsum & Hext & Hfr).
  fold s in Hsh, Hsum, Hext, Hfr, Hj.
  unfold joined in Hj. apply andb_true_iff in Hj as [_ Hfin].
  rewrite (finished_nothing_pending _ Hfin) in Hsum.
  rewrite Hsh. simpl. repeat split; auto; try apply Hfr. lia.
Qed.
End Quiet.

(** *** The statistics do not steer the pool *)

Lemma worker_step_stats_indep (i : nat) (ws : wstate) (sd : SharedData)
  (st st2 : CrackingStats) :
  match worker_step w verify i ws sd st, worker_step w verify i ws sd st2 with
  | Some (ev, ws', sd', _), Some (ev2, ws2, sd2, _) =>
      ev = ev2 /\ ws' = ws2 /\ sd' = sd2
  | None, None => True
  | _, _ => False
  end.
Proof.
  destruct ws as [chunk|[|pw rest]|pw [|enc encs] rest|pw|rest|]; simpl;
    auto.
  - destruct (open_chunk w i); auto.
  - destruct (found sd); auto.
  - destruct (attempt w pw) as [|msg|size]; auto.
    destruct (verify && (0 <? size)%nat); auto.
Qed.

Lemma step_at_stats_indep (c : choice) (s s2 : pool) :
  same_but_stats s s2 ->
  match stepP c s, stepP c s2 with
  | Some (ev, s1), Some (ev2, s12) => ev = ev2 /\ same_but_stats s1 s12
  | None, None => True
  | _, _ => False
  end.
Proof.
  unfold same_but_stats. intros (Hsh & Hws & Hwt).
  destruct c as [i| |]; simpl; rewrite <- Hws, <- Hwt, <- Hsh.
  - destruct (nth_error (p_workers s) i) as [ws|]; [|exact I].
    destruct (is_queued ws && negb (can_start nthreads (p_workers s) i));
      [exact I|].
    pose proof (worker_step_stats_indep i ws (p_shared s) (p_stats s)
                  (p_stats s2)) as H.
    destruct (worker_step w verify i ws (p_shared s) (p_stats s))
      as [[[[ev ws'] sd'] st']|];
      destruct (worker_step w verify i ws (p_shared s) (p_stats s2))
      as [[[[ev2 ws2] sd2] st2']|]; try contradiction; [|exact I].
    destruct H as (-> & -> & ->). simpl. auto.
  - destruct (nth_error (p_workers s) (p_waiting s)) as [ws|]; [|exact I].
    destruct (is_finished ws); [exact I|]. simpl. auto.
  - destruct (nth_error (p_workers s) (p_waiting s)) as [ws|]; [|exact I].
    destruct (is_finished ws); [|exact I]. simpl. auto.
Qed.

Lemma run_schedule_stats_indep (sched : list choice) :
  forall s s2,
    same_but_stats s s2 ->
    fst (runP sched s) = fst (runP sched s2)
    /\ same_but_stats (snd (runP sched s)) (snd (runP sched s2)).
Proof.
  induction sched as [|c sched IH]; intros s s2 Hs; simpl; [auto|].
  pose proof (step_at_stats_indep c s s2 Hs) as H.
  destruct (stepP c s) as [[ev s1]|]; destruct (stepP c s2) as [[ev2 s12]|];
    try contradiction.
  - destruct H as (-> & H1). specialize (IH _ _ H1).
    destruct (runP sched s1) as [tr s3], (runP sched s12) as [tr' s3'].
    simpl in *. destruct IH as (-> & IH). auto.
  - now apply IH.
Qed.

Lemma pick_stats_indep (cs : list choice) (s s2 : pool) :
  same_but_stats s s2 ->
  match pickP cs s, pickP cs s2 with
  | Some (ev, s1), Some (ev2, s12) => ev = ev2 /\ same_but_stats s1 s12
  | None, None => True
  | _, _ => False
  end.
Proof.
  intros Hs. induction cs as [|c cs IH]; simpl; [exact I|].
  pose proof (step_at_stats_indep c s s2 Hs) as H.
  destruct (stepP c s) as [[ev s1]|]; destruct (stepP c s2) as [[ev2 s12]|];
    try contradiction; auto.
Qed.

Lemma drain_stats_indep (fuel : nat) :
  forall s s2,
    same_but_stats s s2 ->
    fst (drainP fuel s) = fst (drainP fuel s2)
    /\ same_but_stats (snd (drainP fuel s)) (snd (drainP fuel s2)).
Proof.
  induction fuel as [|fuel IH]; intros s s2 Hs; cbn [drain]; [auto|].
  assert (Hd : default_choices s = default_choices s2).
  { unfold default_choices. destruct Hs as (_ & -> & _). reflexivity. }
  rewrite <- Hd.
  pose proof (pick_stats_indep (default_choices s) s s2 Hs) as H.
  destruct (pickP (default_choices s) s) as [[ev s1]|];
    destruct (pickP (default_choices s) s2) as [[ev2 s12]|];
    try contradiction; [|auto].
  destruct H as (-> & H1). specialize (IH _ _ H1).
  destruct (drainP fuel s1) as [tr s3], (drainP fuel s12) as [tr' s3'].
  simpl in *. destruct IH as (-> & IH). auto.
Qed.

Lemma exec_stats_indep (sched : list choice) (s s2 : pool) :
  same_but_stats s s2 ->
  fst (execP sched s) = fst (execP sched s2)
  /\ same_but_stats (snd (execP sched s)) (snd (execP sched s2)).
Proof.
  intros Hs. unfold exec.
  pose proof (run_schedule_stats_indep sched s s2 Hs) as H1.
  destruct (runP sched s) as [tr1 s1], (runP sched s2) as [tr1' s1'].
  simpl in H1. destruct H1 as (-> & H1).
  assert (Hm : pool_measure s1 = pool_measure s1').
  { unfold pool_measure. destruct H1 as (_ & -> & ->). reflexivity. }
  rewrite <- Hm.
  pose proof (drain_stats_indep (pool_measure s1) s1 s1' H1) as H2.
  destruct (drainP (pool_measure s1) s1) as [tr2 s2'],
           (drainP (pool_measure s1) s1') as [tr2' s2''].
  simpl in *. destruct H2 as (-> & H2). auto.
Qed.

(** *** One worker in the pool is [_worker] run alone *)

Lemma worker_step_finish (i : nat) (ws ws' : wstate) (ev : event)
  (sd sd' : SharedData) (st st' : CrackingStats) :
  worker_step w verify i ws sd st = Some (ev, ws', sd', st') ->
  finish w verify i ws' sd' st' = finish w verify i ws sd st.
Proof.
  intros H. worker_step_cases H; injection H as <- <- <- <-; simpl;
    unfold _worker;
    repeat match goal with E : _ = _ |- _ => rewrite E end; reflexivity.
Qed.

Lemma step_single_worker (target : SharedData * CrackingStats) (c : choice)
  (s : pool) (ev : event) (s1 : pool) :
  (exists ws, p_workers s = [ws]
              /\ finish w verify 0 ws (p_shared s) (p_stats s) = target) ->
  stepP c s = Some (ev, s1) ->
  negb (is_timeout ev) = true ->
  exists ws, p_workers s1 = [ws]
             /\ finish w verify 0 ws (p_shared s1) (p_stats s1) = target.
Proof.
  intros (ws0 & Hws & Hfin) H Hev.
  pool_step_cases H i ws ws' sd' st' Hc Hn Hw;
    [|discriminate|exists ws0; auto].
  rewrite Hws in Hn. destruct i as [|[|i]]; simpl in Hn; try discriminate.
  injection Hn as ->. exists ws'. simpl. rewrite Hws. split; [reflexivity|].
  now rewrite (worker_step_finish _ _ _ _ _ _ _ _ Hw).
Qed.

(** With a schedule that lets no wait time out, the pool of a single chunk
    ends where [_worker] does. *)
Lemma exec_single_worker (sched : list choice) (chunk : list string)
  (st : CrackingStats) :
  1 <= nthreads ->
  no_expire sched ->
  let s := snd (execP sched (pool_init [chunk] st)) in
  (p_shared s, p_stats s) =
  _worker w verify (open_chunk w 0) chunk shared_new st.
Proof.
  intros Hthreads Hsched s.
  pose proof (exec_steps sched (pool_init [chunk] st)) as Hsteps.
  pose proof (exec_no_timeout sched (pool_init [chunk] st) Hsched) as Hq.
  pose proof (exec_joined sched (pool_init [chunk] st) Hthreads) as Hj.
  pose proof (steps_invariant _ (fun ev => negb (is_timeout ev))
                (step_single_worker
                   (_worker w verify (open_chunk w 0) chunk shared_new st))
                _ _ _ Hsteps Hq) as Hinv.
  destruct Hinv as (ws & Hws & Hfin).
  { exists (Queued chunk). split; reflexivity. }
  fold s in Hws, Hfin, Hj. unfold joined in Hj. rewrite Hws in Hj.
  simpl in Hj. destruct ws; simpl in Hj;
    rewrite ?andb_false_r in Hj; try discriminate.
  exact Hfin.
Qed.

(** *** The pool keeps to its number of threads *)

Lemma length_filter_running (l : list wstate) :
  length (filter is_running l) = running_count l.
Proof.
  unfold running_count. induction l as [|h t IH]; simpl; [reflexivity|].
  destruct (is_running h); simpl; now rewrite IH.
Qed.

Lemma step_thread_bound (c : choice) (s : pool) (ev : event) (s1 : pool) :
  stepP c s = Some (ev, s1) ->
  running_count (p_workers s) <= nthreads ->
  running_count (p_workers s1) <= nthreads.
Proof.
  intros H Hb. apply step_at_inv in H.
  destruct H as [(i & ws & ws' & sd' & st' & _ & Hn & Hg & Hw & ->)
                |[(ws & _ & _ & _ & _ & ->)|(_ & _ & _ & ->)]];
    [|exact Hb|exact Hb].
  simpl. unfold running_count in *.
  pose proof (list_sum_set_nth (fun x => if is_running x then 1 else 0)
                ws' (p_workers s) i ws Hn) as Hsum.
  cbv beta in Hsum.
  destruct (is_queued ws) eqn:Q.
  - specialize (Hg eq_refl). unfold can_start in Hg.
    apply andb_true_iff in Hg as [_ Hg]. apply Nat.ltb_lt in Hg.
    rewrite length_filter_running in Hg. unfold running_count in Hg.
    destruct ws; try discriminate. simpl in Hsum.
    destruct (is_running ws'); lia.
  - assert (Hr : is_running ws = true).
    { unfold is_running. rewrite Q.
      now rewrite (worker_step_not_finished i ws (p_shared s) (p_stats s))
        by (rewrite Hw; discriminate). }
    rewrite Hr in Hsum. destruct (is_running ws'); lia.
Qed.

(** Never more than [nthreads] workers are between their start and their
    return, at any point of any execution of the pool. *)
Lemma steps_thread_bound (chunks : list (list string)) (st : CrackingStats)
  (tr : list event) (s : pool) :
  stepsP (pool_init chunks st) tr s ->
  running_count (p_workers s) <= nthreads.
Proof.
  intros H.
  eapply (steps_invariant_all
            (fun x => running_count (p_workers x) <= nthreads)); eauto.
  - intros; eapply step_thread_bound; eassumption.
  - unfold pool_init, running_count. simpl. rewrite map_map. simpl.
    clear H. induction chunks; simpl; lia.
Qed.

End Pool.

(** ** A search that finds nothing *)

Lemma probe_errors_entries (w : World) (passwords : list string) :
  forall l,
    incl l passwords ->
    Forall (probe_error_entry w passwords)
           (flat_map (fun q => probe_errors w q encodings) l).
Proof.
  induction l as [|q l IH]; intros Hincl; simpl; [constructor|].
  apply Forall_app. split.
  - unfold probe_errors.
    destruct (attempt w q) as [|msg|size] eqn:E;
      [constructor | | constructor].
    apply Forall_forall. intros e He.
    apply in_map_iff in He as (enc & <- & Henc).
    exists q, enc, msg. repeat split; auto. apply Hincl. now left.
  - apply IH. intros x Hx. apply Hincl. now right.
Qed.

Lemma errors_extended_incl (w : World) (l passwords : list string)
  (st st' : CrackingStats) :
  incl l passwords ->
  errors_extended w l st st' -> errors_extended w passwords st st'.
Proof.
  intros Hincl (es & E & F). exists es. split; [exact E|].
  eapply Forall_impl; [|exact F].
  intros e (pw & enc & msg & Hin & H). exists pw, enc, msg.
  split; [now apply Hincl | exact H].
Qed.

Lemma no_match_outcome (w : World) (verify : bool) (l : list string) :
  Forall (fun q => probe_matches w verify q = false) l ->
  Forall (fun q => outcome_matches w verify q = false) l.
Proof.
  apply Forall_impl. intros q. now rewrite probe_matches_eq.
Qed.

Lemma crack_single_no_match_stats (w : World) (self : PasswordCracker)
  (passwords : list string) (st : CrackingStats) :
  open_single w = None ->
  Forall (fun q => probe_matches w (verify_hash self) q = false) passwords ->
  exists st',
    _crack_single w self passwords st = (None, st')
    /\ attempts st' = attempts st + length passwords
    /\ errors_extended w passwords st st'
    /\ same_frame st st'.
Proof.
  intros Hopen Hno. rewrite crack_single_no_match by assumption.
  eexists. split; [reflexivity|]. simpl. split; [reflexivity|]. split.
  - eexists. split; [reflexivity|].
    apply probe_errors_entries, incl_refl.
  - repeat split.
Qed.

Lemma crack_multi_no_match (w : World) (self : PasswordCracker)
  (sched : list choice) (passwords : list string) (st : CrackingStats) :
  (0 < chunk_size self)%Z ->
  (1 <= threads self)%Z ->
  (forall i, open_chunk w i = None) ->
  no_expire sched ->
  Forall (fun q => probe_matches w (verify_hash self) q = false) passwords ->
  exists st',
    _crack_multi w self sched passwords st = (Ret None, st')
    /\ attempts st' = attempts st + length passwords
    /\ errors_extended w passwords st st'
    /\ same_frame st st'.
Proof.
  intros Hcs Hth Hopen Hsched Hno.
  unfold _crack_multi, _crack_multi_run.
  rewrite (make_chunks_positive _ _ Hcs). cbn [bind].
  set (chunks := map _ _).
  assert (Hcat : concat chunks = passwords)
    by (apply py_chunks_concat; lia).
  pose proof (exec_quiet w (verify_hash self) (Z.to_nat (threads self))
                (wait_share (timeout self) (length chunks))
                passwords Hopen sched chunks st ltac:(lia) Hsched Hcat
                (no_match_outcome _ _ _ Hno)) as H.
  cbv zeta in H.
  destruct (exec w (verify_hash self) (Z.to_nat (threads self))
                 (wait_share (timeout self) (length chunks)) sched
                 (pool_init chunks st)) as [tr s].
  simpl in H. destruct H as (Hp & Ha & He & Hf).
  exists (p_stats s). rewrite Hp. auto.
Qed.

Lemma run_strategy_no_match (w : World) (self : PasswordCracker)
  (sched : list choice) (passwords : list string) (st : CrackingStats) :
  (0 < chunk_size self)%Z ->
  (1 <= threads self)%Z ->
  open_single w = None ->
  (forall i, open_chunk w i = None) ->
  no_expire sched ->
  Forall (fun q => probe_matches w (verify_hash self) q = false) passwords ->
  exists st',
    run_strategy w self sched passwords st = (Ret None, st')
    /\ attempts st' = attempts st + length passwords
    /\ errors_extended w passwords st st'
    /\ same_frame st st'.
Proof.
  intros Hcs Hth Hopen1 Hopen Hsched Hno. unfold run_strategy.
  destruct (mode self).
  - destruct (crack_single_no_match_stats w self passwords st Hopen1 Hno)
      as (st' & E & H). rewrite E. eauto.
  - now apply crack_multi_no_match.
  - unfold _crack_hybrid.
    rewrite <- (firstn_skipn 100 passwords) in Hno.
    apply Forall_app in Hno as [Hno1 Hno2].
    destruct (crack_single_no_match_stats w self (firstn 100 passwords) st
                Hopen1 Hno1) as (st1 & E1 & Ha1 & He1 & Hf1).
    rewrite E1. cbn [truthy].
    destruct (crack_multi_no_match w self sched (skipn 100 passwords) st1
                Hcs Hth Hopen Hsched Hno2) as (st2 & E2 & Ha2 & He2 & Hf2).
    rewrite E2. exists st2. split; [reflexivity|]. split; [|split].
    + rewrite Ha2, Ha1, <- Nat.add_assoc, <- length_app, firstn_skipn.
      reflexivity.
    + eapply errors_extended_trans.
      * eapply errors_extended_incl; [|exact He1].
        intros x Hx. rewrite <- (firstn_skipn 100 passwords).
        apply in_or_app. now left.
      * eapply errors_extended_incl; [|exact He2].
        intros x Hx. rewrite <- (firstn_skipn 100 passwords).
        apply in_or_app. now right.
    + eapply same_frame_trans; eassumption.
Qed.

(** C5: when no candidate of the wordlist matches, no wait times out and no
    worker fails to open the document, [crack] returns none in each of the
    three modes, the returned [stats.attempts] is the number of candidates,
    and [stats.errors] holds nothing but reports of probe faults on those
    candidates.  The chunk size is positive and the thread count at least
    one, as the constructor and the command line have them. *)
Theorem crack_no_match_counts_all (w : World) (fs : FileSystem)
  (self : PasswordCracker) (sched : list choice) (passwords : list string) :
  _load_passwords fs self = Ret passwords ->
  passwords <> [] ->
  (0 < chunk_size self)%Z ->
  (1 <= threads self)%Z ->
  open_single w = None ->
  (forall i, open_chunk w i = None) ->
  no_expire sched ->
  Forall (fun q => probe_matches w (verify_hash self) q = false) passwords ->
  exists st,
    crack w fs self sched = Ret (None, (clock_end w - clock_start w)%Z, st)
    /\ attempts st = length passwords
    /\ Forall (probe_error_entry w passwords) (errors st)
    /\ success st = false
    /\ found_password st = "".
Proof.
  intros Hload Hne Hcs Hth Hopen1 Hopen Hsched Hno. unfold crack.
  rewrite Hload. destruct passwords as [|p ps] eqn:Ep; [contradiction|].
  rewrite <- Ep in *.
  destruct (run_strategy_no_match w self sched passwords
              (set_start_time CrackingStats_new (clock_start w))
              Hcs Hth Hopen1 Hopen Hsched Hno)
    as (st' & E & Ha & (es & He & Hes) & (Hf1 & Hf2 & Hf3 & Hf4)).
  rewrite E. eexists. split; [|split; [|split; [|split]]].
  - simpl. rewrite Hf1. reflexivity.
  - simpl. exact Ha.
  - simpl. rewrite He. simpl. exact Hes.
  - reflexivity.
  - reflexivity.
Qed.

Lemma crack_no_match_counts_all_witness :
  exists st,
    crack faulty_world (sample_fs plain_wordlist)
          (sample_cracker MULTI 2 2 true) [Run 1; Run 0; Run 1] =
      Ret (None, (clock_end faulty_world - clock_start faulty_world)%Z, st)
    /\ attempts st = length ["aaa"; "bbb"; "ccc"]
    /\ Forall (probe_error_entry faulty_world ["aaa"; "bbb"; "ccc"])
              (errors st)
    /\ success st = false
    /\ found_password st = "".
Proof.
  apply (crack_no_match_counts_all faulty_world (sample_fs plain_wordlist)
           (sample_cracker MULTI 2 2 true) [Run 1; Run 0; Run 1]
           ["aaa"; "bbb"; "ccc"]).
  - reflexivity.
  - discriminate.
  - reflexivity.
  - simpl. lia.
  - reflexivity.
  - intros i. reflexivity.
  - repeat constructor; discriminate.
  - repeat constructor.
Defined.

(** ** The loader *)

Lemma load_lines_nonempty (lines : list string) :
  forall acc,
    Forall (fun p => p <> "") acc ->
    Forall (fun p => p <> "") (load_lines lines acc).
Proof.
  induction lines as [|line lines IH]; intros acc Hacc; cbn [load_lines];
    [exact Hacc|].
  destruct (negb (strip line =? "")%string
            && (1 <=? String.length (strip line))%nat) eqn:E.
  - apply IH, Forall_app. split; [exact Hacc|].
    constructor; [|constructor].
    apply andb_true_iff in E as [E _]. apply negb_true_iff in E.
    now apply String.eqb_neq.
  - now apply IH.
Qed.

(** The candidates that [crack] works on are non-empty strings. *)
Lemma load_passwords_nonempty (fs : FileSystem) (self : PasswordCracker)
  (passwords : list string) :
  _load_passwords fs self = Ret passwords ->
  Forall (fun p => p <> "") passwords.
Proof.
  unfold _load_passwords. destruct (fs (wordlist_path self)); [|discriminate].
  intros [= <-]. apply load_lines_nonempty. constructor.
Qed.

(** ** The hybrid strategy *)

Lemma worker_loop_result_indep (w : World) (verify : bool) (sd : SharedData) :
  forall (l : list string) (st st2 : CrackingStats),
    fst (_worker_loop w verify l sd st) = fst (_worker_loop w verify l sd st2).
Proof.
  induction l as [|pw l IH]; intros st st2; simpl; [reflexivity|].
  destruct (found sd); [reflexivity|].
  rewrite !try_decrypt_eq.
  destruct (outcome_matches w verify pw); [reflexivity|]. apply IH.
Qed.

Lemma crack_single_result_indep (w : World) (self : PasswordCracker)
  (l : list string) (st st2 : CrackingStats) :
  fst (_crack_single w self l st) = fst (_crack_single w self l st2).
Proof.
  unfold _crack_single, _worker. destruct (open_single w); [reflexivity|].
  pose proof (worker_loop_result_indep w (verify_hash self) shared_new l
                st st2) as H.
  destruct (_worker_loop w (verify_hash self) l shared_new st),
           (_worker_loop w (verify_hash self) l shared_new st2).
  simpl in *. now rewrite H.
Qed.

Lemma worker_loop_result_in (w : World) (verify : bool) :
  forall (l : list string) (st : CrackingStats) (pw : string),
    password (fst (_worker_loop w verify l shared_new st)) = Some pw ->
    In pw l.
Proof.
  induction l as [|q l IH]; intros st pw; simpl; [discriminate|].
  rewrite try_decrypt_eq.
  destruct (outcome_matches w verify q).
  - simpl. intros [= <-]. now left.
  - intros H. right. eapply IH, H.
Qed.

Lemma crack_single_result_in (w : World) (self : PasswordCracker)
  (l : list string) (st : CrackingStats) (pw : string) :
  fst (_crack_single w self l st) = Some pw -> In pw l.
Proof.
  unfold _crack_single, _worker. destruct (open_single w); [discriminate|].
  pose proof (worker_loop_result_in w (verify_hash self) l st pw) as H.
  destruct (_worker_loop w (verify_hash self) l shared_new st). exact H.
Qed.

Lemma crack_multi_result_indep (w : World) (self : PasswordCracker)
  (sched : list choice) (l : list string) (st st2 : CrackingStats) :
  fst (_crack_multi w self sched l st) = fst (_crack_multi w self sched l st2).
Proof.
  unfold _crack_multi, _crack_multi_run.
  destruct (make_chunks (chunk_size self) l) as [chunks|e]; [|reflexivity].
  cbn [bind].
  pose proof (exec_stats_indep w (verify_hash self)
                (Z.to_nat (threads self))
                (wait_share (timeout self) (length chunks)) sched
                (pool_init chunks st) (pool_init chunks st2)) as H.
  destruct H as (_ & Hsh & _); [repeat split|].
  destruct (exec w (verify_hash self) (Z.to_nat (threads self))
                 (wait_share (timeout self) (length chunks)) sched
                 (pool_init chunks st)) as [tr s],
           (exec w (verify_hash self) (Z.to_nat (threads self))
                 (wait_share (timeout self) (length chunks)) sched
                 (pool_init chunks st2)) as [tr2 s2].
  simpl in *. now rewrite Hsh.
Qed.

(** C3: on candidates that are non-empty strings the hybrid strategy is the
    composition of the specification: the sequential strategy over the first
    hundred candidates (all of them when there are fewer) and, when that
    finds nothing, the parallel strategy over the others, under the same
    schedule; so a password found by the sequential strategy on the prefix
    is the hybrid result, and when the first match of the prefix is [pw] and
    the worker can open the document, both are [pw]. *)
Theorem crack_hybrid_refines_spec (w : World) (self : PasswordCracker)
  (sched : list choice) (passwords : list string) (st : CrackingStats) :
  Forall (fun p => p <> "") passwords ->
  fst (_crack_hybrid w self sched passwords st)
    = hybrid_spec w self sched passwords
  /\ (forall pw,
        sequential_result w self (firstn 100 passwords) = Some pw ->
        fst (_crack_hybrid w self sched passwords st) = Ret (Some pw))
  /\ (sequential_result w self (firstn 100 passwords) = None ->
      fst (_crack_hybrid w self sched passwords st)
        = parallel_result w self sched (skipn 100 passwords))
  /\ (forall pre pw post,
        firstn 100 passwords = pre ++ pw :: post ->
        Forall (fun q => probe_matches w (verify_hash self) q = false) pre ->
        probe_matches w (verify_hash self) pw = true ->
        open_single w = None ->
        sequential_result w self (firstn 100 passwords) = Some pw
        /\ fst (_crack_hybrid w self sched passwords st) = Ret (Some pw)).
Proof.
  intros Hne.
  assert (Hcore :
            fst (_crack_hybrid w self sched passwords st)
            = hybrid_spec w self sched passwords).
  { unfold _crack_hybrid, hybrid_spec, sequential_result, parallel_result.
    pose proof (crack_single_result_indep w self (firstn 100 passwords) st
                  CrackingStats_new) as Hseq.
    pose proof (crack_single_result_in w self (firstn 100 passwords) st)
      as Hin.
    destruct (_crack_single w self (firstn 100 passwords) st) as [r st1].
    cbn [fst] in Hseq, Hin. rewrite <- Hseq.
    destruct r as [pw|]; cbn [truthy].
    - assert (Hpw : pw <> "").
      { rewrite Forall_forall in Hne. apply Hne.
        rewrite <- (firstn_skipn 100 passwords). apply in_or_app. left.
        now apply Hin. }
      destruct (String.eqb_spec pw ""); [contradiction|]. reflexivity.
    - apply crack_multi_result_indep. }
  split; [exact Hcore|]. split; [|split].
  - intros pw Hs. rewrite Hcore. unfold hybrid_spec. now rewrite Hs.
  - intros Hs. rewrite Hcore. unfold hybrid_spec. now rewrite Hs.
  - intros pre pw post Hpre Hno Hpw Hopen.
    assert (Hs : sequential_result w self (firstn 100 passwords) = Some pw).
    { unfold sequential_result. rewrite Hpre.
      now rewrite crack_single_first_match. }
    split; [exact Hs|]. rewrite Hcore. unfold hybrid_spec. now rewrite Hs.
Qed.

Lemma crack_hybrid_refines_spec_witness :
  fst (_crack_hybrid secret_world (sample_cracker HYBRID 2 2 true)
         [Run 1; Run 0] ["aaa"; "bbb"; "secret"; "ccc"] CrackingStats_new)
    = hybrid_spec secret_world (sample_cracker HYBRID 2 2 true)
        [Run 1; Run 0] ["aaa"; "bbb"; "secret"; "ccc"]
  /\ fst (_crack_hybrid secret_world (sample_cracker HYBRID 2 2 true)
            [Run 1; Run 0] ["aaa"; "bbb"; "secret"; "ccc"] CrackingStats_new)
       = Ret (Some "secret").
Proof.
  pose proof (crack_hybrid_refines_spec secret_world
                (sample_cracker HYBRID 2 2 true) [Run 1; Run 0]
                ["aaa"; "bbb"; "secret"; "ccc"] CrackingStats_new) as H.
  destruct H as (Hcore & Hfound & _).
  - repeat constructor; discriminate.
  - split; [exact Hcore|]. apply Hfound. reflexivity.
Defined.

(** ** The shared flag under a race *)

(** C2, as the code has it: along every execution of the pool the flag
    [found] never goes back to false and is true exactly when the password
    slot is set; only the match branch writes the two fields, together; each
    worker writes at most once, and a worker that reads [found] true at the
    head of its loop returns without probing or writing.  (Nothing keeps a
    worker that passed the check earlier from writing after the flag has
    become true.) *)
Theorem found_flag_never_reverts (w : World) (verify : bool)
  (nthreads : nat) (share : Q) (s : pool) (tr : list event) (s' : pool) :
  steps w verify nthreads share s tr s' ->
  (found (p_shared s) = true -> found (p_shared s') = true)
  /\ (found (p_shared s) = is_set (password (p_shared s)) ->
      found (p_shared s') = is_set (password (p_shared s')))
  /\ (count_writes tr = 0 -> p_shared s' = p_shared s)
  /\ (0 < count_writes tr ->
      found (p_shared s') = true
      /\ exists i pw,
           In (EvWrite i pw) tr /\ password (p_shared s') = Some pw)
  /\ (forall i, writes_of i tr <= 1)
  /\ (forall i pw rest sd st,
        found sd = true ->
        worker_step w verify i (AtCheck (pw :: rest)) sd st
        = Some (EvCancelled i, Finished, sd, st)).
Proof.
  intros H. repeat split.
  - now apply (steps_found_monotone _ _ _ _ _ _ _ H).
  - now apply (steps_found_slot _ _ _ _ _ _ _ H).
  - now apply (steps_no_write _ _ _ _ _ _ _ H).
  - now apply (steps_some_write _ _ _ _ _ _ _ H).
  - now apply (steps_some_write _ _ _ _ _ _ _ H).
  - intros i. pose proof (steps_writes_of _ _ _ _ i _ _ _ H).
    pose proof (alive_le_1 i s). lia.
  - intros i pw rest sd st Hf. simpl. now rewrite Hf.
Qed.

Lemma found_flag_never_reverts_witness :
  writes_of 0
    (fst (exec two_keys_world true 2 (wait_share 3600 2)
            [Run 0; Run 1; Run 0; Run 1]
            (pool_init [["alpha"]; ["omega"]] CrackingStats_new))) <= 1
  /\ writes_of 1
       (fst (exec two_keys_world true 2 (wait_share 3600 2)
               [Run 0; Run 1; Run 0; Run 1]
               (pool_init [["alpha"]; ["omega"]] CrackingStats_new))) <= 1.
Proof.
  pose proof (found_flag_never_reverts two_keys_world true 2
                (wait_share 3600 2)
                (pool_init [["alpha"]; ["omega"]] CrackingStats_new)
                (fst (exec two_keys_world true 2 (wait_share 3600 2)
                        [Run 0; Run 1; Run 0; Run 1]
                        (pool_init [["alpha"]; ["omega"]]
                                   CrackingStats_new)))
                (snd (exec two_keys_world true 2 (wait_share 3600 2)
                        [Run 0; Run 1; Run 0; Run 1]
                        (pool_init [["alpha"]; ["omega"]]
                                   CrackingStats_new)))
                (exec_steps _ _ _ _ _ _))
    as (_ & _ & _ & _ & Hw & _).
  split; apply Hw.
Defined.

(** C2 as worded fails: with two threads, the candidates alpha and omega in
    chunks of one, and a library that accepts both, the two workers pass
    the check before either writes; the slot is then written twice, the
    second time with the flag already true, and omega replaces alpha. *)
Lemma shared_slot_written_twice :
  exists tr s,
    _crack_multi_run two_keys_world (sample_cracker MULTI 2 1 true)
      [Run 0; Run 1; Run 0; Run 1; Run 0; Run 1; Run 0; Run 1]
      ["alpha"; "omega"] CrackingStats_new = Ret (tr, s)
    /\ filter is_write tr = [EvWrite 0 "alpha"; EvWrite 1 "omega"]
    /\ count_writes tr = 2
    /\ password (p_shared s) = Some "omega".
Proof.
  eexists. eexists. split; [vm_compute; reflexivity|].
  repeat split.
Qed.

(** ** Timeouts of the waits *)

Lemma wait_share_even (timeout : Z) (nfutures : nat) :
  (0 < nfutures)%nat ->
  (wait_share timeout nfutures * inject_Z (Z.of_nat nfutures)
   == inject_Z timeout)%Q.
Proof.
  intros H. unfold wait_share. field.
  intros E. unfold Qeq, inject_Z in E. simpl in E. lia.
Qed.

(** C7 (the code departs from it): with a budget of one second, the four
    sample candidates in two chunks and both waits timing out before any
    worker has run, each wait is given half of the budget and an entry (the
    empty text of the timeout exception) is recorded for each unit; the pool
    is still joined, the workers run to their end, and the run returns
    "secret", found after the timeouts, instead of none. *)
Theorem crack_timeout_then_found :
  (exists tr s,
     _crack_multi_run secret_world
       (mkCracker "doc.docx" "words.txt" MULTI 2 2 1 true)
       [Expire; Expire] ["aaa"; "bbb"; "secret"; "ccc"] CrackingStats_new
     = Ret (EvTimeout 0 (wait_share 1 2) :: EvTimeout 1 (wait_share 1 2)
              :: tr, s)
     /\ In (EvWrite 1 "secret") tr
     /\ joined s = true
     /\ password (p_shared s) = Some "secret"
     /\ errors (p_stats s) = [timeout_text; timeout_text])
  /\ exists st,
       crack secret_world (sample_fs sample_wordlist)
             (mkCracker "doc.docx" "words.txt" MULTI 2 2 1 true)
             [Expire; Expire]
       = Ret (Some "secret", 5%Z, st)
       /\ errors st = [""; ""].
Proof.
  split.
  - eexists. eexists. split; [vm_compute; reflexivity|].
    split; [|repeat split]. simpl. tauto.
  - eexists. split; [vm_compute; reflexivity|reflexivity].
Qed.

(** ** [crack] always hands back its triple *)

Lemma worker_loop_frame (w : World) (verify : bool) (sd : SharedData) :
  forall (l : list string) (st : CrackingStats),
    same_frame st (snd (_worker_loop w verify l sd st)).
Proof.
  induction l as [|pw l IH]; intros st; simpl; [repeat split|].
  destruct (found sd); [repeat split|].
  rewrite try_decrypt_eq.
  destruct (outcome_matches w verify pw); [repeat split|].
  eapply same_frame_trans; [|apply IH]. repeat split.
Qed.

Lemma crack_single_frame (w : World) (self : PasswordCracker)
  (l : list string) (st : CrackingStats) :
  same_frame st (snd (_crack_single w self l st)).
Proof.
  unfold _crack_single, _worker.
  destruct (open_single w); [repeat split|].
  pose proof (worker_loop_frame w (verify_hash self) shared_new l st) as H.
  destruct (_worker_loop w (verify_hash self) l shared_new st). exact H.
Qed.

Lemma step_frame (w : World) (verify : bool) (nthreads : nat) (share : Q)
  (c : choice) (s : pool) (ev : event) (s1 : pool) :
  step_at w verify nthreads share c s = Some (ev, s1) ->
  same_frame (p_stats s) (p_stats s1).
Proof.
  intros H. pool_step_cases H i ws ws' sd' st' Hc Hn Hw;
    [|repeat split|repeat split].
  simpl. worker_step_cases Hw; injection Hw as _ _ _ <-; repeat split.
Qed.

Lemma crack_multi_frame (w : World) (self : PasswordCracker)
  (sched : list choice) (l : list string) (st : CrackingStats) :
  same_frame st (snd (_crack_multi w self sched l st)).
Proof.
  unfold _crack_multi, _crack_multi_run.
  destruct (make_chunks (chunk_size self) l) as [chunks|e];
    [|repeat split].
  cbn [bind].
  pose proof (exec_steps w (verify_hash self) (Z.to_nat (threads self))
                (wait_share (timeout self) (length chunks)) sched
                (pool_init chunks st)) as Hsteps.
  destruct (exec w (verify_hash self) (Z.to_nat (threads self))
                 (wait_share (timeout self) (length chunks)) sched
                 (pool_init chunks st)) as [tr s].
  simpl in *.
  apply (steps_invariant_all w (verify_hash self) (Z.to_nat (threads self))
           (wait_share (timeout self) (length chunks))
           (fun x => same_frame st (p_stats x))) in Hsteps;
    [exact Hsteps | | repeat split].
  intros c x ev x1 Hx Hstep.
  eapply same_frame_trans; [exact Hx|]. eapply step_frame, Hstep.
Qed.

Lemma run_strategy_frame (w : World) (self : PasswordCracker)
  (sched : list choice) (l : list string) (st : CrackingStats) :
  same_frame st (snd (run_strategy w self sched l st)).
Proof.
  unfold run_strategy. destruct (mode self).
  - pose proof (crack_single_frame w self l st) as H.
    destruct (_crack_single w self l st). exact H.
  - apply crack_multi_frame.
  - unfold _crack_hybrid.
    pose proof (crack_single_frame w self (firstn 100 l) st) as H.
    destruct (_crack_single w self (firstn 100 l) st) as [r st1].
    cbn [snd] in H. destruct (truthy r); [exact H|].
    eapply same_frame_trans; [exact H|]. apply crack_multi_frame.
Qed.

Lemma init_threads (fs : FileSystem) (fp wp : string) (m : CrackingMode)
  (t cs tmo : Z) (vh : bool) (self : PasswordCracker) :
  PasswordCracker_init fs fp wp m t cs tmo vh = Ret self ->
  (1 <= threads self <= 32)%Z /\ verify_hash self = vh
  /\ fs fp <> None /\ fs wp <> None.
Proof.
  unfold PasswordCracker_init, _validate_inputs. simpl.
  destruct (fs fp) as [doc|]; [|discriminate].
  destruct (fs wp) as [wl|]; [|discriminate].
  destruct (String.length doc =? 0)%nat; [discriminate|].
  destruct (String.length wl =? 0)%nat; [discriminate|].
  simpl. intros [= <-]. simpl. unfold clamp_threads.
  repeat split; try discriminate; lia.
Qed.

Lemma crack_multi_run_joined (w : World) (self : PasswordCracker)
  (sched : list choice) (l : list string) (st : CrackingStats)
  (tr : list event) (s : pool) :
  (1 <= threads self)%Z ->
  _crack_multi_run w self sched l st = Ret (tr, s) -> joined s = true.
Proof.
  intros Hth. unfold _crack_multi_run.
  destruct (make_chunks (chunk_size self) l) as [chunks|e]; [|discriminate].
  cbn [bind]. intros [= H].
  pose proof (exec_joined w (verify_hash self) (Z.to_nat (threads self))
                (wait_share (timeout self) (length chunks)) sched
                (pool_init chunks st) ltac:(lia)) as Hj.
  now rewrite H in Hj.
Qed.

(** *** The account of the errors of a run *)

Lemma count_app (x : string) (l1 l2 : list string) :
  count x (l1 ++ l2) = count x l1 + count x l2.
Proof. apply count_occ_app. Qed.

Lemma count_nil (x : string) : count x [] = 0.
Proof. reflexivity. Qed.

Lemma count_cons (x y : string) (l : list string) :
  count x (y :: l) = count x [y] + count x l.
Proof. apply (count_app x [y] l). Qed.

Lemma count_concat (x : string) (ls : list (list string)) :
  count x (concat ls) = list_sum (map (count x) ls).
Proof.
  induction ls as [|l ls IH]; [reflexivity|].
  cbn [concat map list_sum]. now rewrite count_app, IH.
Qed.

Lemma count_firstn_le (x : string) (k : nat) (l : list string) :
  count x (firstn k l) <= count x l.
Proof.
  rewrite <- (firstn_skipn k l) at 2. rewrite count_app. lia.
Qed.

Lemma list_sum_nth_le {A : Type} (f : A -> nat) (l : list A) :
  forall i y, nth_error l i = Some y -> f y <= list_sum (map f l).
Proof.
  induction l as [|h t IH]; intros [|i] y H; simpl in *; try discriminate.
  - injection H as ->. lia.
  - specialize (IH _ _ H). lia.
Qed.

Lemma list_sum_finished (f : wstate -> nat) (l : list wstate) :
  f Finished = 0 -> forallb is_finished l = true ->
  list_sum (map f l) = 0.
Proof.
  intros Hf. induction l as [|h t IH]; simpl; [reflexivity|].
  intros H. apply andb_true_iff in H as [Hh Ht].
  destruct h; try discriminate. rewrite Hf. auto.
Qed.

Lemma list_sum_zero {A : Type} (l : list A) :
  list_sum (map (fun _ => 0) l) = 0.
Proof. induction l; simpl; auto. Qed.

Lemma list_sum_queued (f : wstate -> nat) (g : list string -> nat)
  (chunks : list (list string)) :
  (forall chunk, f (Queued chunk) = g chunk) ->
  list_sum (map f (map Queued chunks)) = list_sum (map g chunks).
Proof.
  intros H. induction chunks as [|c cs IH]; simpl; [reflexivity|].
  now rewrite H, IH.
Qed.

Lemma probe_errors_nil (w : World) (pw : string) :
  probe_errors w pw [] = [].
Proof. unfold probe_errors. now destruct (attempt w pw). Qed.

Lemma probe_errors_quiet (w : World) (pw : string) (encs : list string) :
  (forall msg, attempt w pw <> Fault msg) -> probe_errors w pw encs = [].
Proof.
  unfold probe_errors. destruct (attempt w pw) as [|msg|size]; auto.
  intros H. now contradiction (H msg).
Qed.

Lemma probe_errors_snoc (w : World) (pw msg enc : string)
  (encs : list string) :
  attempt w pw = Fault msg ->
  probe_errors w pw (encs ++ [enc])
  = probe_errors w pw encs ++ [error_with enc msg].
Proof. unfold probe_errors. intros ->. apply map_app. Qed.

Lemma accepted_no_fault (w : World) (verify : bool) (pw : string) :
  outcome_matches w verify pw = true -> probe_errors w pw encodings = [].
Proof.
  unfold outcome_matches. intros H. apply probe_errors_quiet.
  intros msg E. rewrite E in H. discriminate.
Qed.

(** One more pass of a probe. *)
Lemma probing_next (enc : string) (encs : list string) (k : nat) :
  enc :: encs = skipn k encodings ->
  encs = skipn (S k) encodings
  /\ firstn (length encodings - length encs) encodings
     = firstn (length encodings - length (enc :: encs)) encodings ++ [enc].
Proof.
  destruct k as [|[|[|[|[|k]]]]]; cbn; intros H; try discriminate;
    injection H as -> ->; split; reflexivity.
Qed.

Lemma probing_done (k : nat) : [] = skipn k encodings -> 0 < k.
Proof. destruct k; [discriminate|lia]. Qed.

Ltac account_simpl :=
  cbn [partial todo counting writing errors attempts errors_append
       attempts_incr set_errors set_attempts length found password];
  rewrite ?count_app, ?count_nil.

Ltac plain_lia := first [lia | clear; lia].
Ltac acc_errors := intros x; account_simpl; plain_lia.
Ltac acc_attempts := account_simpl; plain_lia.
Ltac acc_todo := intros q; account_simpl; plain_lia.
Ltac acc_cover :=
  intros _ Hf _; account_simpl; split; [exact Hf|];
  split; [reflexivity|]; intros q; account_simpl; plain_lia.
Ltac acc_slot := intros Hp; exact Hp.

Section Ledger.
Variable w : World.
Variable verify : bool.
Variable nthreads : nat.
Variable share : Q.
Variable base : CrackingStats.
Variable all : list string.

Local Abbreviation ledgerL := (ledger w verify base all).

(** The account after a step of worker [i] from [a] to [b]. *)
Lemma ledger_update (s : pool) (i : nat) (a b : wstate) (sd' : SharedData)
  (st' : CrackingStats) (probed other probed' other' : list string) :
  ledgerL s probed other ->
  nth_error (p_workers s) i = Some a ->
  (forall x,
      count x (errors st') + count x (fault_entries w probed)
      + count x (partial w a) + count x other
      = count x (errors (p_stats s)) + count x (fault_entries w probed')
        + count x (partial w b) + count x other') ->
  attempts st' + counting b + length probed
  = attempts (p_stats s) + counting a + length probed' ->
  (forall q,
      count q probed' + count q (todo b)
      <= count q probed + count q (todo a)) ->
  ((forall j, open_chunk w j = None) -> found sd' = false ->
   writing b = 0 ->
   found (p_shared s) = false /\ writing a = 0
   /\ forall q,
        count q probed' + count q (todo b)
        = count q probed + count q (todo a)) ->
  ((password (p_shared s) = None -> found (p_shared s) = false) ->
   password sd' = None -> found sd' = false) ->
  probing_ok w verify b ->
  Forall (fun q => outcome_matches w verify q = false) probed' ->
  Forall (pool_fault_entry w) other' ->
  ledgerL (mkPool sd' st' (set_nth i b (p_workers s)) (p_waiting s))
          probed' other'.
Proof.
  intros (Hc & Ha & Ht & Hcov & Hpw & Hok & Hnm & Hoth)
         Hn He Hat Htd Hcv Hp Hb Hnm' Hoth'.
  unfold ledger. cbn [p_stats p_shared p_workers p_waiting].
  split; [|split; [|split; [|split; [|split; [|split; [|split]]]]]].
  - intros x.
    pose proof (list_sum_set_nth (fun ws => count x (partial w ws)) b _ _ _
                  Hn) as E.
    cbv beta in E. specialize (Hc x). specialize (He x). lia.
  - pose proof (list_sum_set_nth counting b _ _ _ Hn). lia.
  - intros q.
    pose proof (list_sum_set_nth (fun ws => count q (todo ws)) b _ _ _ Hn)
      as E.
    cbv beta in E. specialize (Ht q). specialize (Htd q). lia.
  - intros Hopen Hf Hw q.
    pose proof (list_sum_set_nth writing b _ _ _ Hn) as Ew.
    assert (Hwb : writing b = 0).
    { pose proof (list_sum_nth_le writing _ i b
                    (nth_error_set_nth_same b _ _ _ Hn)). lia. }
    destruct (Hcv Hopen Hf Hwb) as (Hf0 & Hwa & Heq).
    pose proof (list_sum_set_nth (fun ws => count q (todo ws)) b _ _ _ Hn)
      as Et.
    cbv beta in Et.
    specialize (Hcov Hopen Hf0 ltac:(lia) q). specialize (Heq q). lia.
  - now apply Hp.
  - now apply Forall_set_nth.
  - exact Hnm'.
  - exact Hoth'.
Qed.

Lemma ledger_step (c : choice) (s : pool) (ev : event) (s1 : pool) :
  (exists probed other, ledgerL s probed other) ->
  step_at w verify nthreads share c s = Some (ev, s1) ->
  exists probed other, ledgerL s1 probed other.
Proof.
  intros (probed & other & L) H.
  pose proof L as (Hc & Ha & Ht & Hcov & Hpw & Hok & Hnm & Hoth).
  pool_step_cases H i ws ws' sd' st' Hc' Hn Hw.
  - pose proof (Forall_nth_error _ _ _ _ Hok Hn) as Hws.
    destruct ws as [chunk|[|pw rest]|pw [|enc encs] rest|pw|rest|];
      simpl in Hw.
    + destruct (open_chunk w i) as [text|] eqn:Eo;
        injection Hw as <- <- <- <-.
      * exists probed, (other ++ [text]).
        eapply ledger_update;
          [exact L|exact Hn|acc_errors|acc_attempts|acc_todo| |acc_slot
          |exact I|exact Hnm|].
        -- intros Hopen. rewrite Hopen in Eo. discriminate.
        -- apply Forall_app. split; [exact Hoth|].
           constructor; [|constructor]. right. now exists i.
      * exists probed, other.
        eapply ledger_update;
          [exact L|exact Hn|acc_errors|acc_attempts|acc_todo|acc_cover
          |acc_slot|exact I|exact Hnm|exact Hoth].
    + injection Hw as <- <- <- <-.
      exists probed, other.
      eapply ledger_update;
        [exact L|exact Hn|acc_errors|acc_attempts|acc_todo|acc_cover
        |acc_slot|exact I|exact Hnm|exact Hoth].
    + destruct (found (p_shared s)) eqn:Ef; injection Hw as <- <- <- <-.
      * exists probed, other.
        eapply ledger_update;
          [exact L|exact Hn|acc_errors|acc_attempts|acc_todo| |acc_slot
          |exact I|exact Hnm|exact Hoth].
        intros _ Hf. rewrite Hf in Ef. discriminate.
      * exists probed, other.
        eapply ledger_update;
          [exact L|exact Hn| |acc_attempts|acc_todo|acc_cover|acc_slot
          | |exact Hnm|exact Hoth].
        -- intros x. cbn [partial]. rewrite Nat.sub_diag. cbn [firstn].
           rewrite probe_errors_nil. account_simpl. plain_lia.
        -- exists 0. split; [reflexivity|lia].
    + injection Hw as <- <- <- <-.
      destruct Hws as (k & Hk & Hno). apply probing_done in Hk.
      exists (probed ++ [pw]), other.
      eapply ledger_update;
        [exact L|exact Hn| | | | |acc_slot|exact I| |exact Hoth].
      * intros x. unfold fault_entries. rewrite flat_map_app.
        cbn [flat_map partial].
        change (firstn (length encodings - length (@nil string)) encodings)
          with encodings.
        rewrite !count_app. account_simpl. plain_lia.
      * account_simpl. rewrite length_app. cbn [length]. plain_lia.
      * intros q. account_simpl. rewrite (count_cons q pw rest). plain_lia.
      * intros _ Hf _. account_simpl. split; [exact Hf|].
        split; [reflexivity|]. intros q. account_simpl.
        rewrite (count_cons q pw rest). plain_lia.
      * apply Forall_app. split; [exact Hnm|]. constructor; auto.
    + destruct Hws as (k & Hk & Hno).
      apply probing_next in Hk as (Hk & Hfirst).
      assert (Hnext : outcome_matches w verify pw = false ->
                      probing_ok w verify (Probing pw encs rest)).
      { intros Hm. exists (S k). split; [exact Hk|]. intros _. exact Hm. }
      destruct (attempt w pw) as [|msg|size] eqn:Ea;
        [| |destruct (verify && (0 <? size)%nat) eqn:Ev];
        injection Hw as <- <- <- <-.
      * exists probed, other.
        eapply ledger_update;
          [exact L|exact Hn| |acc_attempts|acc_todo|acc_cover|acc_slot
          | |exact Hnm|exact Hoth].
        -- intros x. cbn [partial].
           rewrite !(probe_errors_quiet w pw) by (rewrite Ea; discriminate).
           plain_lia.
        -- apply Hnext. unfold outcome_matches. now rewrite Ea.
      * exists probed, other.
        eapply ledger_update;
          [exact L|exact Hn| |acc_attempts|acc_todo|acc_cover|acc_slot
          | |exact Hnm|exact Hoth].
        -- intros x. cbn [partial errors_append errors set_errors].
           rewrite Hfirst, (probe_errors_snoc w pw msg) by exact Ea.
           rewrite !count_app. plain_lia.
        -- apply Hnext. unfold outcome_matches. now rewrite Ea.
      * exists probed, other.
        eapply ledger_update;
          [exact L|exact Hn| |acc_attempts|acc_todo| |acc_slot
          |exact I|exact Hnm|exact Hoth].
        -- intros x. cbn [partial].
           rewrite !(probe_errors_quiet w pw) by (rewrite Ea; discriminate).
           account_simpl. plain_lia.
        -- intros _ _ Hwr. discriminate Hwr.
      * exists probed, other.
        eapply ledger_update;
          [exact L|exact Hn| |acc_attempts|acc_todo|acc_cover|acc_slot
          | |exact Hnm|exact Hoth].
        -- intros x. cbn [partial].
           rewrite !(probe_errors_quiet w pw) by (rewrite Ea; discriminate).
           plain_lia.
        -- apply Hnext. unfold outcome_matches. rewrite Ea. exact Ev.
    + injection Hw as <- <- <- <-.
      exists probed, other.
      eapply ledger_update;
        [exact L|exact Hn|acc_errors|acc_attempts|acc_todo| |
        |exact I|exact Hnm|exact Hoth].
      * intros _ Hf. discriminate Hf.
      * intros _ Hp. discriminate Hp.
    + injection Hw as <- <- <- <-.
      exists probed, other.
      eapply ledger_update;
        [exact L|exact Hn|acc_errors|acc_attempts|acc_todo|acc_cover
        |acc_slot|exact I|exact Hnm|exact Hoth].
    + discriminate.
  - exists probed, (other ++ [timeout_text]).
    unfold ledger. cbn [p_stats p_shared p_workers p_waiting].
    repeat split; auto.
    + intros x. account_simpl. specialize (Hc x). lia.
    + apply Forall_app. split; [exact Hoth|].
      constructor; [now left|constructor].
  - exists probed, other. exact L.
Qed.

(** The account of a pool run to its join. *)
Lemma exec_ledger (sched : list choice) (chunks : list (list string))
  (tr : list event) (s : pool) :
  1 <= nthreads ->
  concat chunks = all ->
  exec w verify nthreads share sched (pool_init chunks base) = (tr, s) ->
  exists probed other,
    account w verify (pool_fault_entry w) all base (p_stats s) probed other
    /\ (password (p_shared s) = None ->
        (forall i, open_chunk w i = None) ->
        forall q, count q probed = count q all).
Proof.
  intros Hth Hall He.
  pose proof (exec_steps w verify nthreads share sched
                (pool_init chunks base)) as Hsteps.
  pose proof (exec_joined w verify nthreads share sched
                (pool_init chunks base) Hth) as Hj.
  rewrite He in Hsteps, Hj. cbn [fst snd] in Hsteps, Hj.
  apply (steps_invariant_all w verify nthreads share
           (fun x => exists probed other, ledgerL x probed other)
           ledger_step) in Hsteps.
  - destruct Hsteps as (probed & other & Hc & Ha & Ht & Hcov & Hpw & _
                        & Hnm & Hoth).
    unfold joined in Hj. apply andb_true_iff in Hj as [_ Hfin].
    exists probed, other. split.
    + repeat split; auto.
      * intros x. specialize (Hc x).
        rewrite (list_sum_finished _ _ eq_refl Hfin) in Hc. lia.
      * rewrite (list_sum_finished _ _ eq_refl Hfin) in Ha. lia.
      * intros q. specialize (Ht q). lia.
    + intros Hp Hopen q.
      specialize (Hcov Hopen (Hpw Hp)
                    (list_sum_finished _ _ eq_refl Hfin) q).
      rewrite (list_sum_finished _ _ eq_refl Hfin) in Hcov. lia.
  - exists [], []. unfold ledger, pool_init.
    cbn [p_stats p_shared p_workers p_waiting].
    repeat split; auto.
    + intros x. rewrite (list_sum_queued _ (fun _ => 0)) by reflexivity.
      rewrite list_sum_zero. account_simpl. lia.
    + rewrite (list_sum_queued _ (fun _ => 0)) by reflexivity.
      rewrite list_sum_zero. cbn [length]. lia.
    + intros q. rewrite (list_sum_queued _ (count q)) by reflexivity.
      rewrite <- count_concat, Hall. account_simpl. lia.
    + intros _ _ _ q. rewrite (list_sum_queued _ (count q)) by reflexivity.
      rewrite <- count_concat, Hall. reflexivity.
    + apply Forall_map, Forall_forall. intros chunk _. exact I.
Qed.

End Ledger.

(** *** The account of the strategies *)

Lemma account_compose (w : World) (verify : bool) (ok : string -> Prop)
  (l l1 l2 : list string) (st st1 st2 : CrackingStats)
  (p1 o1 p2 o2 : list string) :
  account w verify ok l1 st st1 p1 o1 ->
  account w verify ok l2 st1 st2 p2 o2 ->
  (forall q, count q l1 + count q l2 <= count q l) ->
  account w verify ok l st st2 (p1 ++ p2) (o1 ++ o2).
Proof.
  intros (He1 & Ha1 & Hc1 & Hn1 & Ho1) (He2 & Ha2 & Hc2 & Hn2 & Ho2) Hl.
  unfold account, fault_entries. rewrite flat_map_app, length_app.
  repeat split.
  - intros x. specialize (He1 x). specialize (He2 x).
    unfold fault_entries in *. rewrite !count_app. lia.
  - lia.
  - intros q. specialize (Hc1 q). specialize (Hc2 q). specialize (Hl q).
    rewrite count_app. lia.
  - now apply Forall_app.
  - now apply Forall_app.
Qed.

Lemma account_weaken (w : World) (verify : bool) (ok ok' : string -> Prop)
  (l l' : list string) (st st' : CrackingStats) (p o : list string) :
  account w verify ok l st st' p o ->
  (forall x, ok x -> ok' x) ->
  (forall q, count q l <= count q l') ->
  account w verify ok' l' st st' p o.
Proof.
  intros (He & Ha & Hc & Hn & Ho) Hok Hl. repeat split; auto.
  - intros q. specialize (Hc q). specialize (Hl q). lia.
  - eapply Forall_impl; [|exact Ho]. exact Hok.
Qed.

(** The worker run alone probes a prefix of its candidates, all of them
    when it writes no password. *)
Lemma worker_loop_account (w : World) (verify : bool) :
  forall (l : list string) (st : CrackingStats),
    exists k,
      errors (snd (_worker_loop w verify l shared_new st))
      = errors st ++ fault_entries w (firstn k l)
      /\ attempts (snd (_worker_loop w verify l shared_new st))
         = attempts st + length (firstn k l)
      /\ Forall (fun q => outcome_matches w verify q = false) (firstn k l)
      /\ (password (fst (_worker_loop w verify l shared_new st)) = None ->
          firstn k l = l).
Proof.
  induction l as [|pw l IH]; intros st.
  - exists 0. cbn. rewrite app_nil_r. repeat split; auto.
  - cbn [_worker_loop shared_new found]. rewrite try_decrypt_eq.
    destruct (outcome_matches w verify pw) eqn:E.
    + exists 0. cbn. rewrite (accepted_no_fault _ _ _ E), !app_nil_r.
      repeat split; [lia|constructor|discriminate].
    + destruct (IH (attempts_incr
                      (set_errors st
                         (errors st ++ probe_errors w pw encodings))))
        as (k & He & Ha & Hn & Hp).
      exists (S k). cbn [firstn length]. unfold fault_entries in *.
      cbn [flat_map]. rewrite He, Ha. cbn. rewrite <- app_assoc.
      repeat split; [lia|now constructor|].
      intros H. now rewrite (Hp H).
Qed.

Lemma crack_single_account (w : World) (self : PasswordCracker)
  (l : list string) (st : CrackingStats) :
  exists probed other,
    account w (verify_hash self) (run_fault_entry w self) l st
            (snd (_crack_single w self l st)) probed other
    /\ (fst (_crack_single w self l st) = None ->
        open_single w = None -> probed = l)
    /\ (exists k, probed = firstn k l)
    /\ errors (snd (_crack_single w self l st))
       = errors st ++ fault_entries w probed ++ other.
Proof.
  unfold _crack_single, _worker.
  destruct (open_single w) as [text|] eqn:Eo.
  - exists [], [text]. split; [|split; [discriminate|]].
    + repeat split; auto.
      * intros x. account_simpl. cbn [snd]. account_simpl. lia.
      * intros q. account_simpl. lia.
      * constructor; [|constructor]. right. now left.
    + split; [now exists 0|reflexivity].
  - destruct (worker_loop_account w (verify_hash self) l st)
      as (k & He & Ha & Hn & Hp).
    destruct (_worker_loop w (verify_hash self) l shared_new st)
      as [sd st1].
    cbn [fst snd] in *. exists (firstn k l), []. split; [|split].
    + repeat split; auto.
      * intros x. rewrite He, count_app. account_simpl. lia.
      * intros q. apply count_firstn_le.
    + intros H _. now apply Hp.
    + split; [now exists k|]. now rewrite app_nil_r.
Qed.

Lemma make_chunks_count (chunk_size : Z) (l : list string)
  (chunks : list (list string)) :
  make_chunks chunk_size l = Ret chunks ->
  (forall q, count q (concat chunks) <= count q l)
  /\ ((0 < chunk_size)%Z -> concat chunks = l).
Proof.
  unfold make_chunks.
  destruct (Z.eqb_spec chunk_size 0); [discriminate|].
  destruct (Z.ltb_spec chunk_size 0); intros [= <-].
  - split; [intros q; cbn; lia|lia].
  - assert (E : concat (map (fun i => py_slice l i (i + Z.to_nat chunk_size))
                            (py_range0 (length l) (Z.to_nat chunk_size)))
                = l)
      by (apply py_chunks_concat; lia).
    split; [|intros _; exact E]. intros q. rewrite E. lia.
Qed.

Lemma crack_multi_account (w : World) (self : PasswordCracker)
  (sched : list choice) (l : list string) (st : CrackingStats) :
  (1 <= threads self)%Z ->
  exists probed other,
    account w (verify_hash self) (run_fault_entry w self) l st
            (snd (_crack_multi w self sched l st)) probed other
    /\ (forall e,
           fst (_crack_multi w self sched l st) = Raise e ->
           make_chunks (chunk_size self) l = Raise e)
    /\ (fst (_crack_multi w self sched l st) = Ret None ->
        (0 < chunk_size self)%Z ->
        (forall i, open_chunk w i = None) ->
        forall q, count q probed = count q l).
Proof.
  intros Hth. unfold _crack_multi, _crack_multi_run.
  destruct (make_chunks (chunk_size self) l) as [chunks|e] eqn:E;
    cbn [bind].
  - apply make_chunks_count in E as (Hle & Heq).
    destruct (exec w (verify_hash self) (Z.to_nat (threads self))
                   (wait_share (timeout self) (length chunks)) sched
                   (pool_init chunks st)) as [tr s] eqn:Ex.
    apply (exec_ledger w (verify_hash self) (Z.to_nat (threads self))
             (wait_share (timeout self) (length chunks)) st
             (concat chunks)) in Ex as (probed & other & Hacc & Hcov);
      [|lia|reflexivity].
    exists probed, other. cbn [fst snd]. split; [|split].
    + eapply account_weaken; [exact Hacc| |exact Hle].
      intros x [->|Hx]; [now left|]. right. right. now left.
    + discriminate.
    + intros [= Hp] Hcs Hopen q. rewrite <- (Heq Hcs).
      now apply Hcov.
  - exists [], []. cbn [fst snd]. split; [|split].
    + repeat split; auto.
      * intros x. account_simpl. lia.
      * intros q. account_simpl. lia.
    + now intros e' [= <-].
    + discriminate.
Qed.

Lemma crack_single_nonempty (w : World) (self : PasswordCracker)
  (l : list string) (st : CrackingStats) :
  Forall (fun p => p <> "") l ->
  truthy (fst (_crack_single w self l st)) = false ->
  fst (_crack_single w self l st) = None.
Proof.
  intros Hne Ht.
  destruct (fst (_crack_single w self l st)) as [pw|] eqn:E; [|reflexivity].
  apply crack_single_result_in in E as Hin.
  rewrite Forall_forall in Hne. specialize (Hne pw Hin).
  apply String.eqb_neq in Hne. cbn in Ht. now rewrite Hne in Ht.
Qed.

Lemma run_strategy_account (w : World) (self : PasswordCracker)
  (sched : list choice) (l : list string) (st : CrackingStats) :
  (1 <= threads self)%Z ->
  Forall (fun p => p <> "") l ->
  exists probed other,
    account w (verify_hash self) (run_fault_entry w self) l st
            (snd (run_strategy w self sched l st)) probed other
    /\ (forall e,
           fst (run_strategy w self sched l st) = Raise e ->
           exists l', make_chunks (chunk_size self) l' = Raise e)
    /\ (fst (run_strategy w self sched l st) = Ret None ->
        (0 < chunk_size self)%Z ->
        open_single w = None ->
        (forall i, open_chunk w i = None) ->
        forall q, count q probed = count q l)
    /\ (mode self = SINGLE ->
        (exists k, probed = firstn k l)
        /\ errors (snd (run_strategy w self sched l st))
           = errors st ++ fault_entries w probed ++ other).
Proof.
  intros Hth Hne. unfold run_strategy. destruct (mode self).
  - destruct (crack_single_account w self l st)
      as (probed & other & Hacc & Hcov & Hk & He).
    destruct (_crack_single w self l st) as [r st1]. cbn [fst snd] in *.
    exists probed, other. split; [exact Hacc|]. split; [discriminate|].
    split; [|auto]. intros [= ->] _ Ho _ q. now rewrite Hcov.
  - destruct (crack_multi_account w self sched l st Hth)
      as (probed & other & Hacc & Hr & Hcov).
    exists probed, other. split; [exact Hacc|]. split; [|split].
    + intros e He. exists l. auto.
    + intros Hn Hcs _ Hopen. now apply Hcov.
    + discriminate.
  - unfold _crack_hybrid.
    destruct (crack_single_account w self (firstn 100 l) st)
      as (p1 & o1 & Hacc1 & Hcov1 & _).
    pose proof (crack_single_nonempty w self (firstn 100 l) st) as Hnone.
    destruct (_crack_single w self (firstn 100 l) st) as [r st1].
    cbn [fst snd] in *.
    destruct (truthy r) eqn:Et.
    + exists p1, o1. cbn [fst snd]. split; [|split; [|split]].
      * eapply account_weaken; [exact Hacc1|auto|].
        intros q. apply count_firstn_le.
      * discriminate.
      * intros [= ->]. discriminate.
      * discriminate.
    + destruct (crack_multi_account w self sched (skipn 100 l) st1 Hth)
        as (p2 & o2 & Hacc2 & Hr & Hcov2).
      exists (p1 ++ p2), (o1 ++ o2). split; [|split; [|split]];
        [| | |discriminate].
      * eapply account_compose; [exact Hacc1|exact Hacc2|].
        intros q. rewrite <- (firstn_skipn 100 l) at 3.
        rewrite count_app. lia.
      * intros e He. exists (skipn 100 l). auto.
      * intros Hn Hcs Ho Hopen q.
        rewrite <- (firstn_skipn 100 l). rewrite !count_app.
        rewrite (Hcov2 Hn Hcs Hopen q).
        rewrite Hcov1; [reflexivity| |exact Ho].
        apply Hnone; [|reflexivity].
        apply Forall_forall. intros p Hp.
        rewrite Forall_forall in Hne. apply Hne.
        rewrite <- (firstn_skipn 100 l). apply in_or_app. now left.
Qed.

Lemma account_permutation (w : World) (verify : bool) (ok : string -> Prop)
  (l : list string) (st st' : CrackingStats) (probed other : list string) :
  account w verify ok l st st' probed other ->
  errors st = [] ->
  Permutation (errors st') (fault_entries w probed ++ other).
Proof.
  intros (He & _) Hst. apply (Permutation_count_occ string_dec).
  intros x. specialize (He x). unfold count in He.
  rewrite Hst in He. rewrite count_occ_app. cbn in He. lia.
Qed.



(** The run of the witness: the library faults on each of the three
    candidates and the first wait times out; the three candidates are
    counted and each leaves its four entries. *)
Lemma crack_faulty_run :
  crack faulty_world (sample_fs plain_wordlist)
        (mkCracker "doc.docx" "words.txt" MULTI (clamp_threads 64) 2 3600
                   true) [Run 0; Expire; Run 1]
  = Ret (None, 1%Z,
         mkStats 3 0 1 "" false
           (timeout_text
            :: fault_entries faulty_world ["aaa"; "bbb"; "ccc"])).
Proof. reflexivity. Qed.

(** ** Setup errors *)

(** C9, as the code has it: a missing document, a missing wordlist, a
    document of size zero or a wordlist of size zero makes the constructor
    raise, with the text for the first of these conditions that holds (a
    missing file is named by the text of its [Path]); the run never starts
    and the caller gets the exception, not a triple. *)
Theorem setup_errors_raise (w : World) (fs : FileSystem) (fp wp : string)
  (m : CrackingMode) (t cs tmo : Z) (vh : bool) (sched : list choice) :
  fs fp = None \/ fs wp = None \/ fs fp = Some "" \/ fs wp = Some "" ->
  exists e,
    PasswordCracker_init fs fp wp m t cs tmo vh = Raise e
    /\ construct_and_crack w fs fp wp m t cs tmo vh sched = Raise e
    /\ e = match fs fp, fs wp with
           | None, _ =>
               mkExn FileNotFoundError
                     ("Document not found: " ++ path_str fp)%string
           | Some _, None =>
               mkExn FileNotFoundError
                     ("Wordlist not found: " ++ path_str wp)%string
           | Some "", Some _ => mkExn ValueError "Document is empty"
           | Some _, Some _ => mkExn ValueError "Wordlist is empty"
           end.
Proof.
  intros H. unfold construct_and_crack, PasswordCracker_init, _validate_inputs.
  cbn [file_path wordlist_path bind].
  destruct (fs fp) as [[|c doc]|]; destruct (fs wp) as [[|c' wl]|];
    try (eexists; split; [reflexivity|split; reflexivity]).
  destruct H as [H|[H|[H|H]]]; discriminate.
Qed.

Lemma setup_errors_raise_witness :
  exists e,
    PasswordCracker_init (sample_fs "") "./nope.docx" "words.txt" SINGLE 4
                         1000 3600 true = Raise e
    /\ construct_and_crack secret_world (sample_fs "") "./nope.docx"
         "words.txt" SINGLE 4 1000 3600 true [] = Raise e
    /\ e = mkExn FileNotFoundError "Document not found: nope.docx".
Proof.
  apply (setup_errors_raise secret_world (sample_fs "") "./nope.docx"
           "words.txt" SINGLE 4 1000 3600 true []).
  left. reflexivity.
Defined.

(** C9 as worded fails on a candidate list that is empty while the wordlist
    file is not: a wordlist of one blank line passes the constructor, the
    loader yields no candidate, and [crack] catches its own exception and
    returns the triple, with the text recorded in [stats.errors]. *)
Lemma blank_wordlist_returns_triple :
  _load_passwords (sample_fs newline) (sample_cracker SINGLE 4 1000 true)
  = Ret []
  /\ construct_and_crack secret_world (sample_fs newline) "doc.docx"
       "words.txt" SINGLE 4 1000 3600 true []
     = Ret (None, 5%Z,
            mkStats 0 100 0 "" false ["No valid passwords in wordlist"])
  /\ forall e,
       construct_and_crack secret_world (sample_fs newline) "doc.docx"
         "words.txt" SINGLE 4 1000 3600 true [] <> Raise e.
Proof.
  split; [reflexivity|]. split; [reflexivity|].
  intros e. vm_compute. discriminate.
Qed.

(** * Further properties of the code *)

(** ** The wordlist loaders *)

Lemma byte_in_spec (lo hi : nat) (b : ascii) :
  byte_in lo hi b = true <-> lo <= nat_of_ascii b <= hi.
Proof.
  unfold byte_in. rewrite andb_true_iff, !Nat.leb_le. tauto.
Qed.

Lemma byte_in_false (lo hi : nat) (b : ascii) :
  nat_of_ascii b < lo \/ hi < nat_of_ascii b -> byte_in lo hi b = false.
Proof.
  intros H. apply not_true_iff_false. rewrite byte_in_spec. lia.
Qed.

Ltac byte_ranges H :=
  cbn [well_formed] in H;
  repeat first [ rewrite andb_true_iff in H
               | rewrite orb_true_iff in H
               | rewrite byte_in_spec in H ].

(** Decoding gives a well-formed character where one starts. *)
Lemma decode_char (c : char) (bs : list ascii) :
  well_formed c = true -> decode (c ++ bs) = c :: decode bs.
Proof.
  destruct c as [|b0 [|b1 [|b2 [|b3 [|b4 c]]]]]; try discriminate; intros H.
  - cbn [app decode]. now rewrite H.
  - cbn [app decode]. rewrite H.
    replace (well_formed [b0]) with false; [reflexivity|].
    symmetry. byte_ranges H. apply byte_in_false. lia.
  - cbn [app decode]. rewrite H.
    replace (well_formed [b0]) with false;
      [|symmetry; byte_ranges H; apply byte_in_false; lia].
    replace (well_formed [b0; b1]) with false; [reflexivity|].
    symmetry. byte_ranges H. cbn [well_formed].
    rewrite (byte_in_false 194 223) by lia. reflexivity.
  - cbn [app decode]. rewrite H.
    replace (well_formed [b0]) with false;
      [|symmetry; byte_ranges H; apply byte_in_false; lia].
    replace (well_formed [b0; b1]) with false;
      [|symmetry; byte_ranges H; cbn [well_formed];
        rewrite (byte_in_false 194 223) by lia; reflexivity].
    replace (well_formed [b0; b1; b2]) with false; [reflexivity|].
    symmetry. byte_ranges H. cbn [well_formed].
    rewrite (byte_in_false 224 224), (byte_in_false 225 236),
      (byte_in_false 237 237), (byte_in_false 238 239) by lia.
    reflexivity.
Qed.

Lemma decode_concat (cs : list char) (bs : list ascii) :
  Forall (fun c => well_formed c = true) cs ->
  decode (concat cs ++ bs) = cs ++ decode bs.
Proof.
  induction 1 as [|c cs Hc _ IH]; [reflexivity|].
  cbn [concat]. rewrite <- app_assoc, decode_char by exact Hc.
  cbn [app]. now rewrite IH.
Qed.

(** Every character that decoding gives is well formed. *)
Lemma decode_well_formed (bs : list ascii) :
  Forall (fun c => well_formed c = true) (decode bs).
Proof.
  remember (length bs) as n eqn:Hn.
  assert (Hle : length bs <= n) by lia. clear Hn. revert bs Hle.
  induction n as [|n IH]; intros bs Hle.
  - destruct bs; [constructor|simpl in Hle; lia].
  - destruct bs as [|b0 r0]; [constructor|]. simpl in Hle.
    cbn [decode]. destruct (well_formed [b0]) eqn:E0;
      [constructor; [exact E0|apply IH; lia]|].
    destruct r0 as [|b1 r1]; [constructor|]. simpl in Hle.
    destruct (well_formed [b0; b1]) eqn:E1;
      [constructor; [exact E1|apply IH; lia]|].
    destruct r1 as [|b2 r2]; [apply IH; simpl; lia|]. simpl in Hle.
    destruct (well_formed [b0; b1; b2]) eqn:E2;
      [constructor; [exact E2|apply IH; lia]|].
    destruct r2 as [|b3 r3]; [apply IH; simpl; lia|]. simpl in Hle.
    destruct (well_formed [b0; b1; b2; b3]) eqn:E3;
      [constructor; [exact E3|apply IH; lia]|].
    apply IH. simpl. lia.
Qed.

(** Encoding and then decoding gives the characters back. *)
Lemma chars_encode (cs : list char) :
  Forall (fun c => well_formed c = true) cs -> chars (encode cs) = cs.
Proof.
  intros H. unfold chars, encode.
  rewrite list_ascii_of_string_of_list_ascii.
  rewrite <- (app_nil_r (concat cs)), decode_concat by exact H.
  apply app_nil_r.
Qed.

Lemma lstrip_chars_idem (l : list char) :
  lstrip_chars (lstrip_chars l) = lstrip_chars l.
Proof.
  induction l as [|c l IH]; simpl; [reflexivity|].
  destruct (is_space c) eqn:E; [exact IH|]. simpl. now rewrite E.
Qed.

Lemma lstrip_chars_split (l : list char) :
  exists sp, l = sp ++ lstrip_chars l.
Proof.
  induction l as [|c l [sp IH]]; simpl.
  - now exists [].
  - destruct (is_space c); [|now exists []].
    exists (c :: sp). simpl. now rewrite <- IH.
Qed.

Lemma lstrip_chars_fixed (l : list char) :
  lstrip_chars l = l <->
  forall c, hd_error l = Some c -> is_space c = false.
Proof.
  destruct l as [|c l]; simpl; [split; [discriminate|reflexivity]|].
  destruct (is_space c) eqn:E; split; intros H.
  - exfalso. destruct (lstrip_chars_split l) as [sp Hsp].
    apply (f_equal (@length char)) in H. rewrite Hsp in H at 2.
    simpl in H. rewrite length_app in H. lia.
  - rewrite (H c eq_refl) in E. discriminate.
  - now intros c' [= <-].
  - reflexivity.
Qed.

Lemma lstrip_chars_incl (l : list char) (c : char) :
  In c (lstrip_chars l) -> In c l.
Proof.
  destruct (lstrip_chars_split l) as [sp Hsp]. intros H.
  rewrite Hsp. apply in_or_app. now right.
Qed.

Lemma strip_chars_incl (l : list char) (c : char) :
  In c (strip_chars l) -> In c l.
Proof.
  unfold strip_chars. intros H.
  apply in_rev, lstrip_chars_incl, in_rev, lstrip_chars_incl in H. exact H.
Qed.

Lemma strip_chars_Forall (P : char -> Prop) (l : list char) :
  Forall P l -> Forall P (strip_chars l).
Proof.
  rewrite !Forall_forall. intros H c Hc. apply H, strip_chars_incl, Hc.
Qed.

(** What [strip] leaves neither starts nor ends with white space. *)
Lemma strip_chars_edges (l : list char) :
  (forall c, hd_error (strip_chars l) = Some c -> is_space c = false)
  /\ (forall c, hd_error (rev (strip_chars l)) = Some c ->
      is_space c = false).
Proof.
  unfold strip_chars.
  set (a := lstrip_chars l).
  assert (Ha : lstrip_chars a = a) by apply lstrip_chars_idem.
  destruct (lstrip_chars_split (rev a)) as [sp Hsp].
  assert (Hpre : a = rev (lstrip_chars (rev a)) ++ rev sp).
  { rewrite <- (rev_involutive a) at 1. rewrite Hsp at 1.
    apply rev_app_distr. }
  split.
  - intros c Hc. apply (proj1 (lstrip_chars_fixed a) Ha).
    rewrite Hpre. destruct (rev (lstrip_chars (rev a))); [discriminate|].
    exact Hc.
  - rewrite rev_involutive.
    apply (proj1 (lstrip_chars_fixed _)), lstrip_chars_idem.
Qed.

Lemma strip_chars_fixed (l : list char) :
  (forall c, hd_error l = Some c -> is_space c = false) ->
  (forall c, hd_error (rev l) = Some c -> is_space c = false) ->
  strip_chars l = l.
Proof.
  intros H1 H2. unfold strip_chars.
  apply (proj2 (lstrip_chars_fixed _)) in H1, H2.
  rewrite H1, H2. apply rev_involutive.
Qed.

Lemma strip_chars_idem (l : list char) :
  strip_chars (strip_chars l) = strip_chars l.
Proof.
  destruct (strip_chars_edges l) as [H1 H2]. now apply strip_chars_fixed.
Qed.

Lemma strip_chars_of (s : string) :
  chars (strip s) = strip_chars (chars s).
Proof.
  unfold strip. apply chars_encode, strip_chars_Forall, decode_well_formed.
Qed.

Lemma strip_idem (s : string) : strip (strip s) = strip s.
Proof.
  unfold strip at 1. now rewrite strip_chars_of, strip_chars_idem.
Qed.

Lemma encode_nil (cs : list char) :
  Forall (fun c => well_formed c = true) cs -> encode cs = "" -> cs = [].
Proof.
  intros H E. rewrite <- (chars_encode cs H), E. reflexivity.
Qed.

Lemma plain_word_strip (s : string) : plain_word s -> strip s = s.
Proof.
  intros (Hs & _ & H1 & H2 & _). unfold strip.
  now rewrite strip_chars_fixed.
Qed.

(** The loop of the loader is the comprehension of the legacy reader. *)
Lemma load_lines_eq (lines : list string) :
  forall acc,
    load_lines lines acc =
    acc ++ map strip
             (filter (fun line => negb (strip line =? "")%string) lines).
Proof.
  induction lines as [|line lines IH]; intros acc; cbn [load_lines filter].
  - now rewrite app_nil_r.
  - assert (E : (1 <=? String.length (strip line))%nat
                = negb (strip line =? "")%string)
      by (destruct (strip line); reflexivity).
    rewrite E, andb_diag.
    destruct (negb (strip line =? "")%string); rewrite IH; [|reflexivity].
    cbn [map]. now rewrite <- app_assoc.
Qed.

Lemma text_lines_from_Forall (P : char -> Prop) (cs : list char) :
  Forall P cs ->
  forall cur, Forall P cur -> Forall (Forall P) (text_lines_from cur cs).
Proof.
  induction 1 as [|c cs Hc _ IH]; intros cur Hcur; simpl.
  - constructor; [now apply Forall_rev|constructor].
  - destruct (is_newline c).
    + constructor; [now apply Forall_rev|apply IH; constructor].
    + apply IH. now constructor.
Qed.

Lemma text_lines_from_no_newline (cs : list char) :
  forall cur,
    Forall (fun c => is_newline c = false) cur ->
    Forall (Forall (fun c => is_newline c = false))
           (text_lines_from cur cs).
Proof.
  induction cs as [|c cs IH]; intros cur Hcur; simpl.
  - constructor; [now apply Forall_rev|constructor].
  - destruct (is_newline c) eqn:E.
    + constructor; [now apply Forall_rev|apply IH; constructor].
    + apply IH. now constructor.
Qed.

(** The candidates of a file are stripped lines of well-formed text. *)
Lemma loaded_word (text : string) (p : string) :
  In p (load_lines (text_lines text) []) ->
  exists line,
    Forall (fun c => well_formed c = true) line
    /\ Forall (fun c => is_newline c = false) line
    /\ p = encode (strip_chars line) /\ p <> "".
Proof.
  rewrite load_lines_eq. cbn [app]. intros Hp.
  apply in_map_iff in Hp as (line & <- & Hline).
  apply filter_In in Hline as [Hin Hne].
  unfold text_lines in Hin. apply in_map_iff in Hin as (cs & <- & Hcs).
  pose proof (text_lines_from_Forall _ _
                (decode_well_formed (list_ascii_of_string text)) []
                (Forall_nil _)) as Hwf.
  pose proof (text_lines_from_no_newline
                (decode (list_ascii_of_string text)) [] (Forall_nil _))
    as Hnl.
  rewrite Forall_forall in Hwf, Hnl.
  exists cs. split; [now apply Hwf|]. split; [now apply Hnl|].
  unfold strip in *. rewrite chars_encode in * by now apply Hwf.
  split; [reflexivity|].
  apply negb_true_iff in Hne. now apply String.eqb_neq.
Qed.

(** X1: every candidate that [_load_passwords] returns is well-formed
    text that is not empty, neither starts nor ends with a white space
    character of Unicode (stripping it again changes nothing) and holds no
    line end. *)
Theorem load_passwords_clean (fs : FileSystem) (self : PasswordCracker)
  (passwords : list string) :
  _load_passwords fs self = Ret passwords ->
  Forall (fun p => p <> "" /\ strip p = p /\ plain_word p) passwords.
Proof.
  unfold _load_passwords. destruct (fs (wordlist_path self)) as [text|];
    [|discriminate].
  intros [= <-]. apply Forall_forall. intros p Hp.
  apply loaded_word in Hp as (line & Hwf & Hnl & -> & Hne).
  assert (Hwf' : Forall (fun c => well_formed c = true) (strip_chars line))
    by now apply strip_chars_Forall.
  assert (Hc : chars (encode (strip_chars line)) = strip_chars line)
    by now apply chars_encode.
  split; [exact Hne|]. split.
  - unfold strip. now rewrite Hc, strip_chars_idem.
  - unfold plain_word. rewrite Hc.
    destruct (strip_chars_edges line) as [H1 H2].
    repeat split; [|exact H1|exact H2|now apply strip_chars_Forall].
    intros E. apply Hne. now rewrite E.
Qed.

Lemma load_passwords_clean_witness :
  Forall (fun p => p <> "" /\ strip p = p /\ plain_word p)
         ["abc"; "secret"].
Proof.
  apply (load_passwords_clean (sample_fs ragged_wordlist)
           (sample_cracker SINGLE 4 1000 true)).
  reflexivity.
Defined.

Lemma list_ascii_of_string_app (a b : string) :
  list_ascii_of_string (a ++ b)%string =
  list_ascii_of_string a ++ list_ascii_of_string b.
Proof. induction a as [|c a IH]; simpl; [reflexivity|now rewrite IH]. Qed.

Lemma text_lines_from_word (l : list char) :
  Forall (fun c => is_newline c = false) l ->
  forall cur rest,
    text_lines_from cur (l ++ rest) = text_lines_from (rev l ++ cur) rest.
Proof.
  induction 1 as [|c l Hc _ IH]; intros cur rest; [reflexivity|].
  cbn [app text_lines_from]. rewrite Hc, IH.
  cbn [rev]. now rewrite <- app_assoc.
Qed.

Lemma plain_word_bytes (s : string) :
  plain_word s -> list_ascii_of_string s = concat (chars s).
Proof.
  intros (Hs & _). rewrite <- Hs at 1. unfold encode.
  apply list_ascii_of_string_of_list_ascii.
Qed.

Lemma text_lines_unlines (words : list string) :
  Forall plain_word words ->
  text_lines (unlines words) = words ++ [""].
Proof.
  unfold text_lines. induction 1 as [|word words Hw _ IH];
    [reflexivity|].
  cbn [unlines fold_right]. fold (unlines words).
  rewrite !list_ascii_of_string_app, (plain_word_bytes _ Hw).
  rewrite decode_concat by apply decode_well_formed.
  change (list_ascii_of_string newline) with ([ascii_of_nat 10] ++ []).
  rewrite <- app_assoc, decode_char by reflexivity. cbn [app].
  destruct Hw as (Hs & _ & _ & _ & Hnl).
  rewrite text_lines_from_word by exact Hnl.
  cbn [text_lines_from]. change (is_newline [ascii_of_nat 10]) with true.
  cbv iota. cbn [map]. rewrite IH, app_nil_r, rev_involutive, Hs.
  reflexivity.
Qed.

(** X2: a wordlist written one word per line, with words of well-formed
    text that are not empty, neither start nor end with white space and
    hold no line end, is read back by [_load_passwords] as exactly these
    words, in their order. *)
Theorem load_passwords_unlines (fs : FileSystem) (self : PasswordCracker)
  (words : list string) :
  Forall plain_word words ->
  fs (wordlist_path self) = Some (unlines words) ->
  _load_passwords fs self = Ret words.
Proof.
  intros Hw Hfs. unfold _load_passwords. rewrite Hfs. f_equal.
  rewrite load_lines_eq, text_lines_unlines by exact Hw. cbn [app].
  rewrite filter_app, map_app. cbn [filter map].
  change (strip "") with "". cbn [String.eqb negb map].
  rewrite app_nil_r. clear Hfs.
  induction Hw as [|word words Hplain _ IH]; [reflexivity|].
  cbn [filter]. rewrite (plain_word_strip _ Hplain).
  destruct (String.eqb_spec word "") as [->|_];
    [now destruct Hplain as (_ & Hne & _)|].
  cbn [negb map]. rewrite (plain_word_strip _ Hplain). now f_equal.
Qed.

Lemma plain_word_alpha : plain_word "alpha".
Proof.
  split; [reflexivity|]. split; [discriminate|].
  split; [now intros c [= <-]|]. split; [now intros c [= <-]|].
  repeat constructor.
Qed.

Lemma plain_word_omega : plain_word "omega".
Proof.
  split; [reflexivity|]. split; [discriminate|].
  split; [now intros c [= <-]|]. split; [now intros c [= <-]|].
  repeat constructor.
Qed.

Lemma load_passwords_unlines_witness :
  _load_passwords (sample_fs (unlines ["alpha"; "omega"]))
                  (sample_cracker SINGLE 4 1000 true)
  = Ret ["alpha"; "omega"].
Proof.
  apply (load_passwords_unlines (sample_fs (unlines ["alpha"; "omega"]))
           (sample_cracker SINGLE 4 1000 true) ["alpha"; "omega"]).
  - constructor; [apply plain_word_alpha|].
    constructor; [apply plain_word_omega|constructor].
  - reflexivity.
Defined.

(** X3: the reader of the legacy tool and the loader of [PasswordCracker]
    return the same candidates from every wordlist file.  On a file that
    cannot be opened both raise the same kind of exception; the texts
    differ only in the name of the file, which the loader, holding a
    [Path], shows normalised. *)
Theorem read_wordlist_load_passwords (fs : FileSystem)
  (self : PasswordCracker) :
  (fs (wordlist_path self) <> None
   \/ path_str (wordlist_path self) = wordlist_path self ->
   read_wordlist fs (wordlist_path self) = _load_passwords fs self)
  /\ (forall l,
         read_wordlist fs (wordlist_path self) = Ret l
         <-> _load_passwords fs self = Ret l)
  /\ (forall e,
         read_wordlist fs (wordlist_path self) = Raise e ->
         exists e',
           _load_passwords fs self = Raise e'
           /\ exn_kind e' = exn_kind e).
Proof.
  unfold read_wordlist, _load_passwords.
  destruct (fs (wordlist_path self)) as [text|].
  - rewrite load_lines_eq. cbn [app]. repeat split; try tauto.
    discriminate.
  - split; [|split].
    + intros [H|H]; [now contradiction H|now rewrite H].
    + split; discriminate.
    + intros e [= <-]. eexists. split; reflexivity.
Qed.

(** The two name a file that is missing differently: the reader shows the
    path as it was given, the loader the text of its [Path]. *)
Lemma read_wordlist_names_path_as_given :
  read_wordlist (fun _ => None) "./words.txt"
  = Raise (mkExn FileNotFoundError
             "[Errno 2] No such file or directory: './words.txt'")
  /\ _load_passwords (fun _ => None)
       (mkCracker "doc.docx" "./words.txt" SINGLE 4 1000 3600 true)
     = Raise (mkExn FileNotFoundError
                "[Errno 2] No such file or directory: 'words.txt'").
Proof. split; reflexivity. Qed.

(** ** The constructor *)

(** X4: the constructor succeeds exactly when the document and the wordlist
    both exist and have a size above zero, and then stores its arguments as
    given except for the thread count, which is brought into 1..32 and
    unchanged when it lies there already. *)
Theorem init_succeeds_iff (fs : FileSystem) (fp wp : string)
  (m : CrackingMode) (t cs tmo : Z) (vh : bool) (self : PasswordCracker) :
  (PasswordCracker_init fs fp wp m t cs tmo vh = Ret self <->
   (exists doc wl,
       fs fp = Some doc /\ fs wp = Some wl /\ doc <> "" /\ wl <> "")
   /\ self = mkCracker fp wp m (clamp_threads t) cs tmo vh)
  /\ (1 <= clamp_threads t <= 32)%Z
  /\ ((1 <= t <= 32)%Z -> clamp_threads t = t)
  /\ ((t < 1)%Z -> clamp_threads t = 1%Z)
  /\ ((32 < t)%Z -> clamp_threads t = 32%Z).
Proof.
  split; [|unfold clamp_threads; repeat split; lia].
  unfold PasswordCracker_init, _validate_inputs. simpl. split.
  - destruct (fs fp) as [[|c doc]|]; destruct (fs wp) as [[|c' wl]|];
      simpl; try discriminate.
    intros [= <-]. split; [|reflexivity].
    eexists. eexists. repeat split; discriminate.
  - intros ((doc & wl & -> & -> & Hd & Hw) & ->).
    destruct doc; [contradiction|]. destruct wl; [contradiction|].
    reflexivity.
Qed.

(** ** What the pool can return *)

Section PoolResults.
Variable w : World.
Variable verify : bool.
Variable nthreads : nat.
Variable share : Q.
Variable passwords : list string.

Local Abbreviation stepR := (step_at w verify nthreads share).
Local Abbreviation stepsR := (steps w verify nthreads share).
Local Abbreviation execR := (exec w verify nthreads share).

Lemma worker_step_sound (i : nat) (ws ws' : wstate) (ev : event)
  (sd sd' : SharedData) (st st' : CrackingStats) :
  sound_worker w verify passwords ws ->
  sound_shared w verify passwords sd ->
  worker_step w verify i ws sd st = Some (ev, ws', sd', st') ->
  sound_worker w verify passwords ws'
  /\ sound_shared w verify passwords sd'.
Proof.
  unfold sound_worker. intros (Hc & Hw) Hsd H.
  destruct ws as [chunk|[|pw rest]|pw [|enc encs] rest|pw|rest|];
    simpl in *.
  - destruct (open_chunk w i); injection H as <- <- <- <-; simpl; auto.
  - injection H as <- <- <- <-; simpl; auto.
  - destruct (found sd); injection H as <- <- <- <-; simpl; auto.
  - injection H as <- <- <- <-; simpl. inversion Hc; auto.
  - destruct (attempt w pw) as [|msg|size] eqn:Ea;
      [| |destruct (verify && (0 <? size)%nat) eqn:Ev];
      injection H as <- <- <- <-; simpl; auto.
    split; [split|exact Hsd].
    + constructor; [|constructor]. now inversion Hc.
    + unfold outcome_matches. now rewrite Ea.
  - injection H as <- <- <- <-; simpl. split; [split; auto|].
    intros q [= <-]. split; [|exact Hw]. now inversion Hc.
  - injection H as <- <- <- <-; simpl; auto.
  - discriminate.
Qed.

Lemma step_sound (c : choice) (s : pool) (ev : event) (s1 : pool) :
  sound_pool w verify passwords s ->
  stepR c s = Some (ev, s1) ->
  sound_pool w verify passwords s1.
Proof.
  unfold sound_pool. intros (Hsd & Hws) H.
  pool_step_cases H i ws ws' sd' st' Hc Hn Hw; simpl; auto.
  destruct (worker_step_sound _ _ _ _ _ _ _ _
              (Forall_nth_error _ _ _ _ Hws Hn) Hsd Hw) as (Hw' & Hsd').
  split; [exact Hsd'|]. now apply Forall_set_nth.
Qed.

Lemma exec_sound (sched : list choice) (chunks : list (list string))
  (st : CrackingStats) (pw : string) :
  (forall chunk, In chunk chunks -> incl chunk passwords) ->
  password (p_shared (snd (execR sched (pool_init chunks st)))) = Some pw ->
  accepted w verify passwords pw.
Proof.
  intros Hchunks.
  pose proof (exec_steps w verify nthreads share sched (pool_init chunks st))
    as Hsteps.
  apply (steps_invariant_all w verify nthreads share
           (sound_pool w verify passwords) step_sound) in Hsteps.
  - destruct Hsteps as (Hsd & _). apply Hsd.
  - split; [intros q; discriminate|].
    unfold pool_init. simpl. apply Forall_map, Forall_forall.
    intros chunk Hin. split; [|exact I]. simpl.
    apply Forall_forall. intros q Hq. now apply (Hchunks chunk).
Qed.
(** *** A pool with an acceptable candidate finds a password *)

Section Hopeful.
Hypothesis no_open_fault : forall i, open_chunk w i = None.

Lemma worker_step_hopeful (i : nat) (ws ws' : wstate) (ev : event)
  (sd sd' : SharedData) (st st' : CrackingStats) :
  promising w verify ws ->
  found sd = false ->
  worker_step w verify i ws sd st = Some (ev, ws', sd', st') ->
  promising w verify ws' \/ found sd' = true.
Proof.
  intros Hp Hf H.
  destruct ws as [chunk|[|pw rest]|pw [|enc encs] rest|pw|rest|];
    simpl in *.
  - rewrite no_open_fault in H. injection H as <- <- <- <-. now left.
  - inversion Hp.
  - rewrite Hf in H. injection H as <- <- <- <-. left. simpl.
    inversion Hp; subst; [left; split; [assumption|discriminate]|now right].
  - injection H as <- <- <- <-. left. simpl.
    destruct Hp as [[_ Hne]|Hp]; [now contradiction Hne|exact Hp].
  - unfold outcome_matches in Hp.
    destruct (attempt w pw) as [|msg|size] eqn:Ea;
      [| |destruct (verify && (0 <? size)%nat) eqn:Ev];
      injection H as <- <- <- <-; left; simpl; auto;
      destruct Hp as [[Hm _]|Hp]; try discriminate; now right.
  - injection H as <- <- <- <-. now right.
  - injection H as <- <- <- <-. now left.
  - discriminate.
Qed.

Lemma step_hopeful (c : choice) (s : pool) (ev : event) (s1 : pool) :
  hopeful_pool w verify s ->
  stepR c s = Some (ev, s1) ->
  hopeful_pool w verify s1.
Proof.
  unfold hopeful_pool. intros Hh H.
  destruct (found (p_shared s)) eqn:Hf.
  { left. eapply step_found_monotone; eassumption. }
  destruct Hh as [Hh|(i & ws & Hn & Hp)]; [discriminate|].
  pool_step_cases H j wsj ws' sd' st' Hc Hnj Hw; simpl;
    [|right; exists i, ws; auto|right; exists i, ws; auto].
  destruct (Nat.eq_dec j i) as [->|Hji].
  - rewrite Hn in Hnj. injection Hnj as <-.
    destruct (worker_step_hopeful _ _ _ _ _ _ _ _ Hp Hf Hw) as [Hp'|Hf'];
      [right|now left].
    exists i, ws'. split; [|exact Hp'].
    eapply nth_error_set_nth_same; eassumption.
  - right. exists i, ws. split; [|exact Hp].
    now rewrite nth_error_set_nth_other.
Qed.

Lemma exec_finds (sched : list choice) (chunks : list (list string))
  (st : CrackingStats) :
  1 <= nthreads ->
  Exists (Exists (fun q => outcome_matches w verify q = true)) chunks ->
  exists pw,
    password (p_shared (snd (execR sched (pool_init chunks st)))) = Some pw.
Proof.
  intros Hthreads Hex.
  pose proof (exec_steps w verify nthreads share sched (pool_init chunks st))
    as Hsteps.
  pose proof (exec_joined w verify nthreads share sched
                (pool_init chunks st) Hthreads) as Hj.
  pose proof (steps_found_slot w verify nthreads share _ _ _ Hsteps
                eq_refl) as Hslot.
  apply (steps_invariant_all w verify nthreads share
           (hopeful_pool w verify) step_hopeful) in Hsteps.
  - destruct Hsteps as [Hf|(i & ws & Hn & Hp)].
    + rewrite Hf in Hslot.
      destruct (password (p_shared
                  (snd (execR sched (pool_init chunks st))))) as [pw|];
        [now exists pw|discriminate].
    + exfalso. unfold joined in Hj. apply andb_true_iff in Hj as [_ Hfin].
      pose proof (forallb_nth_error _ _ _ _ Hfin Hn) as Hws.
      destruct ws; try discriminate. exact Hp.
  - right. apply Exists_exists in Hex as (chunk & Hin & Hchunk).
    apply In_nth_error in Hin as (i & Hi).
    exists i, (Queued chunk). split; [|exact Hchunk].
    unfold pool_init. simpl. now rewrite nth_error_map, Hi.
Qed.
End Hopeful.

(** *** The counter never runs ahead of the candidates *)

Lemma worker_step_attempts (i : nat) (ws ws' : wstate) (ev : event)
  (sd sd' : SharedData) (st st' : CrackingStats) :
  worker_step w verify i ws sd st = Some (ev, ws', sd', st') ->
  attempts st' + pending ws' <= attempts st + pending ws.
Proof.
  intros H. worker_step_cases H; injection H as <- <- <- <-; simpl; lia.
Qed.

Lemma step_attempts (c : choice) (s : pool) (ev : event) (s1 : pool) :
  stepR c s = Some (ev, s1) ->
  attempts (p_stats s1) + list_sum (map pending (p_workers s1))
  <= attempts (p_stats s) + list_sum (map pending (p_workers s)).
Proof.
  intros H. pool_step_cases H i ws ws' sd' st' Hc Hn Hw; simpl; auto.
  apply worker_step_attempts in Hw.
  pose proof (list_sum_set_nth pending ws' (p_workers s) i ws Hn). lia.
Qed.

Lemma exec_attempts (sched : list choice) (chunks : list (list string))
  (st : CrackingStats) :
  attempts (p_stats (snd (execR sched (pool_init chunks st))))
  <= attempts st + length (concat chunks).
Proof.
  pose proof (exec_steps w verify nthreads share sched (pool_init chunks st))
    as Hsteps.
  apply (steps_invariant_all w verify nthreads share
           (fun x => attempts (p_stats x)
                     + list_sum (map pending (p_workers x))
                     <= attempts st + length (concat chunks))) in Hsteps.
  - lia.
  - intros c x ev x1 Hx Hstep. apply step_attempts in Hstep. lia.
  - unfold pool_init. simpl. rewrite map_map. simpl.
    rewrite length_concat. apply Nat.le_refl.
Qed.
End PoolResults.

(** ** What [crack] can return *)

Lemma make_chunks_within (chunk_size : Z) (passwords : list string)
  (chunks : list (list string)) :
  make_chunks chunk_size passwords = Ret chunks ->
  (forall chunk, In chunk chunks -> incl chunk passwords)
  /\ length (concat chunks) <= length passwords
  /\ (Exists (fun _ => True) chunks -> concat chunks = passwords).
Proof.
  unfold make_chunks.
  destruct (Z.eqb_spec chunk_size 0); [discriminate|].
  destruct (Z.ltb_spec chunk_size 0).
  - intros [= <-]. simpl. repeat split; try lia; try contradiction.
    intros Hex. inversion Hex.
  - intros [= <-].
    assert (Hcat : concat
              (map (fun i => py_slice passwords i (i + Z.to_nat chunk_size))
                   (py_range0 (length passwords) (Z.to_nat chunk_size)))
              = passwords) by (apply py_chunks_concat; lia).
    split; [|split; [now rewrite Hcat|auto]].
    intros chunk Hin q Hq. rewrite <- Hcat. apply in_concat. eauto.
Qed.

Lemma worker_loop_result_accepted (w : World) (verify : bool) :
  forall (l : list string) (st : CrackingStats) (pw : string),
    password (fst (_worker_loop w verify l shared_new st)) = Some pw ->
    accepted w verify l pw.
Proof.
  induction l as [|q l IH]; intros st pw; simpl; [discriminate|].
  rewrite try_decrypt_eq.
  destruct (outcome_matches w verify q) eqn:E.
  - simpl. intros [= <-]. split; [now left|exact E].
  - intros H. destruct (IH _ _ H) as [Hin Hm]. split; [now right|exact Hm].
Qed.

Lemma worker_loop_none_no_match (w : World) (verify : bool) :
  forall (l : list string) (st : CrackingStats),
    password (fst (_worker_loop w verify l shared_new st)) = None ->
    Forall (fun q => probe_matches w verify q = false) l.
Proof.
  induction l as [|q l IH]; intros st; simpl; [constructor|].
  rewrite try_decrypt_eq.
  destruct (outcome_matches w verify q) eqn:E; [discriminate|].
  intros H. constructor; [now rewrite probe_matches_eq|eapply IH, H].
Qed.

Lemma worker_loop_attempts (w : World) (verify : bool) (sd : SharedData) :
  forall (l : list string) (st : CrackingStats),
    attempts (snd (_worker_loop w verify l sd st)) <= attempts st + length l.
Proof.
  induction l as [|q l IH]; intros st; simpl; [lia|].
  destruct (found sd); [simpl; lia|]. rewrite try_decrypt_eq.
  destruct (outcome_matches w verify q); [simpl; lia|].
  etransitivity; [apply IH|]. simpl. lia.
Qed.

Lemma crack_single_accepted (w : World) (self : PasswordCracker)
  (l : list string) (st : CrackingStats) (pw : string) :
  fst (_crack_single w self l st) = Some pw ->
  accepted w (verify_hash self) l pw.
Proof.
  unfold _crack_single, _worker. destruct (open_single w); [discriminate|].
  pose proof (worker_loop_result_accepted w (verify_hash self) l st pw) as H.
  destruct (_worker_loop w (verify_hash self) l shared_new st). exact H.
Qed.

Lemma crack_single_none_no_match (w : World) (self : PasswordCracker)
  (l : list string) (st : CrackingStats) :
  open_single w = None ->
  fst (_crack_single w self l st) = None ->
  Forall (fun q => probe_matches w (verify_hash self) q = false) l.
Proof.
  unfold _crack_single, _worker. intros ->.
  pose proof (worker_loop_none_no_match w (verify_hash self) l st) as H.
  destruct (_worker_loop w (verify_hash self) l shared_new st). exact H.
Qed.

Lemma crack_single_attempts (w : World) (self : PasswordCracker)
  (l : list string) (st : CrackingStats) :
  attempts (snd (_crack_single w self l st)) <= attempts st + length l.
Proof.
  unfold _crack_single, _worker. destruct (open_single w); [simpl; lia|].
  pose proof (worker_loop_attempts w (verify_hash self) shared_new l st)
    as H.
  destruct (_worker_loop w (verify_hash self) l shared_new st). exact H.
Qed.

Lemma crack_multi_accepted (w : World) (self : PasswordCracker)
  (sched : list choice) (l : list string) (st : CrackingStats)
  (pw : string) :
  fst (_crack_multi w self sched l st) = Ret (Some pw) ->
  accepted w (verify_hash self) l pw.
Proof.
  unfold _crack_multi, _crack_multi_run.
  destruct (make_chunks (chunk_size self) l) as [chunks|e] eqn:E;
    [|discriminate].
  cbn [bind]. apply make_chunks_within in E as (Hin & _).
  pose proof (exec_sound w (verify_hash self) (Z.to_nat (threads self))
                (wait_share (timeout self) (length chunks)) l sched chunks
                st pw Hin) as H.
  destruct (exec w (verify_hash self) (Z.to_nat (threads self))
                 (wait_share (timeout self) (length chunks)) sched
                 (pool_init chunks st)) as [tr s].
  simpl in *. intros [= Hp]. now apply H.
Qed.

Lemma crack_multi_attempts (w : World) (self : PasswordCracker)
  (sched : list choice) (l : list string) (st : CrackingStats) :
  attempts (snd (_crack_multi w self sched l st)) <= attempts st + length l.
Proof.
  unfold _crack_multi, _crack_multi_run.
  destruct (make_chunks (chunk_size self) l) as [chunks|e] eqn:E;
    [|simpl; lia].
  cbn [bind]. apply make_chunks_within in E as (_ & Hlen & _).
  pose proof (exec_attempts w (verify_hash self) (Z.to_nat (threads self))
                (wait_share (timeout self) (length chunks)) sched chunks st)
    as H.
  destruct (exec w (verify_hash self) (Z.to_nat (threads self))
                 (wait_share (timeout self) (length chunks)) sched
                 (pool_init chunks st)) as [tr s].
  simpl in *. lia.
Qed.

Lemma accepted_incl (w : World) (verify : bool) (l l' : list string)
  (pw : string) :
  incl l l' -> accepted w verify l pw -> accepted w verify l' pw.
Proof. intros Hi [Hin Hm]. split; [now apply Hi|exact Hm]. Qed.

Lemma run_strategy_accepted (w : World) (self : PasswordCracker)
  (sched : list choice) (l : list string) (st : CrackingStats)
  (pw : string) :
  fst (run_strategy w self sched l st) = Ret (Some pw) ->
  accepted w (verify_hash self) l pw.
Proof.
  unfold run_strategy. destruct (mode self).
  - pose proof (crack_single_accepted w self l st pw) as H.
    destruct (_crack_single w self l st) as [r st1]. simpl in *.
    intros [= ->]. now apply H.
  - apply crack_multi_accepted.
  - unfold _crack_hybrid.
    pose proof (crack_single_accepted w self (firstn 100 l) st pw) as H.
    destruct (_crack_single w self (firstn 100 l) st) as [r st1].
    cbn [fst] in H. destruct (truthy r).
    + cbn [fst]. intros [= ->].
      eapply accepted_incl; [|now apply H].
      intros x Hx. rewrite <- (firstn_skipn 100 l). apply in_or_app.
      now left.
    + intros Hm. apply crack_multi_accepted in Hm.
      eapply accepted_incl; [|exact Hm].
      intros x Hx. rewrite <- (firstn_skipn 100 l). apply in_or_app.
      now right.
Qed.

Lemma run_strategy_attempts (w : World) (self : PasswordCracker)
  (sched : list choice) (l : list string) (st : CrackingStats) :
  attempts (snd (run_strategy w self sched l st)) <= attempts st + length l.
Proof.
  unfold run_strategy. destruct (mode self).
  - pose proof (crack_single_attempts w self l st) as H.
    destruct (_crack_single w self l st). exact H.
  - apply crack_multi_attempts.
  - unfold _crack_hybrid.
    pose proof (crack_single_attempts w self (firstn 100 l) st) as H.
    destruct (_crack_single w self (firstn 100 l) st) as [r st1].
    cbn [snd] in H.
    assert (Hlen : length l = length (firstn 100 l) + length (skipn 100 l))
      by (now rewrite <- length_app, firstn_skipn).
    destruct (truthy r); [cbn [snd]; lia|].
    pose proof (crack_multi_attempts w self sched (skipn 100 l) st1). lia.
Qed.

(** X5: whatever the mode, the schedule, the timeouts and the faults, a
    password that [crack] returns is a candidate of the wordlist that the
    probe accepts (which takes the verification to be on); the statistics
    then say success and carry the same password. *)
Theorem crack_result_accepted (w : World) (fs : FileSystem)
  (self : PasswordCracker) (sched : list choice) (pw : string) (t : Z)
  (st : CrackingStats) :
  crack w fs self sched = Ret (Some pw, t, st) ->
  exists passwords,
    _load_passwords fs self = Ret passwords
    /\ In pw passwords
    /\ probe_matches w (verify_hash self) pw = true
    /\ verify_hash self = true
    /\ success st = true
    /\ found_password st = pw.
Proof.
  unfold crack, crack_handler.
  destruct (_load_passwords fs self) as [passwords|e] eqn:Hload;
    [|discriminate].
  destruct passwords as [|p ps] eqn:Ep; [discriminate|]. rewrite <- Ep in *.
  pose proof (run_strategy_accepted w self sched passwords
                (set_start_time CrackingStats_new (clock_start w)) pw) as H.
  destruct (run_strategy w self sched passwords
              (set_start_time CrackingStats_new (clock_start w)))
    as [[r|e] st1]; [|discriminate].
  cbn [fst] in H. intros [= -> _ <-].
  destruct (H eq_refl) as [Hin Hm].
  exists passwords. split; [reflexivity|]. split; [exact Hin|].
  split; [now rewrite probe_matches_eq|]. split; [|split; [|reflexivity]].
  - unfold outcome_matches in Hm. destruct (attempt w pw); try discriminate.
    now apply andb_true_iff in Hm.
  - simpl. pose proof (load_passwords_nonempty _ _ _ Hload) as Hne.
    rewrite Forall_forall in Hne. specialize (Hne pw Hin).
    now destruct (String.eqb_spec pw "").
Qed.

Lemma crack_result_accepted_witness :
  exists passwords,
    _load_passwords (sample_fs sample_wordlist)
                    (sample_cracker MULTI 2 2 true) = Ret passwords
    /\ In "secret" passwords
    /\ probe_matches secret_world true "secret" = true
    /\ true = true
    /\ success
         (mkStats 2 100 105 "secret" true [""]) = true
    /\ found_password (mkStats 2 100 105 "secret" true [""]) = "secret".
Proof.
  apply (crack_result_accepted secret_world (sample_fs sample_wordlist)
           (sample_cracker MULTI 2 2 true) [Expire; Run 1; Run 0] "secret"
           5%Z (mkStats 2 100 105 "secret" true [""])).
  vm_compute. reflexivity.
Defined.

Lemma crack_unverified_result (w : World) (fs : FileSystem)
  (self : PasswordCracker) (sched : list choice) (r : option string)
  (t : Z) (st : CrackingStats) :
  verify_hash self = false ->
  crack w fs self sched = Ret (r, t, st) ->
  r = None /\ success st = false /\ found_password st = "".
Proof.
  intros Hv. unfold crack, crack_handler.
  destruct (_load_passwords fs self) as [[|p ps]|e].
  - intros [= <- _ <-]. repeat split.
  - pose proof (run_strategy_accepted w self sched (p :: ps)
                  (set_start_time CrackingStats_new (clock_start w))) as H.
    destruct (run_strategy w self sched (p :: ps)
                (set_start_time CrackingStats_new (clock_start w)))
      as [[[pw|]|e] st1] eqn:Est.
    + exfalso. destruct (H pw eq_refl) as [_ Hm].
      unfold outcome_matches in Hm. rewrite Hv in Hm.
      destruct (attempt w pw); discriminate.
    + intros [= <- _ <-]. repeat split.
    + pose proof (run_strategy_frame w self sched (p :: ps)
                    (set_start_time CrackingStats_new (clock_start w)))
        as (_ & _ & Hfp & Hsu).
      rewrite Est in Hfp, Hsu. simpl in Hfp, Hsu.
      intros [= <- _ <-]. simpl. auto.
  - intros [= <- _ <-]. repeat split.
Qed.

(** X6: with the verification switched off, [crack] never returns a
    password: in every mode and under every schedule the result is none,
    whatever the wordlist and the document. *)
Theorem crack_unverified_finds_nothing (w : World) (fs : FileSystem)
  (self : PasswordCracker) (sched : list choice) (r : option string)
  (t : Z) (st : CrackingStats) :
  verify_hash self = false ->
  crack w fs self sched = Ret (r, t, st) ->
  r = None /\ success st = false /\ found_password st = "".
Proof. apply crack_unverified_result. Qed.

Lemma crack_unverified_finds_nothing_witness :
  @None string = None
  /\ success (mkStats 4 100 105 "" false []) = false
  /\ found_password (mkStats 4 100 105 "" false []) = "".
Proof.
  apply (crack_unverified_finds_nothing secret_world
           (sample_fs sample_wordlist) (sample_cracker SINGLE 4 1000 false)
           [] None 5%Z (mkStats 4 100 105 "" false [])).
  - reflexivity.
  - vm_compute. reflexivity.
Defined.

(** X7: the counter [stats.attempts] that [crack] returns never exceeds the
    number of candidates of the wordlist, in any mode and under any
    schedule; it is zero when the wordlist cannot be read. *)
Theorem crack_attempts_bounded (w : World) (fs : FileSystem)
  (self : PasswordCracker) (sched : list choice) (r : option string)
  (t : Z) (st : CrackingStats) :
  crack w fs self sched = Ret (r, t, st) ->
  attempts st <= match _load_passwords fs self with
                 | Ret passwords => length passwords
                 | Raise _ => 0
                 end.
Proof.
  unfold crack, crack_handler.
  destruct (_load_passwords fs self) as [[|p ps]|e];
    try (intros [= _ _ <-]; simpl; lia).
  pose proof (run_strategy_attempts w self sched (p :: ps)
                (set_start_time CrackingStats_new (clock_start w))) as H.
  destruct (run_strategy w self sched (p :: ps)
              (set_start_time CrackingStats_new (clock_start w)))
    as [[r'|e] st1]; intros [= _ _ <-]; simpl in *; lia.
Qed.

Lemma crack_attempts_bounded_witness :
  attempts (mkStats 2 100 105 "secret" true [""])
  <= match _load_passwords (sample_fs sample_wordlist)
             (sample_cracker MULTI 2 2 true) with
     | Ret passwords => length passwords
     | Raise _ => 0
     end.
Proof.
  apply (crack_attempts_bounded secret_world (sample_fs sample_wordlist)
           (sample_cracker MULTI 2 2 true) [Expire; Run 1; Run 0]
           (Some "secret") 5%Z (mkStats 2 100 105 "secret" true [""])).
  vm_compute. reflexivity.
Defined.

(** ** A wordlist with an acceptable candidate *)

Lemma Exists_first_split {A : Type} (f : A -> bool) (l : list A) :
  Exists (fun q => f q = true) l ->
  exists pre x post,
    l = pre ++ x :: post
    /\ Forall (fun q => f q = false) pre /\ f x = true.
Proof.
  induction l as [|a l IH]; intros H; [inversion H|].
  destruct (f a) eqn:E.
  - exists [], a, l. repeat split; auto.
  - inversion H as [? ? Ha|? ? Hl]; subst; [congruence|].
    destruct (IH Hl) as (pre & x & post & -> & Hpre & Hx).
    exists (a :: pre), x, post. repeat split; auto.
Qed.

Lemma Exists_concat {A : Type} (P : A -> Prop) (ll : list (list A)) :
  Exists P (concat ll) -> Exists (Exists P) ll.
Proof.
  induction ll as [|l ll IH]; simpl; intros H; [inversion H|].
  apply Exists_app in H as [H|H]; [now left|right; auto].
Qed.

Lemma crack_multi_finds (w : World) (self : PasswordCracker)
  (sched : list choice) (l : list string) (st : CrackingStats) :
  (0 < chunk_size self)%Z ->
  (1 <= threads self)%Z ->
  (forall i, open_chunk w i = None) ->
  Exists (fun q => outcome_matches w (verify_hash self) q = true) l ->
  exists pw, fst (_crack_multi w self sched l st) = Ret (Some pw).
Proof.
  intros Hcs Hth Hopen Hex. unfold _crack_multi, _crack_multi_run.
  rewrite (make_chunks_positive _ _ Hcs). cbn [bind].
  set (chunks := map _ _).
  assert (Hcat : concat chunks = l) by (apply py_chunks_concat; lia).
  rewrite <- Hcat in Hex. apply Exists_concat in Hex.
  destruct (exec_finds w (verify_hash self) (Z.to_nat (threads self))
              (wait_share (timeout self) (length chunks)) Hopen sched
              chunks st ltac:(lia) Hex) as (pw & Hpw).
  destruct (exec w (verify_hash self) (Z.to_nat (threads self))
                 (wait_share (timeout self) (length chunks)) sched
                 (pool_init chunks st)) as [tr s].
  exists pw. simpl in *. now rewrite Hpw.
Qed.

Lemma run_strategy_finds (w : World) (self : PasswordCracker)
  (sched : list choice) (l : list string) (st : CrackingStats) :
  (0 < chunk_size self)%Z ->
  (1 <= threads self)%Z ->
  open_single w = None ->
  (forall i, open_chunk w i = None) ->
  Forall (fun p => p <> "") l ->
  Exists (fun q => outcome_matches w (verify_hash self) q = true) l ->
  exists pw, fst (run_strategy w self sched l st) = Ret (Some pw).
Proof.
  intros Hcs Hth Hopen1 Hopen Hne Hex. unfold run_strategy.
  destruct (mode self).
  - apply Exists_first_split in Hex as (pre & pw & post & -> & Hpre & Hpw).
    exists pw. rewrite crack_single_first_match; auto.
    + eapply Forall_impl; [|exact Hpre]. intros q.
      now rewrite probe_matches_eq.
    + now rewrite probe_matches_eq.
  - now apply crack_multi_finds.
  - unfold _crack_hybrid.
    pose proof (crack_single_accepted w self (firstn 100 l) st) as Hacc.
    pose proof (crack_single_none_no_match w self (firstn 100 l) st Hopen1)
      as Hnone.
    destruct (_crack_single w self (firstn 100 l) st) as [[pw|] st1];
      cbn [fst] in *.
    + exists pw. destruct (Hacc pw eq_refl) as [Hin _].
      assert (Hpw : pw <> "").
      { rewrite Forall_forall in Hne. apply Hne.
        rewrite <- (firstn_skipn 100 l). apply in_or_app. now left. }
      cbn [truthy]. now destruct (String.eqb_spec pw "").
    + cbn [truthy]. specialize (Hnone eq_refl).
      rewrite <- (firstn_skipn 100 l) in Hex.
      apply Exists_app in Hex as [Hex|Hex].
      * exfalso. apply Exists_exists in Hex as (q & Hq & Hm).
        rewrite Forall_forall in Hnone. specialize (Hnone q Hq).
        rewrite probe_matches_eq in Hnone. congruence.
      * now apply crack_multi_finds.
Qed.

(** X8: when some candidate of the wordlist is accepted by the probe, the
    document opens for every worker, the chunk size is positive and there
    is at least one thread, [crack] returns a password in every mode and
    under every schedule, also when waits time out: an accepted candidate
    of the wordlist, with success recorded. *)
Theorem crack_finds_password (w : World) (fs : FileSystem)
  (self : PasswordCracker) (sched : list choice) (passwords : list string) :
  _load_passwords fs self = Ret passwords ->
  Exists (fun q => probe_matches w (verify_hash self) q = true) passwords ->
  (0 < chunk_size self)%Z ->
  (1 <= threads self)%Z ->
  open_single w = None ->
  (forall i, open_chunk w i = None) ->
  exists pw st,
    crack w fs self sched
    = Ret (Some pw, (clock_end w - clock_start w)%Z, st)
    /\ In pw passwords
    /\ probe_matches w (verify_hash self) pw = true
    /\ success st = true
    /\ found_password st = pw.
Proof.
  intros Hload Hex Hcs Hth Hopen1 Hopen.
  pose proof (load_passwords_nonempty _ _ _ Hload) as Hne.
  assert (Hex' : Exists (fun q => outcome_matches w (verify_hash self) q
                                  = true) passwords).
  { eapply Exists_impl; [|exact Hex]. intros q Hq.
    rewrite <- probe_matches_eq. exact Hq. }
  destruct (run_strategy_finds w self sched passwords
              (set_start_time CrackingStats_new (clock_start w))
              Hcs Hth Hopen1 Hopen Hne Hex') as (pw & Hpw).
  pose proof (run_strategy_accepted w self sched passwords
                (set_start_time CrackingStats_new (clock_start w)) pw Hpw)
    as [Hin Hm].
  pose proof (run_strategy_frame w self sched passwords
                (set_start_time CrackingStats_new (clock_start w)))
    as (Hst & _).
  unfold crack. rewrite Hload.
  destruct passwords as [|p ps] eqn:Ep; [inversion Hex|].
  rewrite <- Ep in *.
  destruct (run_strategy w self sched passwords
              (set_start_time CrackingStats_new (clock_start w)))
    as [r st1].
  cbn [fst snd] in *. subst r. eexists. eexists.
  split; [simpl; rewrite Hst; reflexivity|].
  split; [exact Hin|]. split; [now rewrite probe_matches_eq|].
  split; [|reflexivity]. simpl.
  rewrite Forall_forall in Hne. specialize (Hne pw Hin).
  now destruct (String.eqb_spec pw "").
Qed.

Lemma crack_finds_password_witness :
  exists pw st,
    crack secret_world (sample_fs sample_wordlist)
          (sample_cracker MULTI 2 2 true) [Expire; Run 1; Expire]
    = Ret (Some pw, (clock_end secret_world - clock_start secret_world)%Z,
           st)
    /\ In pw ["aaa"; "bbb"; "secret"; "ccc"]
    /\ probe_matches secret_world true pw = true
    /\ success st = true
    /\ found_password st = pw.
Proof.
  apply (crack_finds_password secret_world (sample_fs sample_wordlist)
           (sample_cracker MULTI 2 2 true) [Expire; Run 1; Expire]
           ["aaa"; "bbb"; "secret"; "ccc"]).
  - reflexivity.
  - right. right. left. reflexivity.
  - reflexivity.
  - simpl. lia.
  - reflexivity.
  - intros i. reflexivity.
Defined.

(** ** Chunk sizes at the edges *)

Lemma exec_no_worker (w : World) (verify : bool) (nthreads : nat)
  (share : Q) (sched : list choice) (st : CrackingStats) :
  exec w verify nthreads share sched (pool_init [] st)
  = ([], pool_init [] st).
Proof.
  unfold exec.
  assert (H : run_schedule w verify nthreads share sched (pool_init [] st)
              = ([], pool_init [] st)).
  { induction sched as [|c sched IH]; [reflexivity|].
    cbn [run_schedule].
    assert (Hc : step_at w verify nthreads share c (pool_init [] st) = None)
      by (destruct c as [[|i]| |]; reflexivity).
    now rewrite Hc. }
  rewrite H. reflexivity.
Qed.

Lemma crack_multi_nonpositive (w : World) (self : PasswordCracker)
  (sched : list choice) (l : list string) (st : CrackingStats) :
  (chunk_size self <= 0)%Z ->
  _crack_multi w self sched l st
  = (if (chunk_size self =? 0)%Z
     then Raise (mkExn ValueError "range() arg 3 must not be zero")
     else Ret None, st).
Proof.
  intros Hcs. unfold _crack_multi, _crack_multi_run, make_chunks.
  destruct (Z.eqb_spec (chunk_size self) 0); [reflexivity|].
  destruct (Z.ltb_spec (chunk_size self) 0); [|lia].
  cbn [bind]. now rewrite exec_no_worker.
Qed.

(** X9: in parallel mode a chunk size of zero or below makes [crack] test
    no candidate at all: it returns none with zero attempts, with the error
    of [range] recorded for a chunk size of zero and with no error, as if
    the wordlist held no password, for a negative one. *)
Theorem crack_nonpositive_chunk_size (w : World) (fs : FileSystem)
  (self : PasswordCracker) (sched : list choice) (passwords : list string) :
  mode self = MULTI ->
  _load_passwords fs self = Ret passwords ->
  passwords <> [] ->
  (chunk_size self <= 0)%Z ->
  exists st,
    crack w fs self sched = Ret (None, (clock_end w - clock_start w)%Z, st)
    /\ attempts st = 0
    /\ success st = false
    /\ errors st = (if (chunk_size self =? 0)%Z
                    then ["range() arg 3 must not be zero"]
                    else []).
Proof.
  intros Hmode Hload Hne Hcs. unfold crack. rewrite Hload.
  destruct passwords as [|p ps]; [contradiction|].
  unfold run_strategy. rewrite Hmode, crack_multi_nonpositive by exact Hcs.
  destruct (chunk_size self =? 0)%Z; eexists; repeat split.
Qed.

Lemma crack_nonpositive_chunk_size_witness :
  exists st,
    crack secret_world (sample_fs sample_wordlist)
          (sample_cracker MULTI 4 (-5) true) [Run 0]
    = Ret (None, (clock_end secret_world - clock_start secret_world)%Z, st)
    /\ attempts st = 0
    /\ success st = false
    /\ errors st = (if (chunk_size (sample_cracker MULTI 4 (-5) true) =? 0)%Z
                    then ["range() arg 3 must not be zero"]
                    else []).
Proof.
  apply (crack_nonpositive_chunk_size secret_world
           (sample_fs sample_wordlist) (sample_cracker MULTI 4 (-5) true)
           [Run 0] ["aaa"; "bbb"; "secret"; "ccc"]).
  - reflexivity.
  - reflexivity.
  - discriminate.
  - simpl. lia.
Defined.

(** ** One chunk for the whole wordlist *)

Lemma make_chunks_single (chunk_size : Z) (l : list string) :
  0 < length l ->
  (Z.of_nat (length l) <= chunk_size)%Z ->
  make_chunks chunk_size l = Ret [l].
Proof.
  intros Hpos Hle. rewrite make_chunks_positive by lia.
  unfold py_range0, py_slice.
  assert (Hq : (length l + Z.to_nat chunk_size - 1) / Z.to_nat chunk_size
               = 1).
  { symmetry. apply (Nat.div_unique _ _ 1 (length l - 1)); lia. }
  rewrite Hq. cbn [seq map]. f_equal.
  rewrite Nat.mul_0_l, Nat.add_0_l, Nat.sub_0_r. cbn [skipn].
  rewrite firstn_all2 by lia. reflexivity.
Qed.

Lemma crack_multi_single_chunk (w : World) (self : PasswordCracker)
  (sched : list choice) (l : list string) (st : CrackingStats) :
  0 < length l ->
  (Z.of_nat (length l) <= chunk_size self)%Z ->
  (1 <= threads self)%Z ->
  no_expire sched ->
  open_chunk w 0 = open_single w ->
  _crack_multi w self sched l st
  = (Ret (fst (_crack_single w self l st)), snd (_crack_single w self l st)).
Proof.
  intros Hpos Hle Hth Hsched Hopen. unfold _crack_multi, _crack_multi_run.
  rewrite (make_chunks_single _ _ Hpos Hle). cbn [bind].
  pose proof (exec_single_worker w (verify_hash self)
                (Z.to_nat (threads self))
                (wait_share (timeout self) (length [l])) sched l st
                ltac:(lia) Hsched) as H.
  cbv zeta in H.
  destruct (exec w (verify_hash self) (Z.to_nat (threads self))
                 (wait_share (timeout self) (length [l])) sched
                 (pool_init [l] st)) as [tr s].
  cbn [snd] in H. unfold _crack_single. rewrite <- Hopen, <- H. reflexivity.
Qed.

(** X10: when the chunk size is at least the number of candidates, no wait
    times out and the document opens (or fails) alike for both, the parallel
    mode of [crack] returns exactly what the sequential mode returns: the
    same result, elapsed time and statistics. *)
Theorem crack_parallel_one_chunk_is_sequential (w : World) (fs : FileSystem)
  (self : PasswordCracker) (sched sched' : list choice)
  (passwords : list string) :
  mode self = MULTI ->
  _load_passwords fs self = Ret passwords ->
  (Z.of_nat (length passwords) <= chunk_size self)%Z ->
  (1 <= threads self)%Z ->
  no_expire sched ->
  open_chunk w 0 = open_single w ->
  crack w fs self sched = crack w fs (with_mode self SINGLE) sched'.
Proof.
  intros Hmode Hload Hle Hth Hsched Hopen. unfold crack.
  change (_load_passwords fs (with_mode self SINGLE))
    with (_load_passwords fs self).
  rewrite Hload. destruct passwords as [|p ps] eqn:Ep; [reflexivity|].
  rewrite <- Ep in *. unfold run_strategy. rewrite Hmode.
  cbn [with_mode mode].
  rewrite crack_multi_single_chunk; auto; [|rewrite Ep; simpl; lia].
  change (_crack_single w (with_mode self SINGLE) passwords)
    with (_crack_single w self passwords).
  destruct (_crack_single w self passwords
              (set_start_time CrackingStats_new (clock_start w)))
    as [r st1].
  reflexivity.
Qed.

Lemma crack_parallel_one_chunk_is_sequential_witness :
  crack secret_world (sample_fs sample_wordlist)
        (sample_cracker MULTI 4 1000 true) [Run 0; Advance; Run 0]
  = crack secret_world (sample_fs sample_wordlist)
          (with_mode (sample_cracker MULTI 4 1000 true) SINGLE) [].
Proof.
  apply (crack_parallel_one_chunk_is_sequential secret_world
           (sample_fs sample_wordlist) (sample_cracker MULTI 4 1000 true)
           [Run 0; Advance; Run 0] [] ["aaa"; "bbb"; "secret"; "ccc"]).
  - reflexivity.
  - reflexivity.
  - simpl. lia.
  - simpl. lia.
  - repeat constructor; discriminate.
  - reflexivity.
Defined.

(** ** A document that does not open *)

Section Closed.
Variable w : World.
Variable verify : bool.
Variable nthreads : nat.
Variable share : Q.
Variable text : string.
Hypothesis always_fault : forall i, open_chunk w i = Some text.

Lemma step_closed (base : CrackingStats) (c : choice) (s : pool)
  (ev : event) (s1 : pool) :
  closed_pool text base s ->
  step_at w verify nthreads share c s = Some (ev, s1) ->
  negb (is_timeout ev) = true ->
  closed_pool text base s1.
Proof.
  unfold closed_pool. intros (Hsh & Hws & Hat & Her) H Hev.
  pool_step_cases H i ws ws' sd' st' Hc Hn Hw;
    [|discriminate|simpl; auto].
  destruct (Forall_nth_error _ _ _ _ Hws Hn) as [Hq| ->];
    [|discriminate].
  destruct ws; try discriminate. simpl in Hw.
  rewrite always_fault in Hw. injection Hw as <- <- <- <-. simpl.
  split; [exact Hsh|]. split; [apply Forall_set_nth; auto|].
  split; [exact Hat|].
  pose proof (list_sum_set_nth (fun x => if is_finished x then 1 else 0)
                Finished (p_workers s) i (Queued chunk) Hn) as Hsum.
  cbv beta in Hsum. simpl in Hsum. unfold finished_count in *.
  rewrite Her, <- app_assoc. f_equal.
  replace (list_sum (map (fun x => if is_finished x then 1 else 0)
                         (set_nth i Finished (p_workers s))))
    with (S (list_sum (map (fun x => if is_finished x then 1 else 0)
                           (p_workers s)))) by lia.
  cbn [repeat]. symmetry. apply repeat_cons.
Qed.

Lemma finished_count_all (l : list wstate) :
  forallb is_finished l = true -> finished_count l = length l.
Proof.
  unfold finished_count. induction l as [|h t IH]; simpl; [reflexivity|].
  intros H. apply andb_true_iff in H as [Hh Ht]. rewrite Hh, IH; auto.
Qed.

Lemma exec_closed (sched : list choice) (chunks : list (list string))
  (st : CrackingStats) :
  1 <= nthreads ->
  no_expire sched ->
  let s := snd (exec w verify nthreads share sched (pool_init chunks st)) in
  password (p_shared s) = None
  /\ attempts (p_stats s) = attempts st
  /\ errors (p_stats s) = errors st ++ repeat text (length chunks).
Proof.
  intros Hthreads Hsched s.
  pose proof (exec_steps w verify nthreads share sched (pool_init chunks st))
    as Hsteps.
  pose proof (exec_no_timeout w verify nthreads share sched
                (pool_init chunks st) Hsched) as Hquiet.
  pose proof (exec_joined w verify nthreads share sched
                (pool_init chunks st) Hthreads) as Hj.
  assert (Hlen : length (p_workers s) = length chunks).
  { pose proof (steps_invariant_all w verify nthreads share
                  (fun x => length (p_workers x) = length chunks)) as Hl.
    apply (Hl) with (s := pool_init chunks st) (tr := fst (exec w verify
             nthreads share sched (pool_init chunks st))); auto.
    - intros c x ev x1 Hx Hstep.
      pool_step_cases Hstep i ws ws' sd' st' Hc Hn Hw; simpl; auto.
      now rewrite length_set_nth.
    - unfold pool_init. simpl. apply length_map. }
  pose proof (steps_invariant w verify nthreads share
                (closed_pool text st) (fun ev => negb (is_timeout ev))
                (step_closed st) _ _ _ Hsteps Hquiet) as Hinv.
  destruct Hinv as (Hsh & _ & Hat & Her).
  { unfold closed_pool, pool_init. simpl. repeat split.
    - apply Forall_map, Forall_forall. intros; now left.
    - unfold finished_count. rewrite map_map. simpl.
      assert (Hz : list_sum (map (fun _ : list string => 0) chunks) = 0)
        by (clear; induction chunks; simpl; auto).
      rewrite Hz. simpl. now rewrite app_nil_r. }
  fold s in Hsh, Hat, Her, Hj. unfold joined in Hj.
  apply andb_true_iff in Hj as [_ Hfin].
  rewrite (finished_count_all _ Hfin), Hlen in Her.
  rewrite Hsh. auto.
Qed.
End Closed.

Lemma crack_multi_closed (w : World) (self : PasswordCracker)
  (sched : list choice) (l : list string) (st : CrackingStats)
  (text : string) :
  (forall i, open_chunk w i = Some text) ->
  (0 < chunk_size self)%Z ->
  (1 <= threads self)%Z ->
  no_expire sched ->
  exists st',
    _crack_multi w self sched l st = (Ret None, st')
    /\ attempts st' = attempts st
    /\ errors st' = errors st
                    ++ repeat text (chunk_count (length l) (chunk_size self)).
Proof.
  intros Hopen Hcs Hth Hsched. unfold _crack_multi, _crack_multi_run.
  rewrite (make_chunks_positive _ _ Hcs). cbn [bind].
  set (chunks := map _ _).
  pose proof (exec_closed w (verify_hash self) (Z.to_nat (threads self))
                (wait_share (timeout self) (length chunks)) text Hopen
                sched chunks st ltac:(lia) Hsched) as H.
  cbv zeta in H.
  destruct (exec w (verify_hash self) (Z.to_nat (threads self))
                 (wait_share (timeout self) (length chunks)) sched
                 (pool_init chunks st)) as [tr s].
  cbn [snd] in H. destruct H as (Hp & Ha & He).
  exists (p_stats s). rewrite Hp. repeat split; auto.
  rewrite He. unfold chunk_count, chunks. now rewrite length_map.
Qed.

(** X11: when the document cannot be opened (the same fault for every
    worker), no wait times out, the chunk size is positive and there is at
    least one thread, [crack] tests no candidate and returns none with zero
    attempts; [stats.errors] holds the text of the fault once per worker
    that the mode starts: one in sequential mode, one per chunk in parallel
    mode, and one plus one per chunk of the candidates past the first
    hundred in hybrid mode. *)
Theorem crack_document_does_not_open (w : World) (fs : FileSystem)
  (self : PasswordCracker) (sched : list choice) (passwords : list string)
  (text : string) :
  open_single w = Some text ->
  (forall i, open_chunk w i = Some text) ->
  _load_passwords fs self = Ret passwords ->
  passwords <> [] ->
  (0 < chunk_size self)%Z ->
  (1 <= threads self)%Z ->
  no_expire sched ->
  exists st,
    crack w fs self sched = Ret (None, (clock_end w - clock_start w)%Z, st)
    /\ attempts st = 0
    /\ success st = false
    /\ errors st
       = repeat text (worker_count (mode self) (length passwords)
                                   (chunk_size self)).
Proof.
  intros Hopen1 Hopen Hload Hne Hcs Hth Hsched.
  pose proof (run_strategy_frame w self sched passwords
                (set_start_time CrackingStats_new (clock_start w)))
    as (Hst & _).
  unfold crack. rewrite Hload.
  destruct passwords as [|p ps] eqn:Ep; [contradiction|].
  rewrite <- Ep in *. clear Ep.
  assert (Hrun : exists st',
             run_strategy w self sched passwords
               (set_start_time CrackingStats_new (clock_start w))
             = (Ret None, st')
             /\ attempts st' = 0
             /\ errors st'
                = repeat text (worker_count (mode self) (length passwords)
                                            (chunk_size self))).
  { unfold run_strategy, worker_count. destruct (mode self).
    - unfold _crack_single, _worker. rewrite Hopen1.
      eexists. repeat split.
    - destruct (crack_multi_closed w self sched passwords
                  (set_start_time CrackingStats_new (clock_start w)) text
                  Hopen Hcs Hth Hsched) as (st' & E & Ha & He).
      exists st'. rewrite E. repeat split; auto.
    - unfold _crack_hybrid, _crack_single, _worker. rewrite Hopen1.
      cbn [password shared_new truthy].
      destruct (crack_multi_closed w self sched (skipn 100 passwords)
                  (errors_append
                     (set_start_time CrackingStats_new (clock_start w))
                     text) text Hopen Hcs Hth Hsched) as (st' & E & Ha & He).
      exists st'. rewrite E. repeat split; auto.
      rewrite He, length_skipn. reflexivity. }
  destruct Hrun as (st' & E & Ha & He). rewrite E in *. cbn [snd] in Hst.
  eexists. split; [simpl; rewrite Hst; reflexivity|].
  repeat split; auto.
Qed.

Lemma crack_document_does_not_open_witness :
  exists st,
    crack (mkWorld (fun _ => InvalidKey) (Some "not an OLE file")
                   (fun _ => Some "not an OLE file") 0 1)
          (sample_fs sample_wordlist) (sample_cracker MULTI 2 3 true)
          [Run 1; Run 0]
    = Ret (None, (1 - 0)%Z, st)
    /\ attempts st = 0
    /\ success st = false
    /\ errors st = repeat "not an OLE file" (worker_count MULTI 4 3).
Proof.
  apply (crack_document_does_not_open
           (mkWorld (fun _ => InvalidKey) (Some "not an OLE file")
                    (fun _ => Some "not an OLE file") 0 1)
           (sample_fs sample_wordlist) (sample_cracker MULTI 2 3 true)
           [Run 1; Run 0] ["aaa"; "bbb"; "secret"; "ccc"]
           "not an OLE file").
  - reflexivity.
  - intros i. reflexivity.
  - reflexivity.
  - discriminate.
  - reflexivity.
  - simpl. lia.
  - repeat constructor; discriminate.
Defined.

(** ** The callers *)

Lemma crack_returns (w : World) (fs : FileSystem) (self : PasswordCracker)
  (sched : list choice) :
  exists o, crack w fs self sched = Ret o.
Proof.
  unfold crack, crack_handler.
  destruct (_load_passwords fs self) as [[|p ps]|e]; eauto.
  destruct (run_strategy w self sched (p :: ps)
              (set_start_time CrackingStats_new (clock_start w)))
    as [[r|e] st1]; eauto.
Qed.

(** X12: [main] ends with status 0 exactly when the document and the
    wordlist both exist and are not empty, whatever the search then does
    (password found or not, errors, timeouts); otherwise it ends with
    status 1 after printing the single line "Critical error: ..." with the
    text of the exception of the constructor. *)
Theorem main_exit_status (w : World) (fs : FileSystem) (fmt : Z -> string)
  (args : Args) (sched : list choice) :
  (snd (main w fs fmt args sched) = 0%Z <->
   exists doc wl,
     fs (a_file args) = Some doc /\ fs (a_wordlist args) = Some wl
     /\ doc <> "" /\ wl <> "")
  /\ (snd (main w fs fmt args sched) = 0%Z
      \/ snd (main w fs fmt args sched) = 1%Z
         /\ exists e,
              PasswordCracker_init fs (a_file args) (a_wordlist args)
                (a_mode args) (a_threads args) (a_chunk_size args)
                (a_timeout args) (a_verify args) = Raise e
              /\ fst (main w fs fmt args sched) = [critical e]).
Proof.
  unfold main, construct_and_crack.
  destruct (PasswordCracker_init fs (a_file args) (a_wordlist args)
              (a_mode args) (a_threads args) (a_chunk_size args)
              (a_timeout args) (a_verify args)) as [self|e] eqn:Einit;
    cbn [bind].
  - destruct (crack_returns w fs self sched) as (o & ->). cbn [snd].
    split; [|now left]. split; [intros _|reflexivity].
    now apply init_succeeds_iff in Einit as [Hex _].
  - cbn [snd fst]. split; [|right; split; [reflexivity|eauto]].
    split; [discriminate|]. intros Hex. exfalso.
    assert (Hok : PasswordCracker_init fs (a_file args) (a_wordlist args)
                    (a_mode args) (a_threads args) (a_chunk_size args)
                    (a_timeout args) (a_verify args)
                  = Ret (mkCracker (a_file args) (a_wordlist args)
                           (a_mode args) (clamp_threads (a_threads args))
                           (a_chunk_size args) (a_timeout args)
                           (a_verify args)))
      by (apply init_succeeds_iff; auto).
    congruence.
Qed.

(** X13: the check button of the window never reports a password: it
    builds the cracker with the verification off, so whatever the document,
    the wordlist, the chosen mode and the schedule, the pane receives either
    the single line "Critical error: ..." or "Password not found", followed
    by the errors. *)
Theorem gui_never_reports_success (w : World) (fs : FileSystem)
  (fmt : Z -> string) (line_edit combo_box : string) (sched : list choice) :
  (exists e,
      pushButton_check_clicked w fs fmt line_edit combo_box sched
      = [critical e])
  \/ (exists more,
         pushButton_check_clicked w fs fmt line_edit combo_box sched
         = (newline ++ "Password not found")%string :: more).
Proof.
  unfold pushButton_check_clicked.
  destruct (CrackingMode_of_value (lower (first_piece combo_box)))
    as [m|e]; cbn [bind]; [|left; eauto].
  unfold construct_and_crack.
  destruct (PasswordCracker_init fs (strip line_edit) "../wordlist.txt" m 4
              1000 3600 false) as [self|e] eqn:Einit; cbn [bind];
    [|left; eauto].
  apply init_threads in Einit as (_ & Hv & _).
  destruct (crack_returns w fs self sched) as ([[r t] st] & Hc).
  rewrite Hc. destruct (crack_unverified_result _ _ _ _ _ _ _ Hv Hc)
    as (-> & _).
  right. cbn [report truthy]. eauto.
Qed.

(** ** The legacy tool *)

Lemma legacy_chunk_count (n t : nat) :
  1 <= t -> t <= n ->
  t <= (n + n / t - 1) / (n / t) <= 2 * t - 1
  /\ (n mod t = 0 -> (n + n / t - 1) / (n / t) = t).
Proof.
  intros Ht Hn.
  pose proof (Nat.div_mod_eq n t) as E.
  pose proof (Nat.mod_upper_bound n t ltac:(lia)) as Hr.
  assert (Hq : 1 <= n / t) by (apply Nat.div_le_lower_bound; lia).
  set (q := n / t) in *. set (r := n mod t) in *.
  split; [split|].
  - apply Nat.div_le_lower_bound; [lia|]. nia.
  - assert (H : (n + q - 1) / q < 2 * t);
      [apply Nat.Div0.div_lt_upper_bound; nia | lia].
  - intros Hz. symmetry.
    apply (Nat.div_unique _ _ t (q - 1)); [lia|]. nia.
Qed.

(** X14: the multi-threaded search of the legacy tool takes
    [len(passwords) // num_threads] as chunk size.  With fewer passwords
    than threads this is zero and [range] raises, so nothing is searched;
    with at least as many passwords as threads the chunks partition the
    passwords, but their number, which is the number of threads started,
    lies between [num_threads] and [2 * num_threads - 1], and is
    [num_threads] when [num_threads] divides the number of passwords. *)
Theorem legacy_chunks_count (passwords : list string) (num_threads : Z) :
  (1 <= num_threads)%Z ->
  ((Z.of_nat (length passwords) < num_threads)%Z ->
   legacy_chunks passwords num_threads
   = Raise (mkExn ValueError "range() arg 3 must not be zero"))
  /\ ((num_threads <= Z.of_nat (length passwords))%Z ->
      exists chunks,
        legacy_chunks passwords num_threads = Ret chunks
        /\ concat chunks = passwords
        /\ (num_threads <= Z.of_nat (length chunks)
            <= 2 * num_threads - 1)%Z
        /\ ((Z.of_nat (length passwords) mod num_threads = 0)%Z ->
            Z.of_nat (length chunks) = num_threads)).
Proof.
  intros Ht. unfold legacy_chunks.
  destruct (Z.eqb_spec num_threads 0) as [Hz|Hnz]; [lia|]. split.
  - intros Hlt. rewrite Z.div_small by lia. reflexivity.
  - intros Hle.
    set (n := length passwords) in *. set (t := Z.to_nat num_threads).
    assert (Et : num_threads = Z.of_nat t) by (unfold t; lia).
    assert (Eq : (Z.of_nat n / num_threads)%Z = Z.of_nat (n / t))
      by (rewrite Et; symmetry; apply Nat2Z.inj_div).
    destruct (legacy_chunk_count n t ltac:(lia) ltac:(lia))
      as [[Hlo Hhi] Hdiv].
    assert (Hq : 1 <= n / t) by (apply Nat.div_le_lower_bound; lia).
    rewrite Eq, make_chunks_positive by lia.
    eexists. split; [reflexivity|]. split; [apply py_chunks_concat; lia|].
    unfold py_range0. rewrite !length_map, length_seq, Nat2Z.id.
    fold n. split; [lia|]. intros Hmod. rewrite Et in Hmod |- *.
    rewrite <- Nat2Z.inj_mod in Hmod. f_equal. apply Hdiv. lia.
Qed.

Lemma legacy_chunks_count_witness :
  (exists chunks,
      legacy_chunks ["a"; "b"; "c"; "d"; "e"] 3 = Ret chunks
      /\ concat chunks = ["a"; "b"; "c"; "d"; "e"]
      /\ (3 <= Z.of_nat (length chunks) <= 2 * 3 - 1)%Z
      /\ ((Z.of_nat (length ["a"; "b"; "c"; "d"; "e"]) mod 3 = 0)%Z ->
          Z.of_nat (length chunks) = 3%Z)).
Proof.
  apply (legacy_chunks_count ["a"; "b"; "c"; "d"; "e"] 3); simpl; lia.
Defined.

Lemma try_password_decrypted (lw : LegacyWorld) (pw : string)
  (out : list string) :
  l_open lw = None -> l_encrypted lw = true ->
  fst (try_password lw pw out) = true
  <-> exists size, l_attempt lw pw = Decrypted size.
Proof.
  intros Ho He. unfold try_password. rewrite Ho, He. simpl.
  destruct (l_attempt lw pw) as [|msg|size]; simpl; split;
    try discriminate; try (intros [s Hs]; discriminate).
  - intros _. now exists size.
  - reflexivity.
Qed.

(** X15: on a document that opens and is encrypted, the sequential search
    of the legacy tool returns the first password of the list for which
    the library's decryption goes through, whatever it produced, and
    [None] exactly when there is none. *)
Theorem crack_single_thread_first (lw : LegacyWorld)
  (passwords : list string) (out : list string) :
  l_open lw = None -> l_encrypted lw = true ->
  match fst (fst (crack_single_thread lw passwords out)) with
  | Some pw =>
      exists pre post size,
        passwords = pre ++ pw :: post
        /\ l_attempt lw pw = Decrypted size
        /\ forall q, In q pre -> forall s, l_attempt lw q <> Decrypted s
  | None =>
      forall q, In q passwords -> forall s, l_attempt lw q <> Decrypted s
  end.
Proof.
  intros Ho He. unfold crack_single_thread.
  destruct (crack_single_thread_loop lw passwords out) as [r out1] eqn:E.
  simpl. revert out r out1 E.
  induction passwords as [|pw rest IH]; intros out r out1 E; simpl in E.
  - injection E as <- _. intros q [].
  - pose proof (try_password_decrypted lw pw out Ho He) as Hd.
    destruct (try_password lw pw out) as [ok out2]. simpl in Hd.
    destruct ok.
    + injection E as <- _. destruct Hd as [[size Hs] _]; [reflexivity|].
      exists [], rest, size. repeat split; [exact Hs|]. intros q [].
    + specialize (IH _ _ _ E). destruct r as [found|].
      * destruct IH as (pre & post & size & -> & Hs & Hpre).
        exists (pw :: pre), post, size. repeat split; [exact Hs|].
        intros q [<-|Hq] s Hq'; [|exact (Hpre q Hq s Hq')].
        destruct Hd as [_ Hd]. discriminate Hd. now exists s.
      * intros q [<-|Hq] s Hq'; [|exact (IH q Hq s Hq')].
        destruct Hd as [_ Hd]. discriminate Hd. now exists s.
Qed.

Lemma crack_single_thread_first_witness :
  exists pre post size,
    ["a"; "secret"; "b"] = pre ++ "secret" :: post
    /\ l_attempt
         (mkLegacy (attempt secret_world) None true 0 1) "secret"
       = Decrypted size
    /\ forall q, In q pre -> forall s,
         l_attempt (mkLegacy (attempt secret_world) None true 0 1) q
         <> Decrypted s.
Proof.
  exact (crack_single_thread_first
           (mkLegacy (attempt secret_world) None true 0 1)
           ["a"; "secret"; "b"] [] eq_refl eq_refl).
Defined.

Lemma legacy_loop_agrees (w : World) (lw : LegacyWorld) :
  l_open lw = None -> l_encrypted lw = true ->
  forall (passwords : list string) (st : CrackingStats) (out : list string),
    (forall pw, In pw passwords -> l_attempt lw pw = attempt w pw) ->
    (fst (crack_single_thread_loop lw passwords out)
     = password (fst (_worker_loop w true passwords shared_new st))
     <-> forall pw,
           fst (crack_single_thread_loop lw passwords out) = Some pw ->
           attempt w pw <> Decrypted 0).
Proof.
  intros Ho He.
  induction passwords as [|pw rest IH]; intros st out Hsame.
  - split; [discriminate|reflexivity].
  - cbn [crack_single_thread_loop _worker_loop shared_new found].
    rewrite try_decrypt_eq. unfold try_password, outcome_matches.
    rewrite Ho, He. unfold legacy_encodings. cbn [try_password_loop].
    rewrite (Hsame pw (or_introl eq_refl)).
    assert (Hrest : forall q, In q rest -> l_attempt lw q = attempt w q)
      by (intros q Hq; apply Hsame; now right).
    destruct (attempt w pw) as [|msg|[|size]] eqn:E; cbn.
    + apply IH, Hrest.
    + apply IH, Hrest.
    + split.
      * intros H. exfalso. symmetry in H.
        apply worker_loop_result_accepted in H as [_ H].
        unfold outcome_matches in H. rewrite E in H. discriminate.
      * intros H. now contradiction (H pw eq_refl).
    + split; [|reflexivity]. intros _ q [= <-]. rewrite E. discriminate.
Qed.

(** X16: when the two tools see the same library on a document that opens
    and is encrypted, with the verification on, the legacy
    [crack_single_thread] and the sequential strategy of the cracker return
    the same answer exactly when the size check of the cracker passes on
    the password that the legacy search returns, that is, when [getsize]
    does not read zero for the temporary file of that decryption.  When it
    reads zero the legacy search returns the password and the cracker does
    not. *)
Theorem crack_single_thread_agrees (w : World) (lw : LegacyWorld)
  (self : PasswordCracker) (passwords : list string) (st : CrackingStats)
  (out : list string) :
  verify_hash self = true -> open_single w = None ->
  l_open lw = None -> l_encrypted lw = true ->
  (forall pw, In pw passwords -> l_attempt lw pw = attempt w pw) ->
  (fst (fst (crack_single_thread lw passwords out))
   = fst (_crack_single w self passwords st)
   <-> forall pw,
         fst (fst (crack_single_thread lw passwords out)) = Some pw ->
         attempt w pw <> Decrypted 0).
Proof.
  intros Hv Hw Ho He Hsame.
  unfold crack_single_thread, _crack_single, _worker. rewrite Hv, Hw.
  pose proof (legacy_loop_agrees w lw Ho He passwords st out Hsame) as H.
  destruct (crack_single_thread_loop lw passwords out).
  destruct (_worker_loop w true passwords shared_new st). exact H.
Qed.

Lemma crack_single_thread_agrees_witness :
  fst (fst (crack_single_thread
              (mkLegacy (attempt secret_world) None true 0 1)
              ["a"; "secret"; "b"] []))
  = fst (_crack_single secret_world (sample_cracker SINGLE 4 1000 true)
           ["a"; "secret"; "b"] CrackingStats_new).
Proof.
  apply (proj2 (crack_single_thread_agrees secret_world
                  (mkLegacy (attempt secret_world) None true 0 1)
                  (sample_cracker SINGLE 4 1000 true)
                  ["a"; "secret"; "b"] CrackingStats_new []
                  eq_refl eq_refl eq_refl eq_refl
                  (fun pw _ => eq_refl))).
  intros pw [= <-]. discriminate.
Defined.

Lemma crack_single_thread_closed (lw : LegacyWorld) (msg : string) :
  (forall pw out, try_password lw pw out
                  = (false, out ++ [trying_error pw msg])) ->
  forall (passwords : list string) (out : list string),
    crack_single_thread_loop lw passwords out
    = (None, out ++ map (fun pw => trying_error pw msg) passwords).
Proof.
  intros H. induction passwords as [|pw rest IH]; intros out; simpl.
  - now rewrite app_nil_r.
  - rewrite H, IH, <- app_assoc. reflexivity.
Qed.

(** X17: a document that does not open, or that is not encrypted, does not
    stop the legacy sequential search: it goes through the whole list,
    prints one line per password with the same reason, and returns no
    password. *)
Theorem crack_single_thread_unusable (lw : LegacyWorld)
  (passwords : list string) (out : list string) :
  l_open lw <> None \/ l_encrypted lw = false ->
  crack_single_thread lw passwords out
  = (None, (l_clock_end lw - l_clock_start lw)%Z,
     out ++ map (fun pw =>
                   trying_error pw
                     match l_open lw with
                     | Some text => text
                     | None => "File is not encrypted"
                     end) passwords).
Proof.
  intros H. unfold crack_single_thread.
  rewrite (crack_single_thread_closed lw
             match l_open lw with
             | Some text => text
             | None => "File is not encrypted"
             end); [reflexivity|].
  intros pw out'. unfold try_password.
  destruct (l_open lw) as [text|]; [reflexivity|].
  destruct H as [H|H]; [now contradiction H|]. now rewrite H.
Qed.

Lemma crack_single_thread_unusable_witness :
  crack_single_thread (mkLegacy (attempt secret_world) None false 0 1)
    ["a"; "secret"] []
  = (None, 1%Z,
     ["Error trying password 'a': File is not encrypted";
      "Error trying password 'secret': File is not encrypted"]).
Proof.
  apply (crack_single_thread_unusable
           (mkLegacy (attempt secret_world) None false 0 1)
           ["a"; "secret"] []).
  now right.
Defined.
